(** * Lincoln manual assistant: ingestion and retrieval, verified model

    A shallow embedding of [ingest.mjs] (text clean-up, chunking, page
    acquisition, embedding batches) and of the [/ask] handler of the query
    server (filter funnel, fallback, citations), followed by the properties
    established about them.

    Conventions.
    - A JavaScript string is the list of its UTF-16 code units; the regular
      expressions of the source carry no [u] flag, so they work on code
      units as well.
    - Array indices and string positions are [Z], as the source computes
      with them ([Math.min], [Math.max], [-1] for a failed search).
    - Similarity scores are finite doubles read from JSON; they are only
      compared, so they are embedded as rationals: the sign of a
      difference of two finite doubles is the sign of the exact
      difference, and the double written [0.45] is the least double that
      is at least 45/100. *)

From Stdlib Require Import List Bool Arith NArith ZArith QArith Lia Lqa.
From Stdlib Require Import Ascii String FinFun Sorted Permutation.
From Stdlib Require Import DecimalString.
Import ListNotations.

Set Implicit Arguments.
Close Scope Q_scope.

(* ===================================================================== *)
(** * Part I: definitions                                                  *)
(* ===================================================================== *)

(** ** JavaScript strings *)

Module Js.

Definition char := N.
Definition jsstring := list char.

(** ASCII literal to code units (used for constants of the source). *)
Definition str (s : string) : jsstring :=
  List.map N_of_ascii (list_ascii_of_string s).

Definition TAB : char := 9%N.
Definition LF : char := 10%N.
Definition CR : char := 13%N.
Definition SP : char := 32%N.
Definition DQUOTE : char := 34%N.
Definition SQUOTE : char := 39%N.
Definition HYPHEN : char := 45%N.
Definition DOT : char := 46%N.
Definition EQUALS : char := 61%N.
Definition EM_DASH : char := 0x2014%N.
Definition EN_DASH : char := 0x2013%N.

Definition is_char (d : char) : char -> bool := fun c => N.eqb c d.

Definition in_range (lo hi : N) : char -> bool :=
  fun c => N.leb lo c && N.leb c hi.

(** [\s]: WhiteSpace and LineTerminator of ECMAScript; [trim] strips the
    same set. *)
Definition is_space (c : char) : bool :=
  (in_range 9 13 c || is_char 32 c || is_char 0xA0 c || is_char 0x1680 c
   || in_range 0x2000 0x200A c || is_char 0x2028 c || is_char 0x2029 c
   || is_char 0x202F c || is_char 0x205F c || is_char 0x3000 c
   || is_char 0xFEFF c)%N.

(** [[A-Za-z]] *)
Definition is_letter (c : char) : bool :=
  (in_range 65 90 c || in_range 97 122 c)%N.

(** [\d] *)
Definition is_digit (c : char) : bool := (in_range 48 57 c)%N.

(** [[a-z0-9]] *)
Definition is_lower_alnum (c : char) : bool :=
  (in_range 97 122 c || in_range 48 57 c)%N.

Fixpoint drop_while (p : char -> bool) (s : jsstring) : jsstring :=
  match s with
  | c :: s' => if p c then drop_while p s' else s
  | [] => []
  end.

Definition trimStart (s : jsstring) : jsstring := drop_while is_space s.
Definition trimEnd (s : jsstring) : jsstring :=
  rev (drop_while is_space (rev s)).

(** [String.prototype.trim] *)
Definition trim (s : jsstring) : jsstring := trimEnd (trimStart s).

Definition len (s : jsstring) : Z := Z.of_nat (List.length s).

(** [s.slice(a, b)]: negative arguments count from the end, both are
    clamped to the string, an empty range gives the empty string. *)
Definition slice (s : jsstring) (a b : Z) : jsstring :=
  let from := if (a <? 0)%Z then Z.max (len s + a) 0 else Z.min a (len s) in
  let to := if (b <? 0)%Z then Z.max (len s + b) 0 else Z.min b (len s) in
  firstn (Z.to_nat (to - from)) (skipn (Z.to_nat from) s).

(** Last position of [c] in [l], or [-1]. *)
Fixpoint last_index (c : char) (l : jsstring) : Z :=
  match l with
  | [] => (-1)%Z
  | d :: l' =>
      let r := last_index c l' in
      if (0 <=? r)%Z then (r + 1)%Z
      else if N.eqb d c then 0%Z else (-1)%Z
  end.

(** [s.lastIndexOf(c, from)] for a one-character needle: the greatest
    position [k <= max(from, 0)] with [s[k] = c], or [-1]. *)
Definition lastIndexOf (c : char) (s : jsstring) (from : Z) : Z :=
  last_index c (firstn (S (Z.to_nat (Z.max from 0))) s).

Fixpoint isPrefix (w s : jsstring) : bool :=
  match w, s with
  | [], _ => true
  | a :: w', b :: s' => N.eqb a b && isPrefix w' s'
  | _ :: _, [] => false
  end.

(** [s.includes(w)] *)
Fixpoint includes (s w : jsstring) : bool :=
  isPrefix w s ||
  match s with
  | [] => false
  | _ :: s' => includes s' w
  end.

Fixpoint str_eqb (a b : jsstring) : bool :=
  match a, b with
  | [], [] => true
  | x :: a', y :: b' => N.eqb x y && str_eqb a' b'
  | _, _ => false
  end.

(** *** Regular expressions

    The fragment the source uses: a sequence of character classes, each
    taken once or repeated greedily at least [mn] times, optionally inside
    a capture group.  Matching is by backtracking in the order of the
    language: the longest repetition is tried first. *)

Inductive item :=
| Ch (cap : bool) (p : char -> bool)
| Rep (cap : bool) (p : char -> bool) (mn : nat).

Definition regex := list item.

(** Length of the match and the text of the capture groups. *)
Definition mres := option (nat * list jsstring).

Fixpoint run_length (p : char -> bool) (s : jsstring) : nat :=
  match s with
  | c :: s' => if p c then S (run_length p s') else 0
  | [] => 0
  end.

Definition extend (cap : bool) (txt : jsstring) (r : mres) : mres :=
  match r with
  | Some (n, caps) =>
      Some (List.length txt + n, if cap then txt :: caps else caps)%nat
  | None => None
  end.

(** Try [j], [j-1], ..., [mn] repetitions, the rest of the pattern being
    [k]. *)
Fixpoint try_counts (k : jsstring -> mres) (cap : bool) (s : jsstring)
    (mn j : nat) : mres :=
  if (j <? mn)%nat then None
  else
    match extend cap (firstn j s) (k (skipn j s)) with
    | Some r => Some r
    | None =>
        match j with
        | 0 => None
        | S j' => try_counts k cap s mn j'
        end
    end.

(** Match the pattern at the start of [s]. *)
Fixpoint match_here (re : regex) (s : jsstring) : mres :=
  match re with
  | [] => Some (0, [])%nat
  | Ch cap p :: re' =>
      match s with
      | c :: s' => if p c then extend cap [c] (match_here re' s') else None
      | [] => None
      end
  | Rep cap p mn :: re' =>
      try_counts (match_here re') cap s mn (run_length p s)
  end.

(** Replacement text: literal characters and [$i]. *)
Inductive tpart := Lit (c : char) | Grp (i : nat).

Definition subst (tpl : list tpart) (caps : list jsstring) : jsstring :=
  flat_map (fun t => match t with
                     | Lit c => [c]
                     | Grp i => nth (i - 1) caps []
                     end) tpl.

(** [s.replace(/re/g, tpl)]: matches are searched left to right; [skip]
    counts the characters of the current match still to pass over. *)
Fixpoint replace_from (re : regex) (tpl : list tpart) (skip : nat)
    (s : jsstring) : jsstring :=
  match s with
  | [] =>
      match skip, match_here re [] with
      | 0, Some (_, caps) => subst tpl caps
      | _, _ => []
      end
  | c :: s' =>
      match skip with
      | S k => replace_from re tpl k s'
      | 0 =>
          match match_here re s with
          | Some (0, caps) => subst tpl caps ++ c :: replace_from re tpl 0 s'
          | Some (S k, caps) => subst tpl caps ++ replace_from re tpl k s'
          | None => c :: replace_from re tpl 0 s'
          end
      end
  end.

Definition replace_all (re : regex) (tpl : list tpart) (s : jsstring)
    : jsstring :=
  replace_from re tpl 0 s.

(** [s.match(/re/g) || []]: the matched substrings, left to right. *)
Fixpoint match_all_from (re : regex) (skip : nat) (s : jsstring)
    : list jsstring :=
  match s with
  | [] => []
  | c :: s' =>
      match skip with
      | S k => match_all_from re k s'
      | 0 =>
          match match_here re s with
          | Some (0, _) => [] :: match_all_from re 0 s'
          | Some (S k, _) => firstn (S k) s :: match_all_from re k s'
          | None => match_all_from re 0 s'
          end
      end
  end.

Definition match_all (re : regex) (s : jsstring) : list jsstring :=
  match_all_from re 0 s.

End Js.

Import Js.

(** ** ingest.mjs: helpers *)

Definition CHUNK_CHARS : Z := 900.
Definition CHUNK_OVERLAP : Z := 120.
Definition BATCH : nat := 24.

(** Character classes of [cleanText]. *)
Definition is_dash (c : char) : bool := is_char EM_DASH c || is_char EN_DASH c.
Definition is_blank_tab (c : char) : bool := is_char SP c || is_char TAB c.
Definition is_dquote_curly (c : char) : bool :=
  (is_char 0x201C c || is_char 0x201D c)%N.
Definition is_squote_curly (c : char) : bool :=
  (is_char 0x2018 c || is_char 0x2019 c)%N.
(** [[^\S\n]]: white space other than the newline. *)
Definition is_hspace (c : char) : bool := is_space c && negb (is_char LF c).

(** The nine patterns of [cleanText], in source order. *)
Definition re_cr : regex := [Ch false (is_char CR)].
Definition re_eq_pad : regex :=
  [Ch false (is_char EQUALS); Rep false is_space 0; Ch false (is_char EQUALS)].
Definition re_dashes : regex := [Rep false is_dash 1].
Definition re_wrap : regex :=
  [Ch true is_letter; Ch false (is_char HYPHEN); Rep false is_space 0;
   Ch false (is_char LF); Rep false is_space 0; Ch true is_letter].
Definition re_trail : regex :=
  [Rep false is_blank_tab 1; Ch false (is_char LF)].
Definition re_newlines : regex := [Rep false (is_char LF) 2].
Definition re_dquote : regex := [Ch false is_dquote_curly].
Definition re_squote : regex := [Ch false is_squote_curly].
Definition re_hspace : regex := [Rep false is_hspace 1].
Definition re_spaces : regex := [Rep false is_space 2].

(** The rewriting chain of [cleanText], before the final [trim]. *)
Definition clean_rules (t : jsstring) : jsstring :=
  let t1 := replace_all re_cr [Lit LF] t in
  let t2 := replace_all re_eq_pad [Lit SP] t1 in
  let t3 := replace_all re_dashes [Lit HYPHEN] t2 in
  let t4 := replace_all re_wrap [Grp 1; Grp 2] t3 in
  let t5 := replace_all re_trail [Lit LF] t4 in
  let t6 := replace_all re_newlines [Lit LF] t5 in
  let t7 := replace_all re_squote [Lit SQUOTE]
              (replace_all re_dquote [Lit DQUOTE] t6) in
  let t8 := replace_all re_hspace [Lit SP] t7 in
  replace_all re_spaces [Lit SP] t8.

(** [cleanText(t)] *)
Definition cleanText (t : jsstring) : jsstring :=
  match t with
  | [] => []
  | _ => trim (clean_rules t)
  end.

(** One iteration of the loop of [chunkText] at cursor [i]: the chunk it
    pushes and the next cursor.  [dot > i + size * 0.5] is compared after
    doubling both sides, which is the same test on integers. *)
Definition chunk_step (s : jsstring) (size overlap : Z) (i : Z)
    : jsstring * Z :=
  let end0 := Z.min (i + size) (len s) in
  let dot := lastIndexOf DOT s end0 in
  let end_ := if (2 * i + size <? 2 * dot)%Z then (dot + 1)%Z else end0 in
  (trim (slice s i end_), Z.max (end_ - overlap) end_).

(** The [while (i < s.length)] loop; [None] when [fuel] iterations were not
    enough to leave it. *)
Fixpoint chunk_loop (fuel : nat) (s : jsstring) (size overlap : Z) (i : Z)
    (out : list jsstring) : option (list jsstring) :=
  if (i <? len s)%Z then
    match fuel with
    | 0 => None
    | S fuel' =>
        let '(chunk, i') := chunk_step s size overlap i in
        chunk_loop fuel' s size overlap i' (out ++ [chunk])
    end
  else Some out.

(** [Boolean(x)] on a string: non-empty. *)
Definition truthy (s : jsstring) : bool :=
  match s with [] => false | _ => true end.

(** [chunkText(s, size, overlap)], the loop being run for at most
    [s.length] iterations. *)
Definition chunkText (s : jsstring) (size overlap : Z)
    : option (list jsstring) :=
  option_map (filter truthy) (chunk_loop (List.length s) s size overlap 0 []).

(** ** ingest.mjs: external tools, embedder and the ingestion run *)

(** The search used by a non-global [s.match(/re/)]: the leftmost match. *)
Fixpoint search (re : regex) (s : jsstring) : mres :=
  match match_here re s with
  | Some r => Some r
  | None =>
      match s with
      | [] => None
      | _ :: s' => search re s'
      end
  end.

(** [/Pages:\s+(\d+)/] *)
Definition re_pages : regex :=
  List.map (fun c => Ch false (is_char c)) (str "Pages:")
  ++ [Rep false is_space 1; Rep true is_digit 1].

(** [/\u0000/g] *)
Definition re_nul : regex := [Ch false (is_char 0%N)].

(** [Number.MAX_SAFE_INTEGER], [2^53 - 1]: up to it every integer is a
    Number of the source and is printed in plain decimal digits. *)
Definition MAX_SAFE : Z := 9007199254740991%Z.

(** [parseInt(d, 10)] on a string of decimal digits: the decimal value of
    [d].  Numbers of the source are doubles: the value is the one the
    source computes as long as it is at most [MAX_SAFE]; a longer run of
    digits is rounded by the source (and is [Infinity] beyond the range
    of doubles).  What is stated about the value is stated within that
    bound. *)
Definition parseInt (d : jsstring) : Z :=
  fold_left (fun acc c => (10 * acc + (Z.of_N c - 48))%Z) d 0%Z.

(** What [spawnSync] reports; [status] is [null] when the process did not
    exit by itself. *)
Record spawn_result := {
  status : option Z;
  stdout : jsstring;
  stderr : jsstring
}.

Definition exited_zero (st : option Z) : bool :=
  match st with
  | Some c => (c =? 0)%Z
  | None => false
  end.

Inductive error :=
| PdfinfoFailed (err : jsstring)
| PageCountUnparsed
| MkdtempFailed
| PdftoppmFailed (code : option Z)
| RecognizeFailed
| PipelineLoadFailed
| EmbedderFailed
| VectorCountMismatch (got want : nat)
| UpsertFailed
| PointCountFailed
| LoopUnfinished.

Inductive result (A : Type) :=
| Ok (a : A)
| Throw (e : error).
Arguments Ok {A} a.
Arguments Throw {A} e.

Definition is_ok {A : Type} (r : result A) : bool :=
  match r with Ok _ => true | Throw _ => false end.

Section Ingestion.

(** Component of an embedding vector (a single-precision float in the
    source); vectors are moved around, never computed with. *)
Variable num : Type.

Definition vec := list num.

(** A tensor of the embedding library: flat [data] and, when present,
    [dims]. *)
Record tensor := {
  data : vec;
  dims : option (list nat)
}.

(** What a call of the feature-extraction pipeline returns: an array of
    tensors or one tensor. *)
Inductive pipe_out :=
| OutArray (ts : list tensor)
| OutTensor (t : tensor).

(** The function built by [getEmbedder], applied to the output [out] of the
    pipeline.  An entry [None] is an array slot holding [undefined] (what
    [new Array(batch)] gives for an empty [dims]). *)
Definition embedFn_of (out : pipe_out) : list (option vec) :=
  match out with
  | OutArray ts => List.map (fun t => Some (data t)) ts
  | OutTensor t =>
      match dims t with
      | None => [Some (data t)]
      | Some ds =>
          if (List.length ds =? 1)%nat then [Some (data t)]
          else
            match ds with
            | [] => [None]
            | batch :: _ =>
                let dim := last ds 0%nat in
                List.map
                  (fun i => Some (firstn dim (skipn (i * dim) (data t))))
                  (seq 0 batch)
            end
      end
  end.

Record chunk := {
  chunk_page : Z;
  chunk_text : jsstring
}.

(** A point sent to the vector store (its random id and the [doc_id]
    derived from the file name are left out). *)
Record point := {
  point_vector : option vec;
  point_filename : jsstring;
  point_page : Z;
  point_text : jsstring
}.

(** The outside world of one run: the tools, the file system, the
    recognition engine, the embedding pipeline and the vector store, each
    answering by file and page.  [None] and [false] stand for a call that
    throws or a promise that is rejected:
    - [mkdtemp]: [fs.mkdtempSync] in [rasterizeAndOCR];
    - [pdftoppm]: the exit code of the rasterizer ([None]: [null]);
    - [recognize]: [Tesseract.recognize];
    - [load_pipeline]: [pipeline('feature-extraction', EMBED_MODEL)] in
      [getEmbedder], called when no embedder is cached;
    - [pipe]: a call of the loaded pipeline on a batch of texts;
    - [upsert]: [qc.upsert];
    - [point_count]: the [fetch] of the point count and [r.json()] at the
      end of the run.
    The rasterizer is taken to start: [spawn] reports its exit code
    ([spawnSync] reports a tool that did not start by a [null] status). *)
Record World := {
  pdfinfo : jsstring -> spawn_result;
  pdftotext : jsstring -> Z -> spawn_result;
  mkdtemp : jsstring -> Z -> bool;
  pdftoppm : jsstring -> Z -> option Z;
  recognize : jsstring -> Z -> option jsstring;
  load_pipeline : bool;
  pipe : list jsstring -> option pipe_out;
  upsert : list point -> bool;
  point_count : bool
}.

(** Trace of what a run did.  [EvOcrPath] is the entry into
    [rasterizeAndOCR], which starts by creating its temporary directory;
    [EvLoadPipeline] is the loading of the pipeline by [getEmbedder];
    [EvPointCount] is the request for the point count that ends a run. *)
Inductive event :=
| EvPdfinfo (pdf : jsstring) (st : option Z)
| EvPdftotext (pdf : jsstring) (p : Z) (st : option Z)
| EvOcrPath (pdf : jsstring) (p : Z)
| EvPdftoppm (pdf : jsstring) (p : Z) (code : option Z)
| EvRecognize (pdf : jsstring) (p : Z)
| EvLoadPipeline
| EvEmbed (texts : list jsstring)
| EvUpsert (points : list point)
| EvPointCount.

(** Computations that leave a trace and may throw: the outcome together
    with the events of the computation, in order.  The trace of what ran
    before a throw is kept. *)
Definition M (A : Type) : Type := result A * list event.

Definition ret {A : Type} (a : A) : M A := (Ok a, []).

Definition bind {A B : Type} (m : M A) (f : A -> M B) : M B :=
  match m with
  | (Ok a, tr) => let '(r, tr') := f a in (r, tr ++ tr')
  | (Throw e, tr) => (Throw e, tr)
  end.

Definition throw {A : Type} (e : error) : M A := (Throw e, []).

Definition emit (ev : event) : M unit := (Ok tt, [ev]).

Notation "x <- m ;; k" := (bind m (fun x => k))
  (at level 61, m at next level, right associativity).
Notation "m ;;; k" := (bind m (fun _ => k))
  (at level 61, right associativity).

(** A [for] loop over [l] that stops at the first throw. *)
Fixpoint for_each {A B : Type} (f : A -> M B) (l : list A) : M (list B) :=
  match l with
  | [] => ret []
  | a :: l' => b <- f a ;; bs <- for_each f l' ;; ret (b :: bs)
  end.

Variable w : World.

(** [getPageCount(pdfPath)] *)
Definition getPageCount (pdf : jsstring) : M Z :=
  let r := pdfinfo w pdf in
  emit (EvPdfinfo pdf (status r)) ;;;
  if exited_zero (status r) then
    match search re_pages (stdout r) with
    | Some (_, d :: _) => ret (parseInt d)
    | _ => throw PageCountUnparsed
    end
  else throw (PdfinfoFailed (stderr r)).

(** What [extractPageTextWithPdftotext] returns for the tool result [r]. *)
Definition direct_text (r : spawn_result) : jsstring :=
  if exited_zero (status r) then trim (replace_all re_nul [] (stdout r))
  else [].

(** [extractPageTextWithPdftotext(pdfPath, p)] *)
Definition extractPageTextWithPdftotext (pdf : jsstring) (p : Z)
    : M jsstring :=
  let r := pdftotext w pdf p in
  emit (EvPdftotext pdf p (status r)) ;;;
  ret (direct_text r).

(** [rasterizeAndOCR(pdfPath, p)] *)
Definition rasterizeAndOCR (pdf : jsstring) (p : Z) : M jsstring :=
  emit (EvOcrPath pdf p) ;;;
  if mkdtemp w pdf p then
    let code := pdftoppm w pdf p in
    emit (EvPdftoppm pdf p code) ;;;
    if exited_zero code then
      emit (EvRecognize pdf p) ;;;
      match recognize w pdf p with
      | Some t => ret (trim t)
      | None => throw RecognizeFailed
      end
    else throw (PdftoppmFailed code)
  else throw MkdtempFailed.

(** [!text || text.length < 30] *)
Definition too_thin (text : jsstring) : bool :=
  negb (truthy text) || (len text <? 30)%Z.

(** Body of the page loop of [ingestFile]. *)
Definition acquire_page (pdf : jsstring) (p : Z) : M (Z * jsstring) :=
  text <- extractPageTextWithPdftotext pdf p ;;
  text' <- (if too_thin text then rasterizeAndOCR pdf p else ret text) ;;
  ret (p, cleanText text').

(** The values of [p] in [for (let p = 1; p <= pages; p++)]. *)
Definition page_numbers (pages : Z) : list Z :=
  List.map Z.of_nat (seq 1 (Z.to_nat pages)).

(** The chunks of one page. *)
Definition page_chunks (pt : Z * jsstring) : M (list chunk) :=
  match chunkText (snd pt) CHUNK_CHARS CHUNK_OVERLAP with
  | Some parts =>
      ret (List.map (fun part => {| chunk_page := fst pt; chunk_text := part |})
             parts)
  | None => throw LoopUnfinished
  end.

(** [getEmbedder()]; [loaded] tells whether [embedFn] is set already,
    in which case nothing is loaded. *)
Definition getEmbedder (loaded : bool) : M unit :=
  if loaded then ret tt
  else
    emit EvLoadPipeline ;;;
    if load_pipeline w then ret tt else throw PipelineLoadFailed.

(** The function returned by [getEmbedder], on a batch of texts. *)
Definition embed (texts : list jsstring) : M (list (option vec)) :=
  emit (EvEmbed texts) ;;;
  match pipe w texts with
  | Some out => ret (embedFn_of out)
  | None => throw EmbedderFailed
  end.

(** [batch.map((b, j) => ({ vector: vecs[j], payload: ... }))] *)
Definition make_points (filename : jsstring) (batch : list chunk)
    (vecs : list (option vec)) : list point :=
  List.map
    (fun bj =>
       {| point_vector := nth (snd bj) vecs None;
          point_filename := filename;
          point_page := chunk_page (fst bj);
          point_text := chunk_text (fst bj) |})
    (combine batch (seq 0 (List.length batch))).

(** Body of the batch loop of [ingestFile], for the batch starting at
    index [i]. *)
Definition ingest_batch (filename : jsstring) (chunks : list chunk)
    (i : nat) : M unit :=
  let batch := firstn BATCH (skipn i chunks) in
  vecs <- embed (List.map chunk_text batch) ;;
  if negb (List.length vecs =? List.length batch)%nat then
    throw (VectorCountMismatch (List.length vecs) (List.length batch))
  else
    let points := make_points filename batch vecs in
    emit (EvUpsert points) ;;;
    if upsert w points then ret tt else throw UpsertFailed.

(** The values of [i] in [for (let i = 0; i < n; i += BATCH)]. *)
Definition batch_starts (n : nat) : list nat :=
  List.map (fun k => k * BATCH)%nat (seq 0 ((n + BATCH - 1) / BATCH)).

(** [ingestFile(pdfPath)], for the file named [filename] of the documents
    directory.  [loaded] tells whether [embedFn] is set when the function
    is entered; the result tells whether it is set when it returns. *)
Definition ingestFile (loaded : bool) (filename : jsstring) : M bool :=
  pages <- getPageCount filename ;;
  pageTexts <- for_each (acquire_page filename) (page_numbers pages) ;;
  per_page <- for_each page_chunks pageTexts ;;
  let chunks := List.concat per_page in
  match chunks with
  | [] => ret loaded
  | _ =>
      getEmbedder loaded ;;;
      for_each (ingest_batch filename chunks)
        (batch_starts (List.length chunks)) ;;;
      ret true
  end.

(** [for (const f of pdfs) await ingestFile(...)], the variable [embedFn]
    being carried from one file to the next. *)
Fixpoint ingest_files (loaded : bool) (pdfs : list jsstring) : M bool :=
  match pdfs with
  | [] => ret loaded
  | f :: pdfs' => loaded' <- ingestFile loaded f ;; ingest_files loaded' pdfs'
  end.

(** The request for the point count: [fetch] and [r.json()]. *)
Definition count_points : M unit :=
  emit EvPointCount ;;;
  if point_count w then ret tt else throw PointCountFailed.

(** The run, once the documents directory is listed: nothing more when
    there is no PDF; otherwise every PDF in turn, no embedder being
    loaded at the start, then the point count.  A throw ends the run.
    ([ensureCollection], which swallows its own errors, is left out.) *)
Definition run (pdfs : list jsstring) : M unit :=
  match pdfs with
  | [] => ret tt
  | _ => ingest_files false pdfs ;;; count_points
  end.

End Ingestion.

Arguments EvPdfinfo {num} pdf st.
Arguments EvPdftotext {num} pdf p st.
Arguments EvOcrPath {num} pdf p.
Arguments EvPdftoppm {num} pdf p code.
Arguments EvRecognize {num} pdf p.
Arguments EvLoadPipeline {num}.
Arguments EvPointCount {num}.
Arguments EvEmbed {num} texts.
Arguments EvUpsert {num} points.
Arguments ret {num A} a.
Arguments throw {num A} e.
Arguments emit {num} ev.
Arguments page_chunks {num} pt.

(** ** The query server: [/ask] *)

Record hit := {
  hit_text : jsstring;
  hit_filename : jsstring;
  hit_page : Z;
  hit_score : Q
}.

Record citation := {
  cit_filename : jsstring;
  cit_page : Z
}.

(** [arr.sort(cmp)]: the stable sort by a comparator whose sign orders two
    elements ([cmp a b < 0]: [a] first). *)
Fixpoint insert_by {A : Type} (cmp : A -> A -> Q) (x : A) (l : list A)
    : list A :=
  match l with
  | [] => [x]
  | y :: l' =>
      if Qle_bool (cmp x y) 0 then x :: l else y :: insert_by cmp x l'
  end.

Definition sort_by {A : Type} (cmp : A -> A -> Q) (l : list A) : list A :=
  fold_right (insert_by cmp) [] l.

(** [Array.from(new Set(l))]: first occurrences, in order. *)
Definition set_of (l : list jsstring) : list jsstring :=
  fold_left (fun acc x => if existsb (str_eqb x) acc then acc else acc ++ [x])
    l [].

(** [/[a-z0-9]+/g] *)
Definition re_word : regex := [Rep false is_lower_alnum 1].

Definition SYNS : list jsstring := [str "defog"; str "defrost"; str "demist"].

Definition FLOOR : Q := 45 # 100.
Definition MAX_CTX : nat := 6.
Definition MAX_CITATIONS : nat := 3.

Inductive routed := no_context | retrieval.

Record response := {
  resp_routed : routed;
  resp_citations : list citation;
  resp_used : list hit
}.

Section Ask.

(** [String.prototype.toLowerCase], the Unicode lower-casing of the
    runtime. *)
Variable toLowerCase : jsstring -> jsstring.

(** [arr.includes(w)] *)
Definition has_word (l : list jsstring) (x : jsstring) : bool :=
  existsb (str_eqb x) l.

Definition qwords (q : jsstring) : list jsstring :=
  set_of (match_all re_word (toLowerCase q)).

(** The keyword set [kw]. *)
Definition keywords (q : jsstring) : list jsstring :=
  let qw := qwords q in
  if has_word qw (str "defog") || has_word qw (str "defrost")
     || has_word qw (str "demist")
  then SYNS
  else filter (fun x => (4 <=? List.length x)%nat) qw.

(** The three filters, in source order. *)
Definition same_family (top h : hit) : bool :=
  str_eqb (hit_filename h) (hit_filename top).

Definition above_floor (h : hit) : bool := Qle_bool FLOOR (hit_score h).

Definition on_topic (kw : list jsstring) (h : hit) : bool :=
  match kw with
  | [] => true
  | _ => existsb (fun x => includes (toLowerCase (hit_text h)) x) kw
  end.

Definition gates (q : jsstring) (top : hit) (hitsRaw : list hit) : list hit :=
  filter (on_topic (keywords q))
    (filter above_floor (filter (same_family top) hitsRaw)).

Definition by_score_desc (a b : hit) : Q := (hit_score b - hit_score a)%Q.

(** [hits] before the fallback. *)
Definition funnel (q : jsstring) (top : hit) (hitsRaw : list hit)
    : list hit :=
  firstn MAX_CTX (sort_by by_score_desc (gates q top hitsRaw)).

(** [hits] after [if (!hits.length) hits = [top]]. *)
Definition context_hits (q : jsstring) (top : hit) (hitsRaw : list hit)
    : list hit :=
  match funnel q top hitsRaw with
  | [] => [top]
  | hits => hits
  end.

Definition same_citation (h : hit) (c : citation) : bool :=
  str_eqb (cit_filename c) (hit_filename h) && (cit_page c =? hit_page h)%Z.

(** The citation loop, [citations] being the array built so far. *)
Fixpoint cite_loop (hits : list hit) (citations : list citation)
    : list citation :=
  match hits with
  | [] => citations
  | h :: rest =>
      if existsb (same_citation h) citations then cite_loop rest citations
      else
        let citations' :=
          citations
          ++ [{| cit_filename := hit_filename h; cit_page := hit_page h |}] in
        if (MAX_CITATIONS <=? List.length citations')%nat then citations'
        else cite_loop rest citations'
  end.

Definition citations_of (hits : list hit) : list citation :=
  cite_loop hits [].

(** The retrieval part of the [/ask] handler: question [q] (trimmed,
    non-empty) and the hits of the broad search. *)
Definition ask (q : jsstring) (hitsRaw : list hit) : response :=
  match hitsRaw with
  | [] =>
      {| resp_routed := no_context; resp_citations := []; resp_used := [] |}
  | top :: _ =>
      let hits := context_hits q top hitsRaw in
      {| resp_routed := retrieval;
         resp_citations := citations_of hits;
         resp_used := hits |}
  end.

End Ask.


(** ** ingest.mjs: the document id *)

(** Patterns that end in [$]: the rest of the pattern after the last item
    is the test for the end of the string. *)
Definition at_end : jsstring -> mres :=
  fun s => match s with
           | [] => Some (0, [])%nat
           | _ :: _ => None
           end.

(** [match_here] with [k] for what comes after the pattern. *)
Fixpoint match_then (re : regex) (k : jsstring -> mres) (s : jsstring)
    : mres :=
  match re with
  | [] => k s
  | Ch cap p :: re' =>
      match s with
      | c :: s' => if p c then extend cap [c] (match_then re' k s') else None
      | [] => None
      end
  | Rep cap p mn :: re' =>
      try_counts (match_then re' k) cap s mn (run_length p s)
  end.

(** [s.replace(/re$/, tpl)], without the [g] flag: the leftmost match
    only. *)
Fixpoint replace_first_end (re : regex) (tpl : list tpart) (s : jsstring)
    : jsstring :=
  match match_then re at_end s with
  | Some (n, caps) => subst tpl caps ++ skipn n s
  | None =>
      match s with
      | [] => []
      | c :: s' => c :: replace_first_end re tpl s'
      end
  end.

(** [[^.]] *)
Definition is_not_dot (c : char) : bool := negb (is_char DOT c).

(** [/\.[^.]+$/] *)
Definition re_ext : regex := [Ch false (is_char DOT); Rep false is_not_dot 1].

(** [docId] of [ingestFile]: [filename.replace(/\.[^.]+$/, '')]. *)
Definition docId (filename : jsstring) : jsstring :=
  replace_first_end re_ext [] filename.

(** ** The query server: embedder, prompt and handler *)

Record message := {
  msg_role : jsstring;
  msg_content : jsstring
}.

(** What the completion service answers: whether the status is a success,
    and the content of the message when there is one. *)
Record llm_reply := {
  reply_ok : bool;
  reply_content : option jsstring
}.

Definition SYS_PROMPT : jsstring :=
  str "You are a concise in-car assistant for a 1967 Lincoln Continental. If context is provided, answer ONLY from it and add bracketed citations like [filename p.X]. If no context is provided, say you have no supporting documents and avoid guessing.".

(** [String(n)] for an integer [n]: its decimal digits, with a sign when
    it is negative.  This is what the source prints as long as the
    magnitude of [n] is at most [MAX_SAFE]; the source prints a Number of
    magnitude [10^21] or more with an exponent.  What is stated about the
    printed form is stated within that bound. *)
Definition show_int (z : Z) : jsstring :=
  str (NilZero.string_of_int (Z.to_int z)).

(** [arr.join(sep)] *)
Fixpoint join (sep : jsstring) (l : list jsstring) : jsstring :=
  match l with
  | [] => []
  | [x] => x
  | x :: l' => x ++ sep ++ join sep l'
  end.

(** The excerpt for context [c] at index [i]:
    [### ${i + 1} [${c.filename} p.${c.page}]\n${c.text}]. *)
Definition render_context (i : nat) (c : hit) : jsstring :=
  str "### " ++ show_int (Z.of_nat i + 1) ++ str " [" ++ hit_filename c
  ++ str " p." ++ show_int (hit_page c) ++ str "]" ++ [LF] ++ hit_text c.

(** [contexts.map((c, i) => ...)], from index [i]. *)
Fixpoint render_from (i : nat) (contexts : list hit) : list jsstring :=
  match contexts with
  | [] => []
  | c :: cs => render_context i c :: render_from (S i) cs
  end.

Definition system_message : message :=
  {| msg_role := str "system"; msg_content := SYS_PROMPT |}.

(** [buildPrompt(question, contexts)] *)
Definition buildPrompt (question : jsstring) (contexts : list hit)
    : list message :=
  match contexts with
  | [] =>
      [system_message;
       {| msg_role := str "user";
          msg_content :=
            str "Question: " ++ question ++ [LF; LF]
            ++ str "(No context retrieved above threshold.)" ++ [LF]
            ++ str "Answer:" |}]
  | _ =>
      let ctx := join [LF; LF] (render_from 0 contexts) in
      [system_message;
       {| msg_role := str "user";
          msg_content :=
            str "Question: " ++ question ++ [LF; LF] ++ str "Context:"
            ++ [LF] ++ ctx ++ [LF; LF] ++ str "Answer:" |}]
  end.

Section QueryServer.

Variable num : Type.
Variable toLowerCase : jsstring -> jsstring.

(** [embed(texts)] of the query server (the same function is
    [embedder.mjs]), applied to the output of the pipeline. *)
Definition server_embed_of (out : pipe_out num) : list (vec num) :=
  match out with
  | OutArray ts => List.map (@data num) ts
  | OutTensor t => [data t]
  end.

(** The services the handler calls; [None] stands for a call that
    throws. *)
Record Server := {
  sv_pipe : list jsstring -> option (pipe_out num);
  sv_search : option (vec num) -> option (list hit);
  sv_llm : list message -> option llm_reply
}.

Inductive call :=
| CallEmbed (texts : list jsstring)
| CallSearch (vector : option (vec num))
| CallLLM (messages : list message).

Inductive http :=
| Http400
| Http500
| Http200 (answer : jsstring) (body : response).

Variable sv : Server.

(** [callLLM(messages)]: the content of the reply, the empty string when
    it has none; a reply that is not a success throws. *)
Definition callLLM (messages : list message) : option jsstring :=
  match sv_llm sv messages with
  | Some r =>
      if reply_ok r then
        Some (match reply_content r with
              | Some c => c
              | None => []
              end)
      else None
  | None => None
  end.

(** The [/ask] handler on a request whose body has the question
    [question] ([None]: no question); what it answers and the calls it
    made, in order. *)
Definition handle_ask (question : option jsstring) : http * list call :=
  let q := trim (match question with Some s => s | None => [] end) in
  match q with
  | [] => (Http400, [])
  | _ =>
      match sv_pipe sv [q] with
      | None => (Http500, [CallEmbed [q]])
      | Some out =>
          let qvec := nth_error (server_embed_of out) 0 in
          match sv_search sv qvec with
          | None => (Http500, [CallEmbed [q]; CallSearch qvec])
          | Some hitsRaw =>
              match hitsRaw with
              | [] =>
                  let messages := buildPrompt q [] in
                  let calls :=
                    [CallEmbed [q]; CallSearch qvec; CallLLM messages] in
                  match callLLM messages with
                  | Some answer =>
                      (Http200 answer
                         {| resp_routed := no_context;
                            resp_citations := [];
                            resp_used := [] |}, calls)
                  | None => (Http500, calls)
                  end
              | top :: _ =>
                  let hits := context_hits toLowerCase q top hitsRaw in
                  let messages := buildPrompt q hits in
                  let calls :=
                    [CallEmbed [q]; CallSearch qvec; CallLLM messages] in
                  match callLLM messages with
                  | Some answer =>
                      (Http200 answer
                         {| resp_routed := retrieval;
                            resp_citations := citations_of hits;
                            resp_used := hits |}, calls)
                  | None => (Http500, calls)
                  end
              end
          end
      end
  end.

End QueryServer.

Arguments CallEmbed {num} texts.
Arguments CallLLM {num} messages.
(** ** Vocabulary of the statements and sample inputs *)

Definition sample_page : jsstring := str "Check the oil. Then start.".

(** Position just after the last period of [s] (0 when there is none). *)
Definition after_last_dot (s : jsstring) : Z := lastIndexOf DOT s (len s) + 1.

(** A page of 453 characters with a period at index 451 and text after
    it. *)
Definition snapped_page : jsstring :=
  repeat 97%N 451 ++ [DOT] ++ [98%N].

(** A page of 1801 characters: 900 times [a], 900 times [b], one [c]. *)
Definition long_page : jsstring :=
  repeat 97%N 900 ++ repeat 98%N 900 ++ [99%N].

(** The last [k] characters of [s]. *)
Definition last_chars (k : nat) (s : jsstring) : jsstring :=
  skipn (List.length s - k) s.


Section TraceVocabulary.

Variable num : Type.

(** Number of events of a trace that satisfy [f]. *)
Definition count (f : event num -> bool) (tr : list (event num)) : nat :=
  List.length (filter f tr).

(** Direct extraction of page [p] of [pdf]. *)
Definition is_extract (pdf : jsstring) (p : Z) (ev : event num) : bool :=
  match ev with
  | EvPdftotext f p' _ => str_eqb f pdf && (p' =? p)%Z
  | _ => false
  end.

(** Entry into the rasterize-and-recognize path for page [p] of [pdf]. *)
Definition is_ocr_path (pdf : jsstring) (p : Z) (ev : event num) : bool :=
  match ev with
  | EvOcrPath f p' => str_eqb f pdf && (p' =? p)%Z
  | _ => false
  end.

(** Call of the recognition engine for page [p] of [pdf]. *)
Definition is_recognize (pdf : jsstring) (p : Z) (ev : event num) : bool :=
  match ev with
  | EvRecognize f p' => str_eqb f pdf && (p' =? p)%Z
  | _ => false
  end.

(** A tool that did not exit with status 0. *)
Definition nonzero_exit (ev : event num) : bool :=
  match ev with
  | EvPdfinfo _ st => negb (exited_zero st)
  | EvPdftotext _ _ st => negb (exited_zero st)
  | EvPdftoppm _ _ code => negb (exited_zero code)
  | _ => false
  end.

(** The same for the page-count probe and the rasterizer only. *)
Definition fatal_exit (ev : event num) : bool :=
  match ev with
  | EvPdfinfo _ st => negb (exited_zero st)
  | EvPdftoppm _ _ code => negb (exited_zero code)
  | _ => false
  end.

(** [m] threw, and [ev] is the last thing it did. *)
Definition aborts_at {A : Type} (m : M num A) (ev : event num) : Prop :=
  is_ok (fst m) = false /\ exists tr0, snd m = tr0 ++ [ev].

(** Every event of the trace of [m] that [fatal] selects ended [m]. *)
Definition fail_fast {A : Type} (fatal : event num -> bool) (m : M num A)
    : Prop :=
  forall ev, In ev (snd m) -> fatal ev = true -> aborts_at m ev.

(** A call of the embedder that came back with a number of vectors other
    than the number of texts. *)
Definition miscounted (w : World num) (ev : event num) : bool :=
  match ev with
  | EvEmbed texts =>
      match pipe w texts with
      | Some out =>
          negb (List.length (embedFn_of out) =? List.length texts)%nat
      | None => false
      end
  | _ => false
  end.

(** Direct extraction of page [p] of [pdf] is empty or shorter than 30
    characters. *)
Definition thin_page (w : World num) (pdf : jsstring) (p : Z) : bool :=
  too_thin (direct_text (pdftotext w pdf p)).

End TraceVocabulary.

(** A world in which [pdfinfo] reports one page, [pdftotext] exits with
    status 1, rasterization and recognition work, the pipeline returns one
    tensor per text and the store accepts every batch. *)
Definition world_extract_fails : World Z := {|
  pdfinfo := fun _ =>
    {| status := Some 0%Z; stdout := str "Pages:          1"; stderr := [] |};
  pdftotext := fun _ _ => {| status := Some 1%Z; stdout := []; stderr := [] |};
  mkdtemp := fun _ _ => true;
  pdftoppm := fun _ _ => Some 0%Z;
  recognize := fun _ _ => Some (str "LUBRICATION CHART. Check the oil level.");
  load_pipeline := true;
  pipe := fun texts =>
    Some (OutArray
            (List.map (fun _ => {| data := [1%Z; 0%Z]; dims := Some [2%nat] |})
               texts));
  upsert := fun _ => true;
  point_count := true
|}.

(** A world in which every tool works and the only page has usable text. *)
Definition world_plain : World Z := {|
  pdfinfo := fun _ =>
    {| status := Some 0%Z; stdout := str "Pages:          1"; stderr := [] |};
  pdftotext := fun _ _ =>
    {| status := Some 0%Z;
       stdout := str "Turn the ignition key to START and release it at once.";
       stderr := [] |};
  mkdtemp := fun _ _ => true;
  pdftoppm := fun _ _ => Some 0%Z;
  recognize := fun _ _ => None;
  load_pipeline := true;
  pipe := fun texts =>
    Some (OutArray
            (List.map (fun _ => {| data := [1%Z; 0%Z]; dims := Some [2%nat] |})
               texts));
  upsert := fun _ => true;
  point_count := true
|}.

(** A world in which [pdfinfo] exits with status 1. *)
Definition world_probe_fails : World Z := {|
  pdfinfo := fun _ =>
    {| status := Some 1%Z; stdout := []; stderr := str "I/O Error" |};
  pdftotext := fun _ _ => {| status := Some 0%Z; stdout := []; stderr := [] |};
  mkdtemp := fun _ _ => true;
  pdftoppm := fun _ _ => Some 0%Z;
  recognize := fun _ _ => None;
  load_pipeline := true;
  pipe := fun _ => None;
  upsert := fun _ => true;
  point_count := true
|}.

Definition manual_pdf : jsstring := str "manual.pdf".

(** The components of a list of vectors, in order (an [undefined] entry
    contributes nothing). *)
Definition flatten_vecs {num : Type} (vecs : list (option (vec num)))
    : vec num :=
  List.concat
    (List.map (fun o => match o with Some v => v | None => [] end) vecs).

(** A world like [world_plain] whose pipeline returns no vector at all. *)
Definition world_miscount : World Z := {|
  pdfinfo := pdfinfo world_plain;
  pdftotext := pdftotext world_plain;
  mkdtemp := mkdtemp world_plain;
  pdftoppm := pdftoppm world_plain;
  recognize := recognize world_plain;
  load_pipeline := true;
  pipe := fun _ => Some (OutArray []);
  upsert := fun _ => true;
  point_count := true
|}.

Definition two_texts : list jsstring := [str "first chunk"; str "second chunk"].

(** *** Retrieval *)

(** The (filename, page) pair of a hit. *)
Definition key_of (h : hit) : citation :=
  {| cit_filename := hit_filename h; cit_page := hit_page h |}.

Definition cit_eqb (a b : citation) : bool :=
  str_eqb (cit_filename a) (cit_filename b) && (cit_page a =? cit_page b)%Z.

(** The distinct pairs of a sequence in the order of their first
    occurrence: the head, then the distinct pairs of the tail other than
    the head. *)
Fixpoint distinct_in_order (l : list citation) : list citation :=
  match l with
  | [] => []
  | k :: r => k :: filter (fun c => negb (cit_eqb c k)) (distinct_in_order r)
  end.

(** [c] is not among the citations [acc]. *)
Definition fresh_for (acc : list citation) (c : citation) : bool :=
  negb (existsb (fun a => cit_eqb a c) acc).

(** Scores in decreasing order. *)
Definition score_ge (a b : hit) : Prop := (hit_score b <= hit_score a)%Q.

(** Lower-casing of the ASCII letters, for sample questions. *)
Definition ascii_lower (s : jsstring) : jsstring :=
  List.map (fun c => if in_range 65 90 c then (c + 32)%N else c) s.

Definition sample_top : hit :=
  {| hit_text := str "Set the heater control to DEFROST.";
     hit_filename := str "owner.pdf"; hit_page := 12; hit_score := 81 # 100 |}.

Definition sample_rest : list hit := [
  {| hit_text := str "Wiper blades are replaced as a unit.";
     hit_filename := str "owner.pdf"; hit_page := 30; hit_score := 60 # 100 |};
  {| hit_text := str "Defrost outlets are at the base of the windshield.";
     hit_filename := str "owner.pdf"; hit_page := 12; hit_score := 50 # 100 |};
  {| hit_text := str "Defroster hose routing.";
     hit_filename := str "shop.pdf"; hit_page := 4; hit_score := 48 # 100 |};
  {| hit_text := str "To defog the glass open the vent.";
     hit_filename := str "owner.pdf"; hit_page := 13; hit_score := 40 # 100 |}
].

Definition sample_hits : list hit := sample_top :: sample_rest.

Definition sample_question : jsstring := str "How do I defog the windshield?".




(** Hits that all fall below the score floor. *)
Definition weak_top : hit :=
  {| hit_text := str "Radio antenna care.";
     hit_filename := str "owner.pdf"; hit_page := 44; hit_score := 30 # 100 |}.

Definition weak_rest : list hit := [
  {| hit_text := str "Clock adjustment.";
     hit_filename := str "owner.pdf"; hit_page := 45; hit_score := 20 # 100 |}
].

(** *** Text normalizer *)

(** A class of the pattern accepts [c]. *)
Definition in_classes (re : regex) (c : char) : bool :=
  existsb (fun it => match it with
                     | Ch _ p => p c
                     | Rep _ p _ => p c
                     end) re.

(** The pattern cannot match the empty string: it has a single character
    or a repetition of at least one. *)
Definition has_mandatory (re : regex) : bool :=
  existsb (fun it => match it with
                     | Ch _ _ => true
                     | Rep _ _ mn => (0 <? mn)%nat
                     end) re.

(** The string starts with a white-space character. *)
Definition starts_ws (s : jsstring) : bool :=
  match s with
  | c :: _ => is_space c
  | [] => false
  end.

(** No two white-space characters in a row. *)
Fixpoint sparse (s : jsstring) : bool :=
  match s with
  | c :: s' => negb (is_space c && starts_ws s') && sparse s'
  | [] => true
  end.

(** No two [=] separated by white space only; [st] tells whether the last
    character that is not white space, before [s], was a [=]. *)
Fixpoint eq_ok (st : bool) (s : jsstring) : bool :=
  match s with
  | [] => true
  | c :: s' =>
      if is_space c then eq_ok st s'
      else if is_char EQUALS c then negb st && eq_ok true s'
      else eq_ok false s'
  end.

(** [s] starts with white space, if any, and then a [=]. *)
Definition starts_eq (s : jsstring) : bool :=
  match skipn (run_length is_space s) s with
  | c :: _ => is_char EQUALS c
  | [] => false
  end.

(** [s] starts with a letter, a hyphen, a newline and a letter. *)
Definition wrap_at (s : jsstring) : bool :=
  match s with
  | a :: h :: l :: b :: _ =>
      is_letter a && is_char HYPHEN h && is_char LF l && is_letter b
  | _ => false
  end.

(** Somewhere in [s] a letter, a hyphen, a newline and a letter follow one
    another. *)
Fixpoint has_wrap (s : jsstring) : bool :=
  wrap_at s ||
  match s with
  | _ :: s' => has_wrap s'
  | [] => false
  end.

(** Characters that the rules of [cleanText] leave in place: no carriage
    return, no long dash, no curly quote, and no white space other than the
    space and the newline. *)
Definition settled (c : char) : bool :=
  negb (is_char CR c) && negb (is_dash c) && negb (is_dquote_curly c)
  && negb (is_squote_curly c)
  && (negb (is_hspace c) || is_char SP c).

(** Two hyphenated line wraps that share the letter [b]. *)
Definition double_wrap : jsstring :=
  str "a-" ++ [LF] ++ str "b-" ++ [LF] ++ str "c".

(** Characters that a replacement text of [cleanText] can hold. *)
Definition plain (c : char) : bool :=
  is_letter c || is_char LF c || is_char SP c || is_char HYPHEN c
  || is_char DQUOTE c || is_char SQUOTE c.

Definition not_equals (c : char) : bool := negb (is_char EQUALS c).

(** Replacing [m] by [r] moves no [=] and keeps white space white space. *)
Definition neutral (m r : jsstring) : Prop :=
  forallb not_equals m = true /\ forallb not_equals r = true /\
  forallb is_space m = forallb is_space r.

(** ** Vocabulary of the further properties *)

(** A character that is not white space. *)
Definition solid (c : char) : bool := negb (is_space c).

(** [c] is a contiguous part of [s]. *)
(** Every character but NUL. *)
Definition not_nul (c : char) : bool := negb (N.eqb c 0).

Definition part_of (c s : jsstring) : Prop := exists a b, s = a ++ c ++ b.

Section MoreTraceVocabulary.

Variable num : Type.

Definition is_none {A : Type} (o : option A) : bool :=
  match o with
  | None => true
  | Some _ => false
  end.

(** The page-count pattern was found, with its capture group. *)
Definition parsed (r : mres) : bool :=
  match r with
  | Some (_, _ :: _) => true
  | _ => false
  end.

(** A page-count probe that exited with status 0 and printed no page
    count. *)
Definition unparsed (w : World num) (ev : event num) : bool :=
  match ev with
  | EvPdfinfo f st =>
      exited_zero st && negb (parsed (search re_pages (stdout (pdfinfo w f))))
  | _ => false
  end.

(** A call that threw or was rejected: the creation of the temporary
    directory, the recognition engine, the loading of the pipeline, a
    call of the pipeline, a write to the vector store, the request for the
    point count. *)
Definition rejected (w : World num) (ev : event num) : bool :=
  match ev with
  | EvOcrPath f p => negb (mkdtemp w f p)
  | EvRecognize f p => is_none (recognize w f p)
  | EvLoadPipeline => negb (load_pipeline w)
  | EvEmbed texts => is_none (pipe w texts)
  | EvUpsert pts => negb (upsert w pts)
  | EvPointCount => negb (point_count w)
  | _ => false
  end.

(** Everything that can go wrong in a run. *)
Definition failed (w : World num) (ev : event num) : bool :=
  fatal_exit ev || unparsed w ev || rejected w ev || miscounted w ev.

(** The failures that are neither a tool exit nor a wrong count. *)
Definition halting (w : World num) (ev : event num) : bool :=
  unparsed w ev || rejected w ev.

(** If [m] threw, the last thing it did was a call that failed. *)
Definition stops_at_failure (w : World num) {A : Type} (m : M num A) : Prop :=
  is_ok (fst m) = false ->
  exists tr0 ev, snd m = tr0 ++ [ev] /\ failed w ev = true.

(** The points written to the vector store, in order. *)
Definition upserted (tr : list (event num)) : list (point num) :=
  flat_map (fun ev => match ev with
                      | EvUpsert pts => pts
                      | _ => []
                      end) tr.

(** A chunk text fit for the embedder: not empty, no white space at
    either end. *)
Definition good_text (t : jsstring) : Prop := t <> [] /\ trim t = t.

(** What an embedder call or a write of a run looks like. *)
Definition batch_ok (ev : event num) : Prop :=
  match ev with
  | EvEmbed texts =>
      1 <= List.length texts <= BATCH /\ Forall good_text texts
  | EvUpsert pts =>
      1 <= List.length pts <= BATCH /\
      Forall (fun pt => good_text (point_text pt)) pts
  | _ => True
  end.

(** The loading of the pipeline; a call of the embedder. *)
Definition is_load (ev : event num) : bool :=
  match ev with
  | EvLoadPipeline => true
  | _ => false
  end.

Definition is_embed (ev : event num) : bool :=
  match ev with
  | EvEmbed _ => true
  | _ => false
  end.

(** The trace loads the pipeline only while none is loaded and calls the
    embedder only once one is loaded; [loaded] tells whether one is
    loaded before the trace. *)
Fixpoint orderly (loaded : bool) (tr : list (event num)) : bool :=
  match tr with
  | [] => true
  | EvLoadPipeline :: tr' => negb loaded && orderly true tr'
  | EvEmbed _ :: tr' => loaded && orderly loaded tr'
  | _ :: tr' => orderly loaded tr'
  end.

(** Whether a pipeline is loaded after the trace. *)
Definition loaded_after (loaded : bool) (tr : list (event num)) : bool :=
  loaded || existsb is_load tr.

(** [m] keeps the order from the state [l], and leaves the state [l']
    when it returns. *)
Definition keeps_order {A : Type} (l : bool) (m : M num A)
    (l' : A -> bool) : Prop :=
  orderly l (snd m) = true /\
  forall a, fst m = Ok a -> loaded_after l (snd m) = l' a.

End MoreTraceVocabulary.

(** A world like [world_plain] whose vector store rejects every write. *)
Definition world_store_down : World Z := {|
  pdfinfo := pdfinfo world_plain;
  pdftotext := pdftotext world_plain;
  mkdtemp := mkdtemp world_plain;
  pdftoppm := pdftoppm world_plain;
  recognize := recognize world_plain;
  load_pipeline := true;
  pipe := pipe world_plain;
  upsert := fun _ => false;
  point_count := true
|}.

(** A query server whose services all answer. *)
Definition echo_server : Server Z :=
  {| sv_pipe := fun texts => Some (OutArray [{| data := [1%Z]; dims := None |}]);
     sv_search := fun _ => Some sample_hits;
     sv_llm := fun _ => Some {| reply_ok := true; reply_content := None |} |}.
(* ===================================================================== *)
(** * Part II: properties                                                  *)
(* ===================================================================== *)

(** ** Chunker: progress and termination *)

Lemma last_index_bounds (c : char) (l : jsstring) :
  (-1 <= last_index c l < len l)%Z.
Proof.
  unfold len. induction l as [|d l IH]; simpl last_index.
  - simpl. lia.
  - destruct (0 <=? last_index c l)%Z eqn:E.
    + apply Z.leb_le in E. rewrite length_cons. lia.
    + rewrite length_cons. destruct (N.eqb d c); lia.
Qed.

Lemma len_firstn_le (n : nat) (s : jsstring) : (len (firstn n s) <= len s)%Z.
Proof. unfold len. rewrite length_firstn. lia. Qed.

Lemma lastIndexOf_bounds (c : char) (s : jsstring) (from : Z) :
  (-1 <= lastIndexOf c s from < len s)%Z.
Proof.
  unfold lastIndexOf.
  pose proof (last_index_bounds c (firstn (S (Z.to_nat (Z.max from 0))) s)).
  pose proof (len_firstn_le (S (Z.to_nat (Z.max from 0))) s). lia.
Qed.

Lemma lastIndexOf_whole (c : char) (s : jsstring) :
  lastIndexOf c s (len s) = last_index c s.
Proof.
  unfold lastIndexOf, len. rewrite firstn_all2; [reflexivity|lia].
Qed.

(** The cursor after one iteration, for a positive chunk size. *)
Lemma chunk_step_advances (s : jsstring) (size overlap i : Z) :
  (0 < size)%Z -> (0 <= i < len s)%Z ->
  (i < snd (chunk_step s size overlap i))%Z.
Proof.
  intros Hsize Hi. unfold chunk_step. cbv zeta. cbn [snd].
  destruct (2 * i + size <? 2 * lastIndexOf DOT s (Z.min (i + size) (len s)))%Z
    eqn:E.
  - apply Z.ltb_lt in E. lia.
  - lia.
Qed.

Lemma chunk_loop_done (fuel : nat) (s : jsstring) (size overlap i : Z)
    (out : list jsstring) :
  (len s <= i)%Z -> chunk_loop fuel s size overlap i out = Some out.
Proof.
  intros H. apply Z.ltb_ge in H. destruct fuel; simpl; now rewrite H.
Qed.

Lemma chunk_loop_next (fuel : nat) (s : jsstring) (size overlap i : Z)
    (out : list jsstring) :
  (i < len s)%Z ->
  chunk_loop (S fuel) s size overlap i out =
  chunk_loop fuel s size overlap (snd (chunk_step s size overlap i))
    (out ++ [fst (chunk_step s size overlap i)]).
Proof.
  intros H. apply Z.ltb_lt in H.
  change (chunk_loop (S fuel) s size overlap i out)
    with (if (i <? len s)%Z
          then let '(chunk, i') := chunk_step s size overlap i in
               chunk_loop fuel s size overlap i' (out ++ [chunk])
          else Some out).
  rewrite H. now destruct (chunk_step s size overlap i).
Qed.

Lemma chunk_loop_fuel_enough (s : jsstring) (size overlap : Z) :
  (0 < size)%Z ->
  forall fuel i out,
    (0 <= i)%Z -> (Z.to_nat (len s - i) <= fuel)%nat ->
    exists r, chunk_loop fuel s size overlap i out = Some r /\
      forall fuel', (fuel <= fuel')%nat ->
        chunk_loop fuel' s size overlap i out = Some r.
Proof.
  intros Hsize. induction fuel as [|fuel IH]; intros i out Hi Hfuel.
  - exists out. split; [|intros fuel' _]; apply chunk_loop_done; lia.
  - destruct (Z_lt_le_dec i (len s)) as [E|E].
    + pose proof (@chunk_step_advances s size overlap i Hsize (conj Hi E)) as Hadv.
      destruct (IH (snd (chunk_step s size overlap i))
                  (out ++ [fst (chunk_step s size overlap i)]))
        as [r [Hr Hmore]]; [lia|lia|].
      exists r. split.
      * rewrite chunk_loop_next by exact E. exact Hr.
      * intros fuel' Hle. destruct fuel' as [|fuel']; [lia|].
        rewrite chunk_loop_next by exact E. apply Hmore. lia.
    + exists out. split; [|intros fuel' _]; apply chunk_loop_done; lia.
Qed.

(** C10. [chunkText] terminates on every string with the fixed parameters
    (size 900, overlap 120): at a cursor [i] inside the text the proposed
    end [min(i + 900, length)] is past [i], a snapped end [dot + 1] with
    [dot > i + 450] is past [i], [Math.max(end - overlap, end)] is never
    below [end], so the next cursor is strictly greater; hence the loop is
    left after at most [length] iterations and the function returns. *)
Theorem chunkText_terminates (s : jsstring) :
  (forall i, (0 <= i < len s)%Z ->
     let end0 := Z.min (i + CHUNK_CHARS) (len s) in
     let dot := lastIndexOf DOT s end0 in
     (i < end0)%Z /\
     ((i + 450 < dot)%Z -> (i < dot + 1)%Z) /\
     (forall e, e <= Z.max (e - CHUNK_OVERLAP) e)%Z /\
     (i < snd (chunk_step s CHUNK_CHARS CHUNK_OVERLAP i))%Z)
  /\
  exists out,
    chunkText s CHUNK_CHARS CHUNK_OVERLAP = Some out /\
    forall fuel, (List.length s <= fuel)%nat ->
      option_map (filter truthy)
        (chunk_loop fuel s CHUNK_CHARS CHUNK_OVERLAP 0 []) = Some out.
Proof.
  split.
  - intros i Hi. cbv zeta. unfold CHUNK_CHARS, CHUNK_OVERLAP.
    repeat split; try lia.
    apply chunk_step_advances; lia.
  - destruct (@chunk_loop_fuel_enough s CHUNK_CHARS CHUNK_OVERLAP eq_refl
                (List.length s) 0%Z []) as [r [Hr Hmore]].
    + lia.
    + unfold len. lia.
    + exists (filter truthy r). split.
      * unfold chunkText. now rewrite Hr.
      * intros fuel Hle. now rewrite (Hmore fuel Hle).
Qed.


Lemma chunkText_terminates_witness :
  (0 < snd (chunk_step sample_page CHUNK_CHARS CHUNK_OVERLAP 0))%Z.
Proof.
  destruct (chunkText_terminates sample_page) as [Hstep _].
  apply (Hstep 0%Z). vm_compute. split; [discriminate|reflexivity].
Defined.

(** ** Chunker: short pages *)

Lemma drop_while_blank_app (p : char -> bool) (b x : jsstring) :
  forallb p b = true -> drop_while p (b ++ x) = drop_while p x.
Proof.
  induction b as [|c b IH]; simpl; [reflexivity|].
  intros H. apply andb_true_iff in H as [Hc Hb]. now rewrite Hc, IH.
Qed.

Lemma drop_while_all (p : char -> bool) (b : jsstring) :
  forallb p b = true -> drop_while p b = [].
Proof.
  intros H. rewrite <- (app_nil_r b). now rewrite drop_while_blank_app.
Qed.

Lemma drop_while_app_keep (p : char -> bool) (a b : jsstring) :
  drop_while p a <> [] -> drop_while p (a ++ b) = drop_while p a ++ b.
Proof.
  induction a as [|c a IH]; simpl; [congruence|].
  destruct (p c); [exact IH|reflexivity].
Qed.

Lemma forallb_rev (p : char -> bool) (b : jsstring) :
  forallb p (rev b) = forallb p b.
Proof.
  induction b as [|c b IH]; simpl; [reflexivity|].
  rewrite forallb_app, IH. simpl. rewrite andb_true_r. apply andb_comm.
Qed.

Lemma trimEnd_app_blank (x b : jsstring) :
  forallb is_space b = true -> trimEnd (x ++ b) = trimEnd x.
Proof.
  intros H. unfold trimEnd. rewrite rev_app_distr, drop_while_blank_app.
  - reflexivity.
  - now rewrite forallb_rev.
Qed.

Lemma trim_app_blank (a b : jsstring) :
  forallb is_space b = true -> trim (a ++ b) = trim a.
Proof.
  intros H. unfold trim, trimStart.
  destruct (drop_while is_space a) as [|c r] eqn:E.
  - assert (Hall : drop_while is_space (a ++ b) = []).
    { clear -E H. induction a as [|c a IH]; simpl in *.
      - now apply drop_while_all.
      - destruct (is_space c); [now apply IH|discriminate]. }
    now rewrite Hall.
  - rewrite drop_while_app_keep by (rewrite E; discriminate).
    rewrite E. now apply trimEnd_app_blank.
Qed.

Lemma trim_blank (b : jsstring) : forallb is_space b = true -> trim b = [].
Proof.
  intros H. change b with ([] ++ b). now rewrite trim_app_blank.
Qed.

Lemma slice_from_zero (s : jsstring) (e : Z) :
  (0 <= e <= len s)%Z -> slice s 0 e = firstn (Z.to_nat e) s.
Proof.
  intros H. unfold slice.
  destruct (Z.ltb_spec e 0); [lia|].
  change (0 <? 0)%Z with false. cbv iota.
  rewrite (Z.min_l 0 (len s)), (Z.min_l e (len s)) by lia.
  rewrite Z.sub_0_r. reflexivity.
Qed.

Lemma slice_to_end (s : jsstring) (i : Z) :
  (0 <= i <= len s)%Z -> slice s i (len s) = skipn (Z.to_nat i) s.
Proof.
  intros H. unfold slice.
  destruct (Z.ltb_spec i 0); [lia|].
  destruct (Z.ltb_spec (len s) 0); [lia|].
  rewrite (Z.min_l i (len s)), Z.min_id by lia.
  apply firstn_all2. rewrite length_skipn. unfold len. lia.
Qed.

Lemma slice_whole (s : jsstring) : slice s 0 (len s) = s.
Proof.
  rewrite slice_from_zero by (unfold len; lia).
  unfold len. rewrite Nat2Z.id. apply firstn_all.
Qed.


(** C7, as the code has it. A page text shorter than the chunk size (900)
    that is not blank, and whose last period is at an index of at most 450
    or is followed by white space only, yields exactly one chunk, the
    trimmed text. *)
Theorem short_page_single_chunk (s : jsstring) :
  (len s < CHUNK_CHARS)%Z ->
  trim s <> [] ->
  ((450 < lastIndexOf DOT s (len s))%Z ->
   forallb is_space (skipn (Z.to_nat (after_last_dot s)) s) = true) ->
  chunkText s CHUNK_CHARS CHUNK_OVERLAP = Some [trim s].
Proof.
  intros Hshort Hne Htail. unfold chunkText, CHUNK_CHARS, CHUNK_OVERLAP in *.
  assert (Hlen : (0 < len s)%Z).
  { destruct s; [now contradiction Hne|unfold len; rewrite length_cons; lia]. }
  assert (Hkeep : filter truthy [trim s] = [trim s]).
  { simpl. destruct (trim s); [now contradiction Hne|reflexivity]. }
  pose proof (lastIndexOf_bounds DOT s (len s)) as Hdot.
  destruct (List.length s) as [|fuel] eqn:Hfuel; [unfold len in Hlen; lia|].
  rewrite chunk_loop_next by lia.
  unfold chunk_step at 1 2. cbv zeta. cbn [fst snd].
  rewrite (Z.min_r (0 + 900) (len s)) by lia.
  destruct (2 * 0 + 900 <? 2 * lastIndexOf DOT s (len s))%Z eqn:E.
  - apply Z.ltb_lt in E.
    specialize (Htail ltac:(lia)). unfold after_last_dot in Htail.
    set (d := (lastIndexOf DOT s (len s) + 1)%Z) in *.
    assert (Hd : (451 < d <= len s)%Z) by (unfold d; lia).
    rewrite (Z.max_r (d - 120) d) by lia.
    rewrite slice_from_zero by lia.
    assert (Hfirst : trim (firstn (Z.to_nat d) s) = trim s).
    { rewrite <- (firstn_skipn (Z.to_nat d) s) at 2.
      symmetry. now apply trim_app_blank. }
    rewrite Hfirst. simpl app.
    destruct (Z_lt_le_dec d (len s)) as [Hin|Hout].
    + destruct fuel as [|fuel].
      { unfold len in Hd, Hin. rewrite Hfuel in *. lia. }
      rewrite chunk_loop_next by lia.
      unfold chunk_step at 1 2. cbv zeta. cbn [fst snd].
      rewrite (Z.min_r (d + 900) (len s)) by lia.
      destruct (2 * d + 900 <? 2 * lastIndexOf DOT s (len s))%Z eqn:E2;
        [apply Z.ltb_lt in E2; unfold d in E2; lia|].
      rewrite (Z.max_r (len s - 120) (len s)) by lia.
      rewrite chunk_loop_done by lia.
      rewrite slice_to_end by lia.
      rewrite (trim_blank _ Htail). simpl app. cbn [option_map].
      f_equal. simpl. destruct (trim s); [now contradiction Hne|reflexivity].
    + rewrite chunk_loop_done by lia. cbn [option_map]. now rewrite Hkeep.
  - rewrite (Z.max_r (len s - 120) (len s)) by lia.
    rewrite chunk_loop_done by lia.
    rewrite slice_whole. simpl app. cbn [option_map]. now rewrite Hkeep.
Qed.

Lemma short_page_single_chunk_witness :
  chunkText sample_page CHUNK_CHARS CHUNK_OVERLAP = Some [trim sample_page].
Proof.
  apply short_page_single_chunk.
  - reflexivity.
  - vm_compute. discriminate.
  - vm_compute. discriminate.
Defined.


(** C7 as stated fails: an empty page gives no chunk, and a page shorter
    than 900 characters with a period past index 450 is cut in two. *)
Lemma short_page_counterexample :
  (len [] < CHUNK_CHARS)%Z /\
  chunkText [] CHUNK_CHARS CHUNK_OVERLAP = Some [] /\
  (len snapped_page < CHUNK_CHARS)%Z /\
  chunkText snapped_page CHUNK_CHARS CHUNK_OVERLAP
  = Some [repeat 97%N 451 ++ [DOT]; [98%N]] /\
  chunkText snapped_page CHUNK_CHARS CHUNK_OVERLAP
  <> Some [trim snapped_page].
Proof.
  repeat split; try (vm_compute; reflexivity).
  vm_compute. discriminate.
Qed.

(** ** Chunker: overlap *)

(** With a non-negative overlap the next cursor is the end of the chunk
    just cut: consecutive chunks are adjacent slices of the page. *)
Lemma chunk_step_cursor_is_end (s : jsstring) (size overlap i : Z) :
  (0 <= overlap)%Z ->
  let end0 := Z.min (i + size) (len s) in
  let dot := lastIndexOf DOT s end0 in
  let end_ := if (2 * i + size <? 2 * dot)%Z then (dot + 1)%Z else end0 in
  chunk_step s size overlap i = (trim (slice s i end_), end_).
Proof.
  intros H. cbv zeta. unfold chunk_step. f_equal. lia.
Qed.



(** C1 on the code. On [long_page] the first two chunks are cut at index
    900, far from the end of the page, and share nothing: the second
    chunk starts where the first one ends, and for no [k] from 1 to 120
    are the last [k] characters of the first chunk the first [k] of the
    second. *)
Theorem chunk_overlap_absent :
  chunkText long_page CHUNK_CHARS CHUNK_OVERLAP
  = Some [repeat 97%N 900; repeat 98%N 900; [99%N]] /\
  snd (chunk_step long_page CHUNK_CHARS CHUNK_OVERLAP 0) = 900%Z /\
  forallb
    (fun k => negb (str_eqb (last_chars k (repeat 97%N 900))
                      (firstn k (repeat 98%N 900))))
    (seq 1 120) = true.
Proof.
  repeat split; vm_compute; reflexivity.
Qed.

(** ** Ingestion: traces *)

Section IngestionFacts.

Variable num : Type.
Variable w : World num.

Local Abbreviation M := (M num).
Local Abbreviation event := (event num).

Lemma str_eqb_refl (a : jsstring) : str_eqb a a = true.
Proof. induction a as [|c a IH]; simpl; [reflexivity|]. now rewrite N.eqb_refl. Qed.

Lemma str_eqb_eq (a b : jsstring) : str_eqb a b = true <-> a = b.
Proof.
  split; [|intros ->; apply str_eqb_refl].
  revert b. induction a as [|c a IH]; intros [|d b]; simpl; try discriminate.
  - reflexivity.
  - intros H. apply andb_true_iff in H as [H1 H2].
    apply N.eqb_eq in H1. apply IH in H2. now subst.
Qed.

Lemma count_app (f : event -> bool) (a b : list event) :
  count f (a ++ b) = count f a + count f b.
Proof. unfold count. now rewrite filter_app, length_app. Qed.

Lemma count_none (f : event -> bool) (tr : list event) :
  Forall (fun ev => f ev = false) tr -> count f tr = 0.
Proof.
  unfold count. induction 1 as [|ev tr Hev _ IH]; simpl; [reflexivity|].
  now rewrite Hev.
Qed.

(** Result and trace of a sequence. *)
Lemma bind_ok {A B : Type} (m : M A) (f : A -> M B) (a : A) :
  fst m = Ok a ->
  fst (bind m f) = fst (f a) /\ snd (bind m f) = snd m ++ snd (f a).
Proof.
  destruct m as [r tr]. simpl. intros ->. unfold bind.
  now destruct (f a).
Qed.

Lemma bind_throw {A B : Type} (m : M A) (f : A -> M B) (e : error) :
  fst m = Throw e ->
  fst (bind m f) = Throw e /\ snd (bind m f) = snd m.
Proof.
  destruct m as [r tr]. simpl. intros ->. now unfold bind.
Qed.

Lemma for_each_cons_ok {A B : Type} (f : A -> M B) (a : A) (l : list A) (b : B) :
  fst (f a) = Ok b ->
  is_ok (fst (for_each f (a :: l))) = is_ok (fst (for_each f l)) /\
  snd (for_each f (a :: l)) = snd (f a) ++ snd (for_each f l).
Proof.
  intros H. simpl for_each.
  destruct (bind_ok (f a)
              (fun b => bind (for_each f l) (fun bs => ret (b :: bs))) H)
    as [H1 H2].
  rewrite H1, H2. clear H1 H2.
  destruct (for_each f l) as [[bs|e] tr]; simpl; now rewrite ?app_nil_r.
Qed.

Lemma for_each_cons_throw {A B : Type} (f : A -> M B) (a : A) (l : list A)
    (e : error) :
  fst (f a) = Throw e ->
  fst (for_each f (a :: l)) = Throw e /\
  snd (for_each f (a :: l)) = snd (f a).
Proof. intros H. simpl for_each. now apply bind_throw. Qed.

(** *** Quiet and fail-fast computations *)

Lemma quiet_bind {A B : Type} (P : event -> Prop) (m : M A) (k : A -> M B) :
  Forall P (snd m) -> (forall a, Forall P (snd (k a))) ->
  Forall P (snd (bind m k)).
Proof.
  intros Hm Hk. destruct m as [[a|e] tr]; simpl in *; [|exact Hm].
  specialize (Hk a). destruct (k a) as [r tr']. simpl in *.
  apply Forall_app. now split.
Qed.

Lemma quiet_for_each {A B : Type} (P : event -> Prop) (f : A -> M B)
    (l : list A) :
  (forall a, Forall P (snd (f a))) -> Forall P (snd (for_each f l)).
Proof.
  intros Hf. induction l as [|a l IH]; simpl for_each; [constructor|].
  apply quiet_bind; [apply Hf|]. intros b.
  apply quiet_bind; [exact IH|]. intros bs. constructor.
Qed.

Lemma quiet_getPageCount (f : event -> bool) (pdf : jsstring) :
  (forall f' st, f (EvPdfinfo f' st) = false) ->
  Forall (fun ev => f ev = false) (snd (getPageCount w pdf)).
Proof.
  intros Hi. unfold getPageCount. cbv zeta.
  destruct (exited_zero _).
  - destruct (search _ _) as [[n [|d caps]]|]; simpl;
      repeat constructor; apply Hi.
  - simpl. repeat constructor. apply Hi.
Qed.

Lemma quiet_acquire_page (f : event -> bool) (pdf : jsstring) (p : Z) :
  (forall f' p' st, f (EvPdftotext f' p' st) = false) ->
  (forall f' p', f (EvOcrPath f' p') = false) ->
  (forall f' p' code, f (EvPdftoppm f' p' code) = false) ->
  (forall f' p', f (EvRecognize f' p') = false) ->
  Forall (fun ev => f ev = false) (snd (acquire_page w pdf p)).
Proof.
  intros H1 H2 H3 H4.
  unfold acquire_page, extractPageTextWithPdftotext. cbv zeta.
  simpl bind at 1.
  destruct (too_thin (direct_text (pdftotext w pdf p))).
  - unfold rasterizeAndOCR. cbv zeta.
    destruct (mkdtemp w pdf p); [|simpl; repeat constructor; auto].
    destruct (exited_zero (pdftoppm w pdf p)).
    + destruct (recognize w pdf p); simpl; repeat constructor; auto.
    + simpl. repeat constructor; auto.
  - simpl. repeat constructor; auto.
Qed.

Lemma quiet_page_chunks (P : event -> Prop) (pt : Z * jsstring) :
  Forall P (snd (page_chunks (num := num) pt)).
Proof.
  unfold page_chunks.
  destruct (chunkText (snd pt) CHUNK_CHARS CHUNK_OVERLAP); simpl; constructor.
Qed.

Lemma quiet_ingest_batch (f : event -> bool) (filename : jsstring)
    (chunks : list (chunk)) (i : nat) :
  (forall texts, f (EvEmbed texts) = false) ->
  (forall pts, f (EvUpsert pts) = false) ->
  Forall (fun ev => f ev = false) (snd (ingest_batch w filename chunks i)).
Proof.
  intros He Hu. unfold ingest_batch, embed. cbv zeta.
  destruct (pipe w _) as [out|]; simpl.
  - destruct (negb _); simpl.
    + repeat constructor. apply He.
    + destruct (upsert w _); simpl; repeat constructor; auto.
  - repeat constructor. apply He.
Qed.

Lemma quiet_getEmbedder (f : event -> bool) (loaded : bool) :
  f EvLoadPipeline = false ->
  Forall (fun ev => f ev = false) (snd (getEmbedder w loaded)).
Proof.
  intros Hl. unfold getEmbedder. destruct loaded; [constructor|].
  destruct (load_pipeline w); simpl; repeat constructor; exact Hl.
Qed.

Lemma quiet_count_points (f : event -> bool) :
  f EvPointCount = false ->
  Forall (fun ev => f ev = false) (snd (count_points w)).
Proof.
  intros Hc. unfold count_points.
  destruct (point_count w); simpl; repeat constructor; exact Hc.
Qed.

Section FailFast.

Variable fatal : event -> bool.

Lemma fail_fast_quiet {A : Type} (m : M A) :
  Forall (fun ev => fatal ev = false) (snd m) -> fail_fast fatal m.
Proof.
  intros H ev Hin Hfatal. rewrite Forall_forall in H.
  apply H in Hin. congruence.
Qed.

Lemma fail_fast_bind {A B : Type} (m : M A) (f : A -> M B) :
  fail_fast fatal m -> (forall a, fail_fast fatal (f a)) ->
  fail_fast fatal (bind m f).
Proof.
  intros Hm Hf. destruct m as [[a|e] tr] eqn:Em.
  - destruct (bind_ok (Ok a, tr) f eq_refl) as [H1 H2].
    intros ev Hin Hfatal. rewrite H2 in Hin. simpl in Hin.
    apply in_app_or in Hin as [Hin|Hin].
    + destruct (Hm ev Hin Hfatal) as [Hbad _]. discriminate.
    + destruct (Hf a ev Hin Hfatal) as [Hbad [tr0 Htr0]].
      split; [now rewrite H1|].
      exists (tr ++ tr0). rewrite H2. simpl. rewrite Htr0.
      now rewrite app_assoc.
  - exact Hm.
Qed.

Lemma fail_fast_for_each {A B : Type} (f : A -> M B) (l : list A) :
  (forall a, fail_fast fatal (f a)) -> fail_fast fatal (for_each f l).
Proof.
  intros Hf. induction l as [|a l IH]; simpl for_each.
  - intros ev [].
  - apply fail_fast_bind; [apply Hf|]. intros b.
    apply fail_fast_bind; [exact IH|]. intros bs ev [].
Qed.

(** A run is fail-fast as soon as its steps are. *)
Section RunSteps.

Hypothesis Hcount : forall pdf, fail_fast fatal (getPageCount w pdf).
Hypothesis Hpage : forall pdf p, fail_fast fatal (acquire_page w pdf p).
Hypothesis Hload : forall loaded, fail_fast fatal (getEmbedder w loaded).
Hypothesis Hbatch :
  forall pdf chunks i, fail_fast fatal (ingest_batch w pdf chunks i).
Hypothesis Hfinal : fail_fast fatal (count_points w).

Lemma fail_fast_ingestFile (loaded : bool) (filename : jsstring) :
  fail_fast fatal (ingestFile w loaded filename).
Proof.
  unfold ingestFile. apply fail_fast_bind; [apply Hcount|].
  intros pages. apply fail_fast_bind.
  { apply fail_fast_for_each. intros p. apply Hpage. }
  intros pageTexts. apply fail_fast_bind.
  { apply fail_fast_for_each. intros pt.
    apply fail_fast_quiet, quiet_page_chunks. }
  intros per_page. destruct (List.concat per_page) as [|c chunks] eqn:E.
  - intros ev [].
  - apply fail_fast_bind; [apply Hload|]. intros _.
    apply fail_fast_bind; [|intros bs ev []].
    apply fail_fast_for_each. intros i. apply Hbatch.
Qed.

Lemma fail_fast_ingest_files (loaded : bool) (pdfs : list jsstring) :
  fail_fast fatal (ingest_files w loaded pdfs).
Proof.
  revert loaded. induction pdfs as [|f pdfs IH]; intros loaded.
  - intros ev [].
  - cbn [ingest_files]. apply fail_fast_bind; [apply fail_fast_ingestFile|].
    intros loaded'. apply IH.
Qed.

Lemma fail_fast_run (pdfs : list jsstring) : fail_fast fatal (run w pdfs).
Proof.
  unfold run. destruct pdfs as [|f pdfs]; [intros ev []|].
  apply fail_fast_bind; [apply fail_fast_ingest_files|].
  intros _. apply Hfinal.
Qed.

End RunSteps.

End FailFast.

Lemma fail_fast_getPageCount (pdf : jsstring) :
  fail_fast (@fatal_exit num) (getPageCount w pdf).
Proof.
  unfold getPageCount. cbv zeta.
  destruct (exited_zero (status (pdfinfo w pdf))) eqn:E.
  - apply fail_fast_quiet.
    destruct (search re_pages (stdout (pdfinfo w pdf))) as [[n [|d caps]]|];
      simpl; repeat constructor; simpl; now rewrite E.
  - intros ev Hin _. simpl in Hin. destruct Hin as [<-|[]].
    split; [reflexivity|]. now exists [].
Qed.

Lemma fail_fast_rasterizeAndOCR (pdf : jsstring) (p : Z) :
  fail_fast (@fatal_exit num) (rasterizeAndOCR w pdf p).
Proof.
  unfold rasterizeAndOCR. cbv zeta.
  destruct (mkdtemp w pdf p);
    [|apply fail_fast_quiet; simpl; repeat constructor].
  destruct (exited_zero (pdftoppm w pdf p)) eqn:E.
  - apply fail_fast_quiet.
    destruct (recognize w pdf p); simpl; repeat constructor; simpl;
      now rewrite E.
  - intros ev Hin Hfatal. simpl in Hin.
    destruct Hin as [<-|[<-|[]]]; [discriminate|].
    split; [reflexivity|]. now exists [EvOcrPath pdf p].
Qed.

Lemma fail_fast_acquire_page (pdf : jsstring) (p : Z) :
  fail_fast (@fatal_exit num) (acquire_page w pdf p).
Proof.
  unfold acquire_page. apply fail_fast_bind.
  - apply fail_fast_quiet. simpl. repeat constructor.
  - intros text. apply fail_fast_bind.
    + destruct (too_thin text).
      * apply fail_fast_rasterizeAndOCR.
      * intros ev [].
    + intros t ev [].
Qed.

Lemma fail_fast_exits (pdfs : list jsstring) :
  fail_fast (@fatal_exit num) (run w pdfs).
Proof.
  apply fail_fast_run.
  - apply fail_fast_getPageCount.
  - apply fail_fast_acquire_page.
  - intros loaded. now apply fail_fast_quiet, quiet_getEmbedder.
  - intros pdf chunks i. now apply fail_fast_quiet, quiet_ingest_batch.
  - now apply fail_fast_quiet, quiet_count_points.
Qed.

Lemma ingest_batch_miscounted (filename : jsstring) (chunks : list chunk)
    (i : nat) :
  fail_fast (miscounted w) (ingest_batch w filename chunks i).
Proof.
  unfold ingest_batch, embed. cbv zeta.
  set (batch := firstn BATCH (skipn i chunks)).
  destruct (pipe w (List.map chunk_text batch)) as [out|] eqn:Ep.
  - simpl bind at 2. cbn [bind ret fst snd app].
    destruct (List.length (embedFn_of out) =? List.length batch)%nat eqn:En.
    + apply fail_fast_quiet. cbn [negb].
      destruct (upsert w _); simpl; repeat constructor; simpl;
        rewrite Ep, length_map, En; reflexivity.
    + cbn [negb]. intros ev Hin _. simpl in Hin. destruct Hin as [<-|[]].
      split; [reflexivity|]. now exists [].
  - apply fail_fast_quiet. simpl. repeat constructor. simpl. now rewrite Ep.
Qed.

Lemma fail_fast_miscounted (pdfs : list jsstring) :
  fail_fast (miscounted w) (run w pdfs).
Proof.
  apply fail_fast_run.
  - intros pdf. now apply fail_fast_quiet, quiet_getPageCount.
  - intros pdf p. now apply fail_fast_quiet, quiet_acquire_page.
  - intros loaded. now apply fail_fast_quiet, quiet_getEmbedder.
  - apply ingest_batch_miscounted.
  - now apply fail_fast_quiet, quiet_count_points.
Qed.

End IngestionFacts.

(** C3, as the code has it. In every run, a page-count probe or a
    rasterization that does not exit with status 0 ends the whole run with
    a throw and is the last thing the run does (no later page or file is
    processed, nothing is retried).  A text extraction that does not exit
    with status 0 does not throw: it counts as an empty extraction and the
    page goes through the rasterize-and-recognize path. *)
Theorem tool_failure_aborts_run (num : Type) (w : World num)
    (pdfs : list jsstring) :
  (forall ev, In ev (snd (run w pdfs)) -> fatal_exit ev = true ->
     is_ok (fst (run w pdfs)) = false /\
     exists tr0, snd (run w pdfs) = tr0 ++ [ev])
  /\
  (forall pdf p,
     exited_zero (status (pdftotext w pdf p)) = false ->
     extractPageTextWithPdftotext w pdf p
     = (Ok [], [EvPdftotext pdf p (status (pdftotext w pdf p))]) /\
     acquire_page w pdf p
     = bind (emit (EvPdftotext pdf p (status (pdftotext w pdf p))))
         (fun _ => bind (rasterizeAndOCR w pdf p)
                     (fun t => ret (p, cleanText t)))).
Proof.
  split.
  - exact (fail_fast_exits w pdfs).
  - intros pdf p E.
    unfold acquire_page, extractPageTextWithPdftotext, direct_text.
    cbv zeta. rewrite E. split; reflexivity.
Qed.

Lemma tool_failure_aborts_run_witness :
  is_ok (fst (run world_probe_fails [manual_pdf])) = false /\
  acquire_page world_extract_fails manual_pdf 1
  = bind (emit (EvPdftotext manual_pdf 1 (Some 1%Z)))
      (fun _ => bind (rasterizeAndOCR world_extract_fails manual_pdf 1)
                  (fun t => ret (1%Z, cleanText t))).
Proof.
  split.
  - destruct (tool_failure_aborts_run world_probe_fails [manual_pdf])
      as [H _].
    apply (H (EvPdfinfo manual_pdf (Some 1%Z))).
    + vm_compute. now left.
    + reflexivity.
  - destruct (tool_failure_aborts_run world_extract_fails [manual_pdf])
      as [_ H].
    apply (H manual_pdf 1%Z). reflexivity.
Defined.

(** C3 as stated fails: [pdftotext] exits with status 1 on the only page
    and the run completes. *)
Lemma extraction_failure_not_fatal :
  In (@EvPdftotext Z manual_pdf 1 (Some 1%Z))
     (snd (run world_extract_fails [manual_pdf])) /\
  nonzero_exit (@EvPdftotext Z manual_pdf 1 (Some 1%Z)) = true /\
  fst (run world_extract_fails [manual_pdf]) = Ok tt.
Proof.
  vm_compute. repeat split. right. now left.
Qed.

(** ** Ingestion: which pages go through recognition *)

Section AcquisitionFacts.

Variable num : Type.
Variable w : World num.

Local Abbreviation M := (M num).
Local Abbreviation event := (event num).

Lemma bind_count {A B : Type} (f : event -> bool) (m : M A) (k : A -> M B) :
  count f (snd (bind m k))
  = count f (snd m)
    + match fst m with
      | Ok a => count f (snd (k a))
      | Throw _ => 0
      end.
Proof.
  destruct m as [[a|e] tr]; simpl.
  - destruct (k a) as [r tr']. simpl. apply count_app.
  - lia.
Qed.

Lemma bind_is_ok {A B : Type} (m : M A) (k : A -> M B) :
  is_ok (fst (bind m k)) = true ->
  exists a, fst m = Ok a /\ is_ok (fst (k a)) = true.
Proof.
  destruct m as [[a|e] tr]; simpl; [|discriminate].
  intros H. exists a. split; [reflexivity|]. now destruct (k a).
Qed.

Local Abbreviation thin_page := (thin_page w).

Lemma acquire_page_trace (pdf : jsstring) (a : Z) :
  snd (acquire_page w pdf a)
  = EvPdftotext pdf a (status (pdftotext w pdf a))
    :: (if thin_page pdf a then
          EvOcrPath pdf a
          :: (if mkdtemp w pdf a then
                EvPdftoppm pdf a (pdftoppm w pdf a)
                :: (if exited_zero (pdftoppm w pdf a)
                    then [EvRecognize pdf a] else [])
              else [])
        else []).
Proof.
  unfold acquire_page, extractPageTextWithPdftotext, thin_page. cbv zeta.
  simpl bind at 1.
  destruct (too_thin (direct_text (pdftotext w pdf a))).
  - unfold rasterizeAndOCR. cbv zeta.
    destruct (mkdtemp w pdf a); [|reflexivity].
    destruct (exited_zero (pdftoppm w pdf a)); [|reflexivity].
    destruct (recognize w pdf a); reflexivity.
  - reflexivity.
Qed.

Lemma acquire_page_counts (pdf : jsstring) (a p : Z) :
  let tr := snd (acquire_page w pdf a) in
  count (is_extract pdf p) tr = (if (a =? p)%Z then 1 else 0) /\
  count (is_ocr_path pdf p) tr
  = (if ((a =? p)%Z && thin_page pdf a)%bool then 1 else 0) /\
  count (is_recognize pdf p) tr <= count (is_ocr_path pdf p) tr.
Proof.
  cbv zeta. rewrite acquire_page_trace. unfold count.
  destruct (thin_page pdf a), (mkdtemp w pdf a),
    (exited_zero (pdftoppm w pdf a));
    simpl; rewrite str_eqb_refl; simpl;
    destruct (a =? p)%Z; simpl; repeat split; lia.
Qed.

Lemma page_loop_counts (pdf : jsstring) (p : Z) (l : list Z) :
  NoDup l ->
  let m := for_each (acquire_page w pdf) l in
  count (is_extract pdf p) (snd m) <= 1 /\
  count (is_ocr_path pdf p) (snd m)
  = (if thin_page pdf p then count (is_extract pdf p) (snd m) else 0) /\
  count (is_recognize pdf p) (snd m) <= count (is_ocr_path pdf p) (snd m) /\
  (~ In p l -> count (is_extract pdf p) (snd m) = 0) /\
  (is_ok (fst m) = true -> In p l -> count (is_extract pdf p) (snd m) = 1).
Proof.
  cbv zeta. induction 1 as [|a l Hnotin Hnd IH].
  - simpl. unfold count. simpl.
    destruct (thin_page pdf p); repeat split; auto; intros _ [].
  - destruct IH as (IH1 & IH2 & IH3 & IH4 & IH5).
    destruct (acquire_page_counts pdf a p) as (C1 & C2 & C3).
    destruct (fst (acquire_page w pdf a)) as [b|e] eqn:E.
    + destruct (for_each_cons_ok (acquire_page w pdf) a l E) as [Hok Htr].
      rewrite Htr, Hok, !count_app, C1, C2.
      destruct (Z.eqb_spec a p) as [->|Hne]; cbn [andb] in *.
      * specialize (IH4 Hnotin).
        destruct (thin_page pdf p); repeat split; try lia;
          intros Hp; exfalso; apply Hp; now left.
      * assert (Hright : ~ In p (a :: l) -> ~ In p l)
          by (intros Hp Hin; apply Hp; now right).
        destruct (thin_page pdf p); repeat split; try lia;
          try (intros Hp; apply IH4; now apply Hright);
          try (intros H1 [H2|H2]; [congruence|rewrite IH5 by assumption; lia]).
    + destruct (for_each_cons_throw (acquire_page w pdf) a l E) as [Hfst Htr].
      rewrite Htr, Hfst, C1, C2.
      destruct (Z.eqb_spec a p) as [->|Hne]; cbn [andb] in *.
      * destruct (thin_page pdf p); repeat split; try lia; try discriminate;
          intros Hp; exfalso; apply Hp; now left.
      * destruct (thin_page pdf p); repeat split; try lia; try discriminate.
Qed.

Lemma page_numbers_NoDup (pages : Z) : NoDup (page_numbers pages).
Proof.
  unfold page_numbers. apply Injective_map_NoDup.
  - intros x y. apply Nat2Z.inj.
  - apply seq_NoDup.
Qed.

Lemma page_numbers_In (pages p : Z) :
  In p (page_numbers pages) <-> (1 <= p <= pages)%Z.
Proof.
  unfold page_numbers. rewrite in_map_iff. split.
  - intros [n [<- Hn]]. apply in_seq in Hn. lia.
  - intros H. exists (Z.to_nat p). split; [lia|]. apply in_seq. lia.
Qed.

(** Only the page loop extracts or recognizes. *)
Lemma ingestFile_count (f : event -> bool) (loaded : bool)
    (pdf : jsstring) :
  (forall f' st, f (EvPdfinfo f' st) = false) ->
  f EvLoadPipeline = false ->
  (forall texts, f (EvEmbed texts) = false) ->
  (forall pts, f (EvUpsert pts) = false) ->
  count f (snd (ingestFile w loaded pdf))
  = match fst (getPageCount w pdf) with
    | Ok pages =>
        count f (snd (for_each (acquire_page w pdf) (page_numbers pages)))
    | Throw _ => 0
    end.
Proof.
  intros Hi Hl He Hu. unfold ingestFile. rewrite bind_count.
  assert (H0 : count f (snd (getPageCount w pdf)) = 0)
    by now apply count_none, quiet_getPageCount.
  rewrite H0. simpl plus.
  destruct (fst (getPageCount w pdf)) as [pages|e]; [|reflexivity].
  rewrite bind_count.
  match goal with |- ?a + ?b = ?a => assert (Hb : b = 0); [|lia] end.
  destruct (fst (for_each _ _)) as [pageTexts|e]; [|reflexivity].
  apply count_none. apply quiet_bind.
  - apply quiet_for_each. intros pt. apply quiet_page_chunks.
  - intros per_page. destruct (List.concat per_page) as [|c chunks].
    + constructor.
    + apply quiet_bind; [now apply quiet_getEmbedder|]. intros _.
      apply quiet_bind; [|intros; constructor].
      apply quiet_for_each. intros i. now apply quiet_ingest_batch.
Qed.

Lemma ingestFile_ok_pages (loaded : bool) (pdf : jsstring) :
  is_ok (fst (ingestFile w loaded pdf)) = true ->
  exists pages,
    fst (getPageCount w pdf) = Ok pages /\
    is_ok (fst (for_each (acquire_page w pdf) (page_numbers pages))) = true.
Proof.
  unfold ingestFile. intros H.
  apply bind_is_ok in H as [pages [Hp H]].
  apply bind_is_ok in H as [pageTexts [Hpt _]].
  exists pages. split; [exact Hp|]. now rewrite Hpt.
Qed.

End AcquisitionFacts.

(** C8. During the ingestion of a file, for every page number [p]: the
    rasterize-and-recognize path is entered for [p] exactly as often as
    [p] was extracted with an empty or shorter-than-30 result, and [p] is
    extracted at most once; so the path is entered once when the direct
    text of [p] is too thin, never when it has 30 characters or more, and
    the recognition engine runs at most once per entry.  In a run that
    completes, every page from 1 to the page count was extracted once. *)
Theorem ocr_exactly_for_thin_pages (num : Type) (w : World num)
    (loaded : bool) (pdf : jsstring) (p : Z) :
  let tr := snd (ingestFile w loaded pdf) in
  let thin := too_thin (direct_text (pdftotext w pdf p)) in
  count (is_extract pdf p) tr <= 1 /\
  count (is_ocr_path pdf p) tr
  = (if thin then count (is_extract pdf p) tr else 0) /\
  count (is_recognize pdf p) tr <= count (is_ocr_path pdf p) tr /\
  (forall pages,
     is_ok (fst (ingestFile w loaded pdf)) = true ->
     fst (getPageCount w pdf) = Ok pages ->
     (1 <= p <= pages)%Z ->
     count (is_extract pdf p) tr = 1).
Proof.
  cbv zeta.
  rewrite !ingestFile_count by reflexivity.
  destruct (fst (getPageCount w pdf)) as [pages|e] eqn:E.
  - destruct (page_loop_counts w pdf p (page_numbers_NoDup pages))
      as (H1 & H2 & H3 & _ & H5).
    repeat split; try assumption.
    intros pages' Hok Hpages Hp. injection Hpages as <-.
    apply H5.
    + destruct (ingestFile_ok_pages w loaded pdf Hok)
        as [pages' [Hpg Hloop]].
      rewrite E in Hpg. injection Hpg as <-. exact Hloop.
    + now apply page_numbers_In.
  - destruct (too_thin _); repeat split; try lia; discriminate.
Qed.

Lemma ocr_exactly_for_thin_pages_witness :
  count (is_extract manual_pdf 1)
    (snd (ingestFile world_plain false manual_pdf)) = 1
  /\ count (is_ocr_path manual_pdf 1)
       (snd (ingestFile world_plain false manual_pdf)) = 0.
Proof.
  destruct (ocr_exactly_for_thin_pages world_plain false manual_pdf 1)
    as (_ & H2 & _ & H4).
  split.
  - apply (H4 1%Z); vm_compute; try reflexivity. split; discriminate.
  - rewrite H2. reflexivity.
Defined.

(** ** Embedding batches *)

Section EmbedderFacts.

Variable num : Type.

Lemma firstn_plus (A : Type) (a b : nat) (l : list A) :
  firstn (a + b) l = firstn a l ++ firstn b (skipn a l).
Proof.
  revert l. induction a as [|a IH]; intros l; [reflexivity|].
  destruct l as [|x l]; simpl.
  - now rewrite firstn_nil.
  - now rewrite IH.
Qed.

Lemma slices_cover (d : vec num) (dim n : nat) :
  List.concat
    (List.map (fun i => firstn dim (skipn (i * dim) d)) (seq 0 n))
  = firstn (n * dim) d.
Proof.
  induction n as [|n IH]; [reflexivity|].
  rewrite seq_S, map_app, concat_app, IH.
  change (S n * dim) with (dim + n * dim).
  rewrite (Nat.add_comm dim), firstn_plus.
  cbn [List.map List.concat Nat.add]. now rewrite app_nil_r.
Qed.

Lemma slice_length (d : vec num) (dim n i : nat) :
  List.length d = n * dim -> i < n ->
  List.length (firstn dim (skipn (i * dim) d)) = dim.
Proof.
  intros Hd Hi. rewrite length_firstn, length_skipn, Hd. nia.
Qed.

Lemma embedFn_of_batch_tensor (d : vec num) (n : nat) (mid : list nat)
    (dim : nat) :
  embedFn_of (OutTensor {| data := d; dims := Some (n :: mid ++ [dim]) |})
  = List.map (fun i => Some (firstn dim (skipn (i * dim) d))) (seq 0 n).
Proof.
  unfold embedFn_of. cbn [dims data].
  assert (Hlen : (List.length (n :: mid ++ [dim]) =? 1) = false).
  { apply Nat.eqb_neq. rewrite length_cons, length_app. simpl. lia. }
  rewrite Hlen.
  assert (Hlast : last (n :: mid ++ [dim]) 0 = dim).
  { change (n :: mid ++ [dim]) with ((n :: mid) ++ [dim]). apply last_last. }
  now rewrite Hlast.
Qed.

Lemma nth_error_combine_seq (A : Type) (l : list A) (start j : nat) (b : A) :
  nth_error l j = Some b ->
  nth_error (combine l (seq start (List.length l))) j = Some (b, start + j).
Proof.
  revert start j. induction l as [|x l IH]; intros start [|j] H;
    simpl in *; try discriminate.
  - injection H as ->. now rewrite Nat.add_0_r.
  - rewrite (IH (S start) j H). f_equal. f_equal. lia.
Qed.

End EmbedderFacts.

Section BatchStep.

Variable num : Type.
Variable w : World num.

(** What the embedder does with the answer of the pipeline. *)
Lemma embed_eq (texts : list jsstring) :
  embed w texts
  = match pipe w texts with
    | Some out => (Ok (embedFn_of out), [EvEmbed texts])
    | None => (Throw EmbedderFailed, [EvEmbed texts])
    end.
Proof. unfold embed. now destruct (pipe w texts). Qed.

(** One turn of the batch loop, by the answer of the pipeline. *)
Lemma ingest_batch_eq (filename : jsstring) (chunks : list chunk) (i : nat) :
  let batch := firstn BATCH (skipn i chunks) in
  let texts := List.map chunk_text batch in
  ingest_batch w filename chunks i
  = match pipe w texts with
    | Some out =>
        let vecs := embedFn_of out in
        if (List.length vecs =? List.length batch)%nat then
          let points := make_points filename batch vecs in
          (if upsert w points then Ok tt else Throw UpsertFailed,
           [EvEmbed texts; EvUpsert points])
        else
          (Throw (VectorCountMismatch (List.length vecs) (List.length batch)),
           [EvEmbed texts])
    | None => (Throw EmbedderFailed, [EvEmbed texts])
    end.
Proof.
  cbv zeta. unfold ingest_batch. cbv zeta. rewrite embed_eq.
  destruct (pipe w _) as [out|]; [|reflexivity].
  cbn [bind ret fst snd app].
  destruct (List.length (embedFn_of out) =? _)%nat; cbn [negb].
  - cbn [bind emit ret throw]. now destruct (upsert w _).
  - reflexivity.
Qed.

End BatchStep.

(** C4. For a batch of [N] texts the embedder, which is the call of the
    pipeline on the texts followed by the handling of the shape of its
    answer, returns [N] vectors in input order under each output shape of
    the pipeline: an array of [N] tensors gives the data of each tensor in
    turn; one tensor whose first dimension is [N] and last dimension [dim]
    gives the [N] consecutive runs of [dim] components (which, when the
    data has [N * dim] components, all have length [dim] and together are
    the data); one tensor without dimensions or with a single one gives
    that one vector (for [N = 1]).  In the batch loop, when the embedder
    returns as many vectors as the batch has chunks, the points written
    pair chunk [j] with vector [j]; when it returns another number, the
    loop throws right after the embedder call and writes nothing, the
    vectors being neither truncated nor padded, and this ends the whole
    run. *)
Theorem embedder_vectors_aligned (num : Type) (w : World num)
    (texts : list jsstring) :
  let N := List.length texts in
  (forall out, pipe w texts = Some out ->
     embed w texts = (Ok (embedFn_of out), [EvEmbed texts]))
  /\
  (forall ts : list (tensor num),
     pipe w texts = Some (OutArray ts) ->
     List.length ts = N ->
     exists vecs,
       fst (embed w texts) = Ok vecs /\
       List.length vecs = N /\
       forall i t, nth_error ts i = Some t ->
         nth_error vecs i = Some (Some (data t)))
  /\
  (forall (d : vec num) (mid : list nat) (dim : nat),
     pipe w texts
     = Some (OutTensor {| data := d; dims := Some (N :: mid ++ [dim]) |}) ->
     exists vecs,
       fst (embed w texts) = Ok vecs /\
       List.length vecs = N /\
       (forall i, i < N ->
          nth_error vecs i = Some (Some (firstn dim (skipn (i * dim) d)))) /\
       (List.length d = N * dim ->
        flatten_vecs vecs = d /\
        Forall (fun v => exists x, v = Some x /\ List.length x = dim) vecs))
  /\
  (N = 1 ->
   forall (d : vec num) (ds : option (list nat)),
     ds = None \/ (exists k, ds = Some [k]) ->
     pipe w texts = Some (OutTensor {| data := d; dims := ds |}) ->
     fst (embed w texts) = Ok [Some d] /\
     List.length [Some d] = N)
  /\
  (forall filename (chunks : list chunk) i out,
     let batch := firstn BATCH (skipn i chunks) in
     List.map chunk_text batch = texts ->
     pipe w texts = Some out ->
     (List.length (embedFn_of out) = N ->
      snd (ingest_batch w filename chunks i)
      = [EvEmbed texts;
         EvUpsert (make_points filename batch (embedFn_of out))] /\
      List.length (make_points filename batch (embedFn_of out)) = N /\
      forall j b, nth_error batch j = Some b ->
        nth_error (make_points filename batch (embedFn_of out)) j
        = Some {| point_vector := nth j (embedFn_of out) None;
                  point_filename := filename;
                  point_page := chunk_page b;
                  point_text := chunk_text b |}) /\
     (List.length (embedFn_of out) <> N ->
      ingest_batch w filename chunks i
      = (Throw (VectorCountMismatch (List.length (embedFn_of out)) N),
         [EvEmbed texts])))
  /\
  (forall pdfs ev,
     In ev (snd (run w pdfs)) -> miscounted w ev = true ->
     is_ok (fst (run w pdfs)) = false /\
     exists tr0, snd (run w pdfs) = tr0 ++ [ev]).
Proof.
  cbv zeta. repeat apply conj.
  - intros out Hp. now rewrite embed_eq, Hp.
  - intros ts Hp Hts. rewrite embed_eq, Hp. eexists.
    split; [reflexivity|]. split.
    + simpl. now rewrite length_map.
    + intros i t Hi. simpl. now rewrite nth_error_map, Hi.
  - intros d mid dim Hp. rewrite embed_eq, Hp. eexists.
    split; [reflexivity|]. rewrite embedFn_of_batch_tensor.
    repeat apply conj.
    + now rewrite length_map, length_seq.
    + intros i Hi. rewrite nth_error_map.
      assert (Hs : nth_error (seq 0 (List.length texts)) i = Some i).
      { rewrite nth_error_nth' with (d := 0) by now rewrite length_seq.
        now rewrite seq_nth. }
      now rewrite Hs.
    + intros Hd. split.
      * unfold flatten_vecs. rewrite map_map.
        rewrite slices_cover, <- Hd. apply firstn_all.
      * apply Forall_forall. intros v Hv. apply in_map_iff in Hv.
        destruct Hv as [i [<- Hi]]. apply in_seq in Hi.
        eexists. split; [reflexivity|].
        apply slice_length with (n := List.length texts); [exact Hd|lia].
  - intros HN d ds Hds Hp. rewrite embed_eq, Hp.
    destruct Hds as [->|[k ->]]; now rewrite HN.
  - intros filename chunks i out Ht Hp.
    pose proof (ingest_batch_eq w filename chunks i) as Hb. cbv zeta in Hb.
    rewrite Ht, Hp in Hb.
    assert (Hlen : List.length (firstn BATCH (skipn i chunks))
                   = List.length texts)
      by (rewrite <- Ht; now rewrite length_map).
    rewrite Hlen in Hb. split.
    + intros Hn. rewrite Hb. rewrite (proj2 (Nat.eqb_eq _ _) Hn).
      repeat apply conj.
      * reflexivity.
      * unfold make_points.
        now rewrite length_map, length_combine, length_seq, Nat.min_id.
      * intros j b Hj. unfold make_points. rewrite nth_error_map.
        now rewrite (nth_error_combine_seq _ 0 j Hj).
    + intros Hn. rewrite Hb. now rewrite (proj2 (Nat.eqb_neq _ _) Hn).
  - intros pdfs. exact (fail_fast_miscounted w pdfs).
Qed.

Lemma embedder_vectors_aligned_witness :
  (exists vecs,
     fst (embed world_plain two_texts) = Ok vecs /\ List.length vecs = 2)
  /\ ingest_batch world_miscount manual_pdf
       [{| chunk_page := 1; chunk_text := manual_pdf |}] 0
     = (Throw (VectorCountMismatch 0 1), [EvEmbed [manual_pdf]])
  /\ is_ok (fst (run world_miscount [manual_pdf])) = false.
Proof.
  destruct (embedder_vectors_aligned world_plain two_texts)
    as (_ & H2 & _).
  destruct (embedder_vectors_aligned world_miscount [manual_pdf])
    as (_ & _ & _ & _ & H5 & H6).
  repeat apply conj.
  - destruct (H2 (List.map (fun _ => {| data := [1%Z; 0%Z];
                                        dims := Some [2%nat] |}) two_texts)
                eq_refl eq_refl) as (vecs & Hv & Hn & _).
    now exists vecs.
  - apply (H5 manual_pdf [{| chunk_page := 1; chunk_text := manual_pdf |}]
             0 (OutArray [])); try reflexivity. discriminate.
  - apply (H6 [manual_pdf]
             (EvEmbed [str "Turn the ignition key to START and release it at once."])).
    + vm_compute. right. right. right. now left.
    + reflexivity.
Defined.

(** ** Retrieval: the filter funnel *)

Section FunnelFacts.

Variable toLowerCase : jsstring -> jsstring.

Lemma insert_by_In (A : Type) (cmp : A -> A -> Q) (x y : A) (l : list A) :
  In y (insert_by cmp x l) <-> y = x \/ In y l.
Proof.
  induction l as [|z l IH]; simpl.
  - intuition.
  - destruct (Qle_bool (cmp x z) 0); simpl; [intuition|].
    rewrite IH. intuition.
Qed.

Lemma sort_by_In (A : Type) (cmp : A -> A -> Q) (y : A) (l : list A) :
  In y (sort_by cmp l) <-> In y l.
Proof.
  induction l as [|x l IH]; simpl; [reflexivity|].
  rewrite insert_by_In, IH. intuition.
Qed.

Lemma sort_by_length (A : Type) (cmp : A -> A -> Q) (l : list A) :
  List.length (sort_by cmp l) = List.length l.
Proof.
  induction l as [|x l IH]; simpl; [reflexivity|].
  rewrite <- IH. generalize (sort_by cmp l). intros s.
  induction s as [|z s IHs]; simpl; [reflexivity|].
  destruct (Qle_bool (cmp x z) 0); simpl; [reflexivity|]. now rewrite IHs.
Qed.

Lemma by_score_desc_le (x y : hit) :
  Qle_bool (by_score_desc x y) 0 = true <-> score_ge x y.
Proof.
  rewrite Qle_bool_iff. unfold by_score_desc, score_ge. split; intros H; lra.
Qed.



Lemma firstn_incl (A : Type) (n : nat) (l : list A) (x : A) :
  In x (firstn n l) -> In x l.
Proof.
  intros H. rewrite <- (firstn_skipn n l). apply in_or_app. now left.
Qed.


Lemma funnel_In (q : jsstring) (top : hit) (raw : list hit) (h : hit) :
  In h (funnel toLowerCase q top raw) -> In h (gates toLowerCase q top raw).
Proof.
  unfold funnel. intros H. apply firstn_incl in H. now apply sort_by_In in H.
Qed.


End FunnelFacts.






(** ** Retrieval: fallback *)

Lemma sort_by_nil_inv (A : Type) (cmp : A -> A -> Q) (l : list A) :
  sort_by cmp l = [] -> l = [].
Proof.
  intros H. apply length_zero_iff_nil.
  rewrite <- (sort_by_length cmp l), H. reflexivity.
Qed.

(** The funnel is empty exactly when the three gates left nothing. *)
Lemma funnel_nil_iff (toLowerCase : jsstring -> jsstring) (q : jsstring)
    (top : hit) (raw : list hit) :
  funnel toLowerCase q top raw = [] <-> gates toLowerCase q top raw = [].
Proof.
  unfold funnel, MAX_CTX. split.
  - intros H. apply sort_by_nil_inv with (cmp := by_score_desc).
    destruct (sort_by by_score_desc (gates toLowerCase q top raw));
      [reflexivity|discriminate].
  - intros ->. reflexivity.
Qed.

(** C6. When the broad search returns at least one candidate, the context
    list of the answer is not empty, and when the family, score-floor and
    lexical gates leave no candidate it is exactly the list holding the
    top candidate of the broad search. *)
Theorem fallback_keeps_top (toLowerCase : jsstring -> jsstring)
    (q : jsstring) (top : hit) (rest : list hit) :
  let raw := top :: rest in
  resp_routed (ask toLowerCase q raw) = retrieval /\
  resp_used (ask toLowerCase q raw) = context_hits toLowerCase q top raw /\
  context_hits toLowerCase q top raw <> [] /\
  (gates toLowerCase q top raw = [] ->
   context_hits toLowerCase q top raw = [top]) /\
  (gates toLowerCase q top raw <> [] ->
   context_hits toLowerCase q top raw = funnel toLowerCase q top raw).
Proof.
  cbv zeta. repeat apply conj; try reflexivity.
  - unfold context_hits. destruct (funnel _ _ _ _); discriminate.
  - intros H. apply funnel_nil_iff in H. unfold context_hits. now rewrite H.
  - intros H. unfold context_hits.
    destruct (funnel toLowerCase q top (top :: rest)) eqn:E; [|reflexivity].
    apply funnel_nil_iff in E. contradiction.
Qed.

Lemma fallback_keeps_top_witness :
  context_hits ascii_lower sample_question weak_top (weak_top :: weak_rest)
  = [weak_top]
  /\ context_hits ascii_lower sample_question sample_top sample_hits
     = funnel ascii_lower sample_question sample_top sample_hits.
Proof.
  split.
  - apply (fallback_keeps_top ascii_lower sample_question weak_top weak_rest).
    reflexivity.
  - apply (fallback_keeps_top ascii_lower sample_question sample_top
             sample_rest).
    vm_compute. discriminate.
Defined.

(** ** Retrieval: citations *)

Lemma cit_eqb_eq (a b : citation) : cit_eqb a b = true <-> a = b.
Proof.
  unfold cit_eqb. rewrite andb_true_iff, str_eqb_eq, Z.eqb_eq.
  destruct a, b; simpl. split.
  - intros [-> ->]. reflexivity.
  - intros H. injection H as -> ->. now split.
Qed.

Lemma cit_eqb_refl (a : citation) : cit_eqb a a = true.
Proof. now apply cit_eqb_eq. Qed.

Lemma cit_eqb_sym (a b : citation) : cit_eqb a b = cit_eqb b a.
Proof.
  destruct (cit_eqb a b) eqn:E1, (cit_eqb b a) eqn:E2; try reflexivity.
  - apply cit_eqb_eq in E1. subst. now rewrite cit_eqb_refl in E2.
  - apply cit_eqb_eq in E2. subst. now rewrite cit_eqb_refl in E1.
Qed.

Lemma filter_filter (A : Type) (f g : A -> bool) (l : list A) :
  filter f (filter g l) = filter (fun x => g x && f x) l.
Proof.
  induction l as [|x l IH]; simpl; [reflexivity|].
  destruct (g x); simpl; [destruct (f x)|]; now rewrite IH.
Qed.

Lemma fresh_for_snoc (acc : list citation) (k c : citation) :
  fresh_for (acc ++ [k]) c = negb (cit_eqb c k) && fresh_for acc c.
Proof.
  unfold fresh_for. rewrite existsb_app. simpl.
  rewrite orb_false_r, negb_orb, (cit_eqb_sym k c). apply andb_comm.
Qed.

Lemma fresh_for_known (acc : list citation) (k c : citation) :
  existsb (fun a => cit_eqb a k) acc = true ->
  fresh_for acc c = negb (cit_eqb c k) && fresh_for acc c.
Proof.
  intros H. destruct (cit_eqb c k) eqn:E; [|reflexivity].
  apply cit_eqb_eq in E. subst c. unfold fresh_for. now rewrite H.
Qed.

Lemma firstn_exact (A : Type) (a b : list A) :
  firstn (List.length a) (a ++ b) = a.
Proof. induction a as [|x a IH]; simpl; [reflexivity|]. now rewrite IH. Qed.

Lemma same_citation_key (h : hit) (c : citation) :
  same_citation h c = cit_eqb c (key_of h).
Proof. reflexivity. Qed.

Lemma cite_loop_spec (hits : list hit) (acc : list citation) :
  List.length acc < MAX_CITATIONS ->
  cite_loop hits acc
  = firstn MAX_CITATIONS
      (acc ++ filter (fresh_for acc)
                (distinct_in_order (List.map key_of hits))).
Proof.
  revert acc. induction hits as [|h hits IH]; intros acc Hlen.
  - cbn [cite_loop List.map distinct_in_order filter]. rewrite app_nil_r.
    symmetry. apply firstn_all2. lia.
  - cbn [cite_loop List.map distinct_in_order].
    change (existsb (same_citation h) acc)
      with (existsb (fun c => cit_eqb c (key_of h)) acc).
    change {| cit_filename := hit_filename h; cit_page := hit_page h |}
      with (key_of h).
    destruct (existsb (fun c => cit_eqb c (key_of h)) acc) eqn:E.
    + rewrite IH by exact Hlen. f_equal. f_equal.
      cbn [filter]. unfold fresh_for at 2. rewrite E. cbn [negb].
      rewrite filter_filter. apply filter_ext. intros c.
      now apply fresh_for_known.
    + cbn [filter]. unfold fresh_for at 1. rewrite E. cbn [negb].
      rewrite filter_filter.
      destruct (MAX_CITATIONS <=? List.length (acc ++ [key_of h])) eqn:Efull.
      * apply Nat.leb_le in Efull. rewrite length_app in Efull. simpl in Efull.
        assert (Hthree : List.length (acc ++ [key_of h]) = MAX_CITATIONS)
          by (rewrite length_app; simpl; lia).
        rewrite <- Hthree.
        match goal with |- _ = firstn _ (acc ++ key_of h :: ?l) =>
          change (acc ++ key_of h :: l) with (acc ++ [key_of h] ++ l);
          rewrite (app_assoc acc [key_of h] l)
        end.
        symmetry. apply firstn_exact.
      * apply Nat.leb_gt in Efull. rewrite IH by exact Efull.
        rewrite <- app_assoc. cbn [app]. f_equal. f_equal. f_equal.
        apply filter_ext. intros c. apply fresh_for_snoc.
Qed.

Lemma distinct_in_order_NoDup (l : list citation) :
  NoDup (distinct_in_order l).
Proof.
  induction l as [|k l IH]; simpl; constructor.
  - intros Hin. apply filter_In in Hin as [_ Hk].
    now rewrite cit_eqb_refl in Hk.
  - now apply NoDup_filter.
Qed.

Lemma distinct_in_order_In (l : list citation) (c : citation) :
  In c (distinct_in_order l) <-> In c l.
Proof.
  induction l as [|k l IH]; simpl; [reflexivity|].
  rewrite filter_In, IH. split.
  - intros [H|[H _]]; auto.
  - intros [H|H]; [now left|].
    destruct (cit_eqb c k) eqn:E.
    + left. symmetry. now apply cit_eqb_eq.
    + right. now split.
Qed.

Lemma firstn_NoDup (A : Type) (n : nat) (l : list A) :
  NoDup l -> NoDup (firstn n l).
Proof.
  intros H. revert n. induction H as [|x l Hx Hl IH]; intros [|n]; simpl;
    try constructor.
  - intros Hin. apply Hx. now apply firstn_incl in Hin.
  - apply IH.
Qed.

(** C9. The citation list of a hit sequence holds no (filename, page)
    pair twice, has at most 3 entries, and is the first 3 (or fewer) of
    the distinct pairs of the sequence in the order of their first
    occurrence. *)
Theorem citations_deduplicated (hits : list hit) :
  NoDup (citations_of hits) /\
  List.length (citations_of hits) <= 3 /\
  citations_of hits
  = firstn 3 (distinct_in_order (List.map key_of hits)) /\
  (forall c, In c (citations_of hits) -> exists h, In h hits /\ c = key_of h).
Proof.
  assert (Hspec : citations_of hits
                  = firstn 3 (distinct_in_order (List.map key_of hits))).
  { unfold citations_of. rewrite cite_loop_spec by (unfold MAX_CITATIONS; simpl; lia).
    cbn [app]. unfold MAX_CITATIONS. f_equal.
    rewrite <- (filter_ext (fun _ => true)); [|reflexivity].
    generalize (distinct_in_order (List.map key_of hits)). intros l.
    induction l as [|x l IH]; simpl; [reflexivity|]. now rewrite IH. }
  repeat apply conj.
  - rewrite Hspec. apply firstn_NoDup, distinct_in_order_NoDup.
  - rewrite Hspec. apply firstn_le_length.
  - exact Hspec.
  - intros c Hc. rewrite Hspec in Hc. apply firstn_incl in Hc.
    apply (proj1 (distinct_in_order_In _ _)) in Hc. apply in_map_iff in Hc.
    destruct Hc as [h [<- Hh]]. now exists h.
Qed.

Lemma citations_deduplicated_witness :
  exists h, In h sample_hits /\ key_of sample_top = key_of h.
Proof.
  destruct (citations_deduplicated sample_hits) as (_ & _ & _ & H).
  apply H. vm_compute. now left.
Defined.

(** ** Regular expressions: what a match is made of *)

Section RegexFacts.

Lemma run_length_le (p : char -> bool) (s : jsstring) :
  run_length p s <= List.length s.
Proof.
  induction s as [|c s IH]; simpl; [lia|]. destruct (p c); simpl; lia.
Qed.

Lemma run_length_firstn (p : char -> bool) (s : jsstring) (j : nat) :
  j <= run_length p s -> forallb p (firstn j s) = true.
Proof.
  revert j. induction s as [|c s IH]; intros [|j] H; simpl in *;
    try reflexivity.
  destruct (p c) eqn:E; [|lia]. simpl. apply IH. lia.
Qed.

(** The character after a maximal run is not in the class. *)
Lemma run_length_stop (p : char -> bool) (s : jsstring) :
  match skipn (run_length p s) s with
  | c :: _ => p c = false
  | [] => True
  end.
Proof.
  induction s as [|c s IH]; simpl; [exact I|].
  destruct (p c) eqn:E; simpl; [exact IH|exact E].
Qed.

(** Inside a run every character is in the class. *)
Lemma run_length_inside (p : char -> bool) (s : jsstring) (j : nat) :
  j < run_length p s ->
  exists c t, skipn j s = c :: t /\ p c = true.
Proof.
  revert j. induction s as [|c s IH]; intros j H; simpl in H; [lia|].
  destruct (p c) eqn:E; [|lia].
  destruct j as [|j]; simpl.
  - now exists c, s.
  - apply IH. lia.
Qed.

Lemma try_counts_eq (k : jsstring -> mres) (cap : bool) (s : jsstring)
    (mn j : nat) :
  try_counts k cap s mn j
  = if j <? mn then None
    else match extend cap (firstn j s) (k (skipn j s)) with
         | Some r => Some r
         | None =>
             match j with
             | 0 => None
             | S j' => try_counts k cap s mn j'
             end
         end.
Proof. destruct j; reflexivity. Qed.

Lemma try_counts_inv (k : jsstring -> mres) (cap : bool) (s : jsstring)
    (mn j n : nat) (caps : list jsstring) :
  try_counts k cap s mn j = Some (n, caps) ->
  exists j' n' caps',
    j' <= j /\ mn <= j' /\ k (skipn j' s) = Some (n', caps') /\
    n = List.length (firstn j' s) + n' /\
    caps = (if cap then firstn j' s :: caps' else caps').
Proof.
  induction j as [|j IH]; rewrite try_counts_eq.
  - destruct (Nat.ltb_spec 0 mn) as [E|E]; [discriminate|].
    destruct (k (skipn 0 s)) as [[n' caps']|] eqn:Ek; cbn [extend];
      [|discriminate].
    intros H. injection H as <- <-. exists 0, n', caps'. auto.
  - destruct (Nat.ltb_spec (S j) mn) as [E|E]; [discriminate|].
    destruct (k (skipn (S j) s)) as [[n' caps']|] eqn:Ek; cbn [extend].
    + intros H. injection H as <- <-. exists (S j), n', caps'. auto.
    + intros H. destruct (IH H) as (j' & n' & caps' & H1 & H2 & H3 & H4 & H5).
      exists j', n', caps'. repeat split; auto.
Qed.

(** When the rest of the pattern fails after every count that is tried,
    the repetition fails. *)
Lemma try_counts_below (k : jsstring -> mres) (cap : bool) (s : jsstring)
    (mn j : nat) :
  (forall j', j' <= j -> k (skipn j' s) = None) ->
  try_counts k cap s mn j = None.
Proof.
  induction j as [|j IH]; intros H; rewrite try_counts_eq.
  - destruct (0 <? mn); [reflexivity|]. now rewrite (H 0).
  - destruct (S j <? mn); [reflexivity|]. rewrite (H (S j)) by lia.
    cbn [extend]. apply IH. intros j' Hj'. apply H. lia.
Qed.

(** When the rest of the pattern fails after every shorter repetition, the
    greedy choice decides. *)
Lemma try_counts_top (k : jsstring -> mres) (cap : bool) (s : jsstring)
    (mn j : nat) :
  (forall j', j' < j -> k (skipn j' s) = None) ->
  try_counts k cap s mn j
  = if j <? mn then None else extend cap (firstn j s) (k (skipn j s)).
Proof.
  intros H. rewrite try_counts_eq.
  destruct (j <? mn); [reflexivity|].
  destruct (extend cap (firstn j s) (k (skipn j s))) eqn:E; [reflexivity|].
  destruct j as [|j]; [reflexivity|].
  apply try_counts_below. intros j' Hj'. apply H. lia.
Qed.

(** A repetition followed by a character of a disjoint class: no
    backtracking succeeds, the maximal run is taken. *)
Lemma rep_then_disjoint (cap cap' : bool) (p q : char -> bool) (mn : nat)
    (re : regex) (s : jsstring) :
  (forall c, p c = true -> q c = false) ->
  match_here (Rep cap p mn :: Ch cap' q :: re) s
  = if run_length p s <? mn then None
    else extend cap (firstn (run_length p s) s)
           (match_here (Ch cap' q :: re) (skipn (run_length p s) s)).
Proof.
  intros Hdisj.
  change (match_here (Rep cap p mn :: Ch cap' q :: re) s)
    with (try_counts (match_here (Ch cap' q :: re)) cap s mn (run_length p s)).
  apply try_counts_top.
  intros j' Hj'. destruct (run_length_inside p s Hj') as (c & t & -> & Hc).
  cbn [match_here]. now rewrite (Hdisj c Hc).
Qed.

(** A pattern that is one repetition. *)
Lemma match_single_rep (p : char -> bool) (mn : nat) (s : jsstring) :
  match_here [Rep false p mn] s
  = if run_length p s <? mn then None else Some (run_length p s + 0, []).
Proof.
  change (match_here [Rep false p mn] s)
    with (try_counts (match_here []) false s mn (run_length p s)).
  rewrite try_counts_eq.
  destruct (run_length p s <? mn); [reflexivity|].
  cbn [match_here extend].
  rewrite length_firstn, Nat.min_l by apply run_length_le. reflexivity.
Qed.

Lemma in_classes_cons (it : item) (re : regex) (c : char) :
  in_classes re c = true -> in_classes (it :: re) c = true.
Proof. intros H. unfold in_classes in *. simpl. rewrite H. apply orb_true_r. Qed.

Lemma forallb_weaken (p q : char -> bool) (l : jsstring) :
  (forall c, p c = true -> q c = true) ->
  forallb p l = true -> forallb q l = true.
Proof.
  intros Hpq. induction l as [|c l IH]; simpl; [reflexivity|].
  intros H. apply andb_true_iff in H as [H1 H2].
  now rewrite (Hpq c H1), IH.
Qed.

(** A match lies inside the string, and each of its characters is accepted
    by a class of the pattern. *)
Lemma match_here_sound (re : regex) (s : jsstring) (n : nat)
    (caps : list jsstring) :
  match_here re s = Some (n, caps) ->
  n <= List.length s /\ forallb (in_classes re) (firstn n s) = true.
Proof.
  revert s n caps. induction re as [|it re IH]; intros s n caps H.
  - injection H as <- <-. split; [lia|reflexivity].
  - destruct it as [cap p|cap p mn].
    + cbn [match_here] in H. destruct s as [|c s]; [discriminate|].
      destruct (p c) eqn:Ec; [|discriminate].
      destruct (match_here re s) as [[n' caps']|] eqn:E; [|discriminate].
      cbn [extend] in H. injection H as <- <-.
      destruct (IH _ _ _ E) as [Hn Hall].
      split; [simpl; lia|].
      cbn [List.length Nat.add firstn forallb].
      apply andb_true_iff. split.
      * unfold in_classes. simpl. now rewrite Ec.
      * revert Hall. apply forallb_weaken. intros d. apply in_classes_cons.
    + change (match_here (Rep cap p mn :: re) s)
        with (try_counts (match_here re) cap s mn (run_length p s)) in H.
      apply try_counts_inv in H
        as (j & n' & caps' & Hj & Hmn & Hk & -> & _).
      destruct (IH _ _ _ Hk) as [Hn Hall].
      pose proof (run_length_le p s) as Hrun.
      rewrite length_skipn in Hn.
      rewrite length_firstn, Nat.min_l by lia.
      split; [lia|].
      rewrite firstn_plus, forallb_app. apply andb_true_iff. split.
      * apply forallb_weaken with (p := p).
        -- intros c Hc. unfold in_classes. simpl. now rewrite Hc.
        -- now apply run_length_firstn.
      * revert Hall. apply forallb_weaken. intros d. apply in_classes_cons.
Qed.

(** A pattern with a mandatory character matches at least one. *)
Lemma match_here_nonempty (re : regex) (s : jsstring) (n : nat)
    (caps : list jsstring) :
  has_mandatory re = true ->
  match_here re s = Some (n, caps) -> 0 < n.
Proof.
  revert s n caps. induction re as [|it re IH]; intros s n caps Hm H.
  - discriminate.
  - destruct it as [cap p|cap p mn].
    + cbn [match_here] in H. destruct s as [|c s]; [discriminate|].
      destruct (p c); [|discriminate].
      destruct (match_here re s) as [[n' caps']|]; [|discriminate].
      cbn [extend] in H. injection H as <- <-. simpl. lia.
    + change (match_here (Rep cap p mn :: re) s)
        with (try_counts (match_here re) cap s mn (run_length p s)) in H.
      apply try_counts_inv in H
        as (j & n' & caps' & Hj & Hmn & Hk & -> & _).
      pose proof (run_length_le p s) as Hrun.
      rewrite length_firstn, Nat.min_l by lia.
      unfold has_mandatory in Hm. cbn [existsb] in Hm.
      apply orb_true_iff in Hm as [Hm|Hm].
      * apply Nat.ltb_lt in Hm. lia.
      * specialize (IH _ _ _ Hm Hk). lia.
Qed.

Lemma match_here_nil (re : regex) :
  has_mandatory re = true -> match_here re [] = None.
Proof.
  intros Hm. destruct (match_here re []) as [[n caps]|] eqn:E; [|reflexivity].
  pose proof (match_here_nonempty _ _ Hm E).
  destruct (match_here_sound _ _ E) as [Hn _]. simpl in Hn. lia.
Qed.

(** *** Global replacement, step by step *)

Lemma replace_from_skip (re : regex) (tpl : list tpart) (k : nat)
    (s : jsstring) :
  k <= List.length s ->
  replace_from re tpl k s = replace_all re tpl (skipn k s).
Proof.
  revert k. induction s as [|c s IH]; intros [|k] H; try reflexivity.
  - simpl in H. lia.
  - cbn [replace_from skipn]. apply IH. simpl in H. lia.
Qed.

Lemma replace_all_copy (re : regex) (tpl : list tpart) (c : char)
    (s : jsstring) :
  match_here re (c :: s) = None ->
  replace_all re tpl (c :: s) = c :: replace_all re tpl s.
Proof. intros H. unfold replace_all. cbn [replace_from]. now rewrite H. Qed.

Lemma replace_all_match (re : regex) (tpl : list tpart) (s : jsstring)
    (n : nat) (caps : list jsstring) :
  match_here re s = Some (n, caps) -> 0 < n -> n <= List.length s ->
  replace_all re tpl s = subst tpl caps ++ replace_all re tpl (skipn n s).
Proof.
  intros H Hpos Hle. destruct s as [|c s]; [simpl in Hle; lia|].
  destruct n as [|k]; [lia|].
  unfold replace_all at 1. cbn [replace_from]. rewrite H.
  f_equal. cbn [skipn]. apply replace_from_skip. simpl in Hle. lia.
Qed.

(** Induction along a global replacement. *)
Lemma replace_ind (re : regex) (tpl : list tpart)
    (P : jsstring -> jsstring -> Prop) :
  has_mandatory re = true ->
  P [] [] ->
  (forall c s out,
     match_here re (c :: s) = None -> P s out -> P (c :: s) (c :: out)) ->
  (forall s n caps out,
     match_here re s = Some (n, caps) -> 0 < n -> n <= List.length s ->
     P (skipn n s) out -> P s (subst tpl caps ++ out)) ->
  forall s, P s (replace_all re tpl s).
Proof.
  intros Hm Hnil Hcopy Hmatch s.
  assert (H : forall m s, List.length s <= m -> P s (replace_all re tpl s)).
  { clear s. induction m as [|m IH]; intros s Hs.
    - destruct s; [|simpl in Hs; lia].
      unfold replace_all. cbn [replace_from].
      now rewrite (match_here_nil _ Hm).
    - destruct s as [|c s].
      + unfold replace_all. cbn [replace_from].
        now rewrite (match_here_nil _ Hm).
      + destruct (match_here re (c :: s)) as [[n caps]|] eqn:E.
        * pose proof (match_here_nonempty _ _ Hm E) as Hpos.
          destruct (match_here_sound _ _ E) as [Hle _].
          rewrite (replace_all_match re tpl (c :: s) E Hpos Hle).
          apply (Hmatch _ _ _ _ E Hpos Hle). apply IH.
          rewrite length_skipn. cbn [List.length] in *. lia.
        * rewrite (replace_all_copy re tpl c s E). apply Hcopy; [exact E|].
          apply IH. simpl in Hs. lia. }
  now apply (H (List.length s)).
Qed.

(** What the replacement keeps or produces: copied characters and
    replacement texts. *)
Lemma replace_all_forallb (re : regex) (tpl : list tpart)
    (q0 q : char -> bool) (s : jsstring) :
  has_mandatory re = true ->
  (forall t n caps,
     match_here re t = Some (n, caps) -> forallb q (subst tpl caps) = true) ->
  (forall c t, match_here re (c :: t) = None -> q0 c = true -> q c = true) ->
  forallb q0 s = true ->
  forallb q (replace_all re tpl s) = true.
Proof.
  intros Hm Hrep Hcopy. revert s.
  apply (replace_ind re tpl
           (fun s out => forallb q0 s = true -> forallb q out = true) Hm).
  - reflexivity.
  - intros c s out E IH H. simpl in H. apply andb_true_iff in H as [H1 H2].
    simpl. now rewrite (Hcopy _ _ E H1), IH.
  - intros s n caps out E _ _ IH H. rewrite forallb_app.
    rewrite (Hrep _ _ _ E). simpl. apply IH.
    rewrite <- (firstn_skipn n s), forallb_app in H.
    now apply andb_true_iff in H as [_ H].
Qed.

(** A global replacement that finds nothing to change. *)
Lemma replace_all_id (re : regex) (tpl : list tpart)
    (Inv : jsstring -> Prop) :
  has_mandatory re = true ->
  (forall c t, Inv (c :: t) -> Inv t) ->
  (forall t, Inv t ->
     match match_here re t with
     | None => True
     | Some (n, caps) => subst tpl caps = firstn n t
     end) ->
  forall s, Inv s -> replace_all re tpl s = s.
Proof.
  intros Hm Hsuf Hinv.
  assert (Hskip : forall n t, Inv t -> Inv (skipn n t)).
  { induction n as [|n IH]; intros t Ht; [exact Ht|].
    destruct t as [|c t]; [exact Ht|]. simpl. apply IH. now apply Hsuf with c. }
  apply (replace_ind re tpl (fun s out => Inv s -> out = s) Hm).
  - reflexivity.
  - intros c s out E IH H. f_equal. apply IH. now apply Hsuf with c.
  - intros s n caps out E _ _ IH H.
    specialize (Hinv s H). rewrite E in Hinv. rewrite Hinv.
    rewrite IH by now apply Hskip. apply firstn_skipn.
Qed.

(** A pattern that is one character replaced by one character rewrites
    character by character. *)
Lemma replace_all_map (p : char -> bool) (d : char) (s : jsstring) :
  replace_all [Ch false p] [Lit d] s
  = List.map (fun c => if p c then d else c) s.
Proof.
  unfold replace_all. induction s as [|c s IH]; [reflexivity|].
  cbn [replace_from match_here List.map].
  destruct (p c); cbn [extend List.length Nat.add]; now rewrite IH.
Qed.

End RegexFacts.

Section RegexInversion.

Lemma match_ch_inv (cap : bool) (p : char -> bool) (re : regex)
    (s : jsstring) (n : nat) (caps : list jsstring) :
  match_here (Ch cap p :: re) s = Some (n, caps) ->
  exists c s' n' caps',
    s = c :: s' /\ p c = true /\ match_here re s' = Some (n', caps') /\
    n = S n' /\ caps = (if cap then [c] :: caps' else caps').
Proof.
  cbn [match_here]. destruct s as [|c s]; [discriminate|].
  destruct (p c) eqn:Ec; [|discriminate].
  destruct (match_here re s) as [[n' caps']|] eqn:E; [|discriminate].
  cbn [extend]. intros H. injection H as <- <-.
  exists c, s, n', caps'. auto.
Qed.

Lemma match_rep_inv (cap : bool) (p : char -> bool) (mn : nat) (re : regex)
    (s : jsstring) (n : nat) (caps : list jsstring) :
  match_here (Rep cap p mn :: re) s = Some (n, caps) ->
  exists j n' caps',
    j <= run_length p s /\ mn <= j /\
    match_here re (skipn j s) = Some (n', caps') /\
    n = j + n' /\ caps = (if cap then firstn j s :: caps' else caps').
Proof.
  change (match_here (Rep cap p mn :: re) s)
    with (try_counts (match_here re) cap s mn (run_length p s)).
  intros H. apply try_counts_inv in H
    as (j & n' & caps' & Hj & Hmn & Hk & Hn & Hcaps).
  exists j, n', caps'. repeat split; auto.
  rewrite Hn, length_firstn, Nat.min_l; [reflexivity|].
  pose proof (run_length_le p s). lia.
Qed.

Lemma match_ch_none (cap : bool) (p : char -> bool) (re : regex) (c : char)
    (s : jsstring) :
  p c = false -> match_here (Ch cap p :: re) (c :: s) = None.
Proof. intros H. cbn [match_here]. now rewrite H. Qed.

Lemma match_ch_hit (cap : bool) (p : char -> bool) (re : regex) (c : char)
    (s : jsstring) :
  p c = true ->
  match_here (Ch cap p :: re) (c :: s) = extend cap [c] (match_here re s).
Proof. intros H. cbn [match_here]. now rewrite H. Qed.

Lemma extend_none (cap : bool) (txt : jsstring) (r : mres) :
  extend cap txt r = None <-> r = None.
Proof. destruct r as [[n caps]|]; cbn; split; congruence. Qed.

End RegexInversion.

(** ** Text normalizer: characters *)

Ltac char_facts :=
  unfold settled, plain, not_equals, is_dash, is_blank_tab, is_dquote_curly, is_squote_curly,
    is_hspace, is_space, is_letter, is_digit, is_char, in_range,
    TAB, LF, CR, SP, DQUOTE, SQUOTE, HYPHEN, DOT, EQUALS, EM_DASH, EN_DASH
    in *;
  repeat rewrite ?andb_true_iff, ?orb_true_iff, ?andb_false_iff,
    ?orb_false_iff, ?negb_true_iff, ?negb_false_iff, ?N.leb_le, ?N.eqb_eq,
    ?N.leb_gt, ?N.eqb_neq in *;
  lia.

Lemma lf_is_space (c : char) : is_char LF c = true -> is_space c = true.
Proof. char_facts. Qed.

Lemma letter_not_space (c : char) : is_letter c = true -> is_space c = false.
Proof. char_facts. Qed.

Lemma blank_tab_is_space (c : char) :
  is_blank_tab c = true -> is_space c = true.
Proof. char_facts. Qed.

Lemma hspace_is_space (c : char) : is_hspace c = true -> is_space c = true.
Proof. char_facts. Qed.

Lemma blank_tab_not_lf (c : char) :
  is_blank_tab c = true -> is_char LF c = false.
Proof. char_facts. Qed.

Lemma space_not_equals (c : char) :
  is_space c = true -> is_char EQUALS c = false.
Proof. char_facts. Qed.

Lemma equals_not_space (c : char) :
  is_char EQUALS c = true -> is_space c = false.
Proof. char_facts. Qed.

Lemma dash_solid (c : char) :
  is_dash c = true -> is_space c = false /\ is_char EQUALS c = false.
Proof. split; char_facts. Qed.

Lemma dquote_solid (c : char) :
  is_dquote_curly c = true -> is_space c = false /\ is_char EQUALS c = false.
Proof. split; char_facts. Qed.

Lemma squote_solid (c : char) :
  is_squote_curly c = true -> is_space c = false /\ is_char EQUALS c = false.
Proof. split; char_facts. Qed.

Lemma letter_solid (c : char) :
  is_letter c = true -> is_space c = false /\ is_char EQUALS c = false.
Proof. split; char_facts. Qed.

Lemma hyphen_not_equals (c : char) :
  is_char HYPHEN c = true -> is_char EQUALS c = false.
Proof. char_facts. Qed.

Lemma letter_settled (c : char) : is_letter c = true -> settled c = true.
Proof. char_facts. Qed.

Lemma settled_hspace (c : char) :
  settled c = true -> is_hspace c = true -> c = SP.
Proof. char_facts. Qed.

Lemma settled_not_cr (c : char) : settled c = true -> is_char CR c = false.
Proof. char_facts. Qed.

Lemma settled_not_dash (c : char) : settled c = true -> is_dash c = false.
Proof. char_facts. Qed.

Lemma settled_not_dquote (c : char) :
  settled c = true -> is_dquote_curly c = false.
Proof. char_facts. Qed.

Lemma settled_not_squote (c : char) :
  settled c = true -> is_squote_curly c = false.
Proof. char_facts. Qed.

(** ** Text normalizer: [trim] *)

Lemma drop_while_suffix (p : char -> bool) (s : jsstring) :
  exists pre, s = pre ++ drop_while p s /\ forallb p pre = true.
Proof.
  induction s as [|c s [pre [IH Hpre]]]; simpl.
  - now exists [].
  - destruct (p c) eqn:E.
    + exists (c :: pre). simpl. rewrite E. split; [now f_equal|exact Hpre].
    + now exists [].
Qed.

Lemma drop_while_head (p : char -> bool) (s : jsstring) :
  match drop_while p s with
  | c :: _ => p c = false
  | [] => True
  end.
Proof.
  induction s as [|c s IH]; simpl; [exact I|].
  destruct (p c) eqn:E; [exact IH|exact E].
Qed.

Lemma drop_while_fixed (p : char -> bool) (s : jsstring) :
  match s with c :: _ => p c = false | [] => True end ->
  drop_while p s = s.
Proof. destruct s as [|c s]; simpl; [reflexivity|]. now intros ->. Qed.

Lemma trimEnd_prefix (s : jsstring) :
  exists post, s = trimEnd s ++ post /\ forallb is_space post = true.
Proof.
  unfold trimEnd. destruct (drop_while_suffix is_space (rev s)) as [pre [H Hpre]].
  exists (rev pre). split.
  - rewrite <- (rev_involutive s) at 1. rewrite H at 1.
    now rewrite rev_app_distr.
  - now rewrite forallb_rev.
Qed.

(** The trimmed text sits inside the text, between white space. *)
Lemma trim_inside (s : jsstring) :
  exists pre post,
    s = pre ++ trim s ++ post /\
    forallb is_space pre = true /\ forallb is_space post = true.
Proof.
  unfold trim, trimStart.
  destruct (drop_while_suffix is_space s) as [pre [H1 Hpre]].
  destruct (trimEnd_prefix (drop_while is_space s)) as [post [H2 Hpost]].
  exists pre, post. split; [|now split].
  rewrite H1 at 1. f_equal. exact H2.
Qed.

Lemma trimEnd_idem (s : jsstring) : trimEnd (trimEnd s) = trimEnd s.
Proof.
  unfold trimEnd. rewrite rev_involutive. f_equal.
  apply drop_while_fixed. apply drop_while_head.
Qed.

Lemma trimEnd_head (s : jsstring) :
  match s with c :: _ => is_space c = false | [] => True end ->
  match trimEnd s with c :: _ => is_space c = false | [] => True end.
Proof.
  intros H. destruct (trimEnd_prefix s) as [post [Hs _]].
  destruct (trimEnd s) as [|c t]; [exact I|].
  rewrite Hs in H. exact H.
Qed.

Lemma trim_idem (s : jsstring) : trim (trim s) = trim s.
Proof.
  unfold trim at 1. unfold trimStart.
  rewrite drop_while_fixed.
  - unfold trim. apply trimEnd_idem.
  - unfold trim. apply trimEnd_head. apply drop_while_head.
Qed.

(** ** Text normalizer: invariants of strings *)

Lemma sparse_app_r (a b : jsstring) : sparse (a ++ b) = true -> sparse b = true.
Proof.
  induction a as [|c a IH]; simpl; [auto|].
  intros H. apply andb_true_iff in H as [_ H]. now apply IH.
Qed.

Lemma sparse_app_l (a b : jsstring) : sparse (a ++ b) = true -> sparse a = true.
Proof.
  induction a as [|c a IH]; simpl; [auto|].
  intros H. apply andb_true_iff in H as [H1 H2].
  rewrite (IH H2), andb_true_r.
  destruct a as [|d a]; simpl in *; [|exact H1].
  now rewrite andb_false_r.
Qed.

Lemma sparse_tail (c : char) (t : jsstring) :
  sparse (c :: t) = true -> sparse t = true.
Proof. simpl. intros H. now apply andb_true_iff in H as [_ H]. Qed.

(** In a sparse string a run of white space has length at most one. *)
Lemma sparse_run (p : char -> bool) (t : jsstring) :
  (forall c, p c = true -> is_space c = true) ->
  sparse t = true -> run_length p t <= 1.
Proof.
  intros Hp H. destruct t as [|c [|d t]]; simpl in *.
  - lia.
  - destruct (p c); lia.
  - destruct (p c) eqn:Ec; [|lia]. destruct (p d) eqn:Ed; [|lia].
    rewrite (Hp c Ec), (Hp d Ed) in H. discriminate.
Qed.

(** State of [eq_ok] after reading [s]. *)
Lemma eq_ok_plain (m b : jsstring) (st : bool) :
  forallb (fun c => negb (is_char EQUALS c)) m = true ->
  eq_ok st (m ++ b) = eq_ok (if forallb is_space m then st else false) b.
Proof.
  revert st. induction m as [|c m IH]; intros st H; [reflexivity|].
  simpl in H. apply andb_true_iff in H as [Hc Hm].
  apply negb_true_iff in Hc.
  cbn [app eq_ok forallb]. rewrite Hc.
  destruct (is_space c); cbn [andb].
  - now apply IH.
  - rewrite (IH false Hm). now destruct (forallb is_space m).
Qed.

Lemma eq_ok_tail (st : bool) (c : char) (t : jsstring) :
  eq_ok st (c :: t) = true -> exists st', eq_ok st' t = true.
Proof.
  simpl. destruct (is_space c); [now exists st|].
  destruct (is_char EQUALS c).
  - intros H. apply andb_true_iff in H as [_ H]. now exists true.
  - now exists false.
Qed.

Lemma eq_ok_middle (pre y post : jsstring) :
  forallb is_space pre = true ->
  eq_ok false (pre ++ y ++ post) = true ->
  eq_ok false y = true.
Proof.
  intros Hpre H.
  rewrite eq_ok_plain in H.
  - rewrite Hpre in H. clear Hpre. revert H. generalize false.
    induction y as [|c y IH]; intros st H; [reflexivity|].
    cbn [app eq_ok] in *. destruct (is_space c); [now apply IH|].
    destruct (is_char EQUALS c).
    + apply andb_true_iff in H as [H1 H2]. rewrite H1. now apply IH.
    + now apply IH.
  - revert Hpre. apply forallb_weaken. intros c Hc.
    now rewrite space_not_equals.
Qed.

(** ** Text normalizer: what each rule rewrites *)

Lemma wrap_caps (t : jsstring) (n : nat) (caps : list jsstring) :
  match_here re_wrap t = Some (n, caps) ->
  exists a b t',
    t = a :: t' /\ caps = [[a]; [b]] /\
    is_letter a = true /\ is_letter b = true.
Proof.
  unfold re_wrap. intros H.
  apply match_ch_inv in H as (a & t1 & n1 & caps1 & -> & Ha & H & _ & ->).
  apply match_ch_inv in H as (h & t2 & n2 & caps2 & -> & Hh & H & _ & ->).
  apply match_rep_inv in H as (j & n3 & caps3 & _ & _ & H & _ & ->).
  apply match_ch_inv in H as (l & t3 & n4 & caps4 & _ & Hl & H & _ & ->).
  apply match_rep_inv in H as (j' & n5 & caps5 & _ & _ & H & _ & ->).
  apply match_ch_inv in H as (b & t4 & n6 & caps6 & _ & Hb & H & _ & ->).
  cbn [match_here] in H. injection H as _ <-.
  exists a, b, (h :: t2). auto.
Qed.

Lemma plain_wrap (t : jsstring) (n : nat) (caps : list jsstring) :
  match_here re_wrap t = Some (n, caps) ->
  forallb plain (subst [Grp 1; Grp 2] caps) = true.
Proof.
  intros H. destruct (wrap_caps _ H) as (a & b & t' & _ & -> & Ha & Hb).
  cbn. unfold plain. now rewrite Ha, Hb.
Qed.

(** A rule whose replacement texts are plain keeps every property that
    plain characters have. *)
Lemma replace_keeps (re : regex) (tpl : list tpart) (q : char -> bool)
    (s : jsstring) :
  has_mandatory re = true ->
  (forall t n caps,
     match_here re t = Some (n, caps) ->
     forallb plain (subst tpl caps) = true) ->
  (forall c, plain c = true -> q c = true) ->
  forallb q s = true -> forallb q (replace_all re tpl s) = true.
Proof.
  intros Hm Hplain Hq. apply replace_all_forallb; [exact Hm| |auto].
  intros t n caps E. apply forallb_weaken with (p := plain); [exact Hq|].
  now apply Hplain with t n.
Qed.

(** A rule that matches at every character of class [p], and whose
    replacement texts are plain, leaves no character of class [p] when
    plain characters are not of that class. *)
Lemma replace_removes (re : regex) (tpl : list tpart) (p : char -> bool)
    (s : jsstring) :
  has_mandatory re = true ->
  (forall t n caps,
     match_here re t = Some (n, caps) ->
     forallb plain (subst tpl caps) = true) ->
  (forall c, plain c = true -> p c = false) ->
  (forall c t, p c = true -> match_here re (c :: t) <> None) ->
  forallb (fun c => negb (p c)) (replace_all re tpl s) = true.
Proof.
  intros Hm Hplain Hp Hhit.
  apply replace_all_forallb with (q0 := fun _ => true); [exact Hm| | |].
  - intros t n caps E. apply forallb_weaken with (p := plain).
    + intros c Hc. now rewrite (Hp c Hc).
    + now apply Hplain with t n.
  - intros c t E _. destruct (p c) eqn:Ec; [|reflexivity].
    now destruct (Hhit c t Ec).
  - now induction s.
Qed.

Lemma not_none_single_ch (p : char -> bool) (c : char) (t : jsstring) :
  p c = true -> match_here [Ch false p] (c :: t) <> None.
Proof. intros H. cbn. now rewrite H. Qed.

Lemma not_none_single_rep (p : char -> bool) (c : char) (t : jsstring) :
  p c = true -> match_here [Rep false p 1] (c :: t) <> None.
Proof.
  intros H. rewrite match_single_rep. cbn [run_length]. rewrite H.
  discriminate.
Qed.

(** *** Characters of the cleaned text *)

Ltac plain_texts := first [exact plain_wrap | intros; reflexivity].

Ltac keep_through q_plain :=
  apply replace_keeps; [reflexivity | plain_texts | exact q_plain | ].

Lemma forallb_andb (p q : char -> bool) (s : jsstring) :
  forallb p s = true -> forallb q s = true ->
  forallb (fun c => p c && q c) s = true.
Proof.
  induction s as [|c s IH]; simpl; [reflexivity|].
  intros Hp Hq. apply andb_true_iff in Hp as [-> Hp].
  apply andb_true_iff in Hq as [-> Hq]. now rewrite IH.
Qed.

Lemma plain_not_cr (c : char) : plain c = true -> negb (is_char CR c) = true.
Proof. unfold plain. char_facts. Qed.

Lemma plain_not_dash (c : char) : plain c = true -> negb (is_dash c) = true.
Proof. unfold plain. char_facts. Qed.

Lemma plain_not_dquote (c : char) :
  plain c = true -> negb (is_dquote_curly c) = true.
Proof. unfold plain. char_facts. Qed.

Lemma plain_not_squote (c : char) :
  plain c = true -> negb (is_squote_curly c) = true.
Proof. unfold plain. char_facts. Qed.

Lemma plain_hspace (c : char) :
  plain c = true -> negb (is_hspace c) || is_char SP c = true.
Proof. unfold plain. char_facts. Qed.

Lemma clean_rules_no_cr (x : jsstring) :
  forallb (fun c => negb (is_char CR c)) (clean_rules x) = true.
Proof.
  unfold clean_rules. cbv zeta.
  do 9 keep_through plain_not_cr.
  apply replace_removes; [reflexivity | plain_texts | |].
  - intros c Hc. apply negb_true_iff. now apply plain_not_cr.
  - intros c t. apply not_none_single_ch.
Qed.

Lemma clean_rules_no_dash (x : jsstring) :
  forallb (fun c => negb (is_dash c)) (clean_rules x) = true.
Proof.
  unfold clean_rules. cbv zeta.
  do 7 keep_through plain_not_dash.
  apply replace_removes; [reflexivity | plain_texts | |].
  - intros c Hc. apply negb_true_iff. now apply plain_not_dash.
  - intros c t. apply not_none_single_rep.
Qed.

Lemma clean_rules_no_dquote (x : jsstring) :
  forallb (fun c => negb (is_dquote_curly c)) (clean_rules x) = true.
Proof.
  unfold clean_rules. cbv zeta.
  do 3 keep_through plain_not_dquote.
  apply replace_removes; [reflexivity | plain_texts | |].
  - intros c Hc. apply negb_true_iff. now apply plain_not_dquote.
  - intros c t. apply not_none_single_ch.
Qed.

Lemma clean_rules_no_squote (x : jsstring) :
  forallb (fun c => negb (is_squote_curly c)) (clean_rules x) = true.
Proof.
  unfold clean_rules. cbv zeta.
  do 2 keep_through plain_not_squote.
  apply replace_removes; [reflexivity | plain_texts | |].
  - intros c Hc. apply negb_true_iff. now apply plain_not_squote.
  - intros c t. apply not_none_single_ch.
Qed.

Lemma clean_rules_hspace (x : jsstring) :
  forallb (fun c => negb (is_hspace c) || is_char SP c) (clean_rules x) = true.
Proof.
  unfold clean_rules. cbv zeta.
  keep_through plain_hspace.
  apply replace_all_forallb with (q0 := fun _ => true); [reflexivity | | |].
  - intros; reflexivity.
  - intros c t E _. destruct (is_hspace c) eqn:Ec; [|reflexivity].
    now destruct (not_none_single_rep is_hspace c t Ec).
  - generalize (replace_all re_squote [Lit SQUOTE]
       (replace_all re_dquote [Lit DQUOTE]
          (replace_all re_newlines [Lit LF]
             (replace_all re_trail [Lit LF]
                (replace_all re_wrap [Grp 1; Grp 2]
                   (replace_all re_dashes [Lit HYPHEN]
                      (replace_all re_eq_pad [Lit SP]
                         (replace_all re_cr [Lit LF] x)))))))).
    intros l. now induction l.
Qed.

Lemma clean_rules_settled (x : jsstring) :
  forallb settled (clean_rules x) = true.
Proof.
  unfold settled.
  repeat apply forallb_andb.
  - apply clean_rules_no_cr.
  - apply clean_rules_no_dash.
  - apply clean_rules_no_dquote.
  - apply clean_rules_no_squote.
  - apply clean_rules_hspace.
Qed.

(** *** No white space in a row after the last rule *)

Lemma spaces_sparse (s : jsstring) :
  sparse (replace_all re_spaces [Lit SP] s) = true.
Proof.
  assert (H : sparse (replace_all re_spaces [Lit SP] s) = true /\
              (starts_ws (replace_all re_spaces [Lit SP] s) = true ->
               starts_ws s = true)).
  { apply (replace_ind re_spaces [Lit SP]
             (fun s out => sparse out = true /\
                           (starts_ws out = true -> starts_ws s = true))
             eq_refl).
    - split; [reflexivity|discriminate].
    - intros c t out E [IH1 IH2]. split; [|auto].
      cbn [sparse]. rewrite IH1, andb_true_r. apply negb_true_iff.
      destruct (is_space c) eqn:Ec; [|reflexivity]. cbn [andb].
      destruct (starts_ws out) eqn:Eo; [|reflexivity].
      specialize (IH2 eq_refl). destruct t as [|d t]; [discriminate|].
      cbn [starts_ws] in IH2.
      unfold re_spaces in E. rewrite match_single_rep in E.
      cbn [run_length] in E. rewrite Ec, IH2 in E. discriminate.
    - intros t n caps out E _ _ [IH1 IH2].
      unfold re_spaces in E. rewrite match_single_rep in E.
      destruct (Nat.ltb_spec (run_length is_space t) 2) as [Hlt|Hge];
        [discriminate|].
      injection E as <- <-. rewrite Nat.add_0_r in *.
      cbn [subst flat_map app]. split.
      + cbn [sparse]. rewrite IH1, andb_true_r. apply negb_true_iff.
        destruct (starts_ws out) eqn:Eo; [|apply andb_false_r].
        specialize (IH2 eq_refl).
        pose proof (run_length_stop is_space t) as Hstop.
        destruct (skipn (run_length is_space t) t) as [|d u];
          [discriminate|].
        cbn [starts_ws] in IH2. congruence.
      + intros _. destruct t as [|c t]; [simpl in Hge; lia|].
        cbn [run_length] in Hge. cbn [starts_ws].
        destruct (is_space c); [reflexivity|lia]. }
  exact (proj1 H).
Qed.

Lemma clean_rules_sparse (x : jsstring) : sparse (clean_rules x) = true.
Proof. unfold clean_rules. cbv zeta. apply spaces_sparse. Qed.

(** *** No [=] pair after the second rule *)

Lemma starts_eq_space (c : char) (s : jsstring) :
  is_space c = true -> starts_eq (c :: s) = starts_eq s.
Proof. intros H. unfold starts_eq. cbn [run_length]. now rewrite H. Qed.

Lemma starts_eq_solid (c : char) (s : jsstring) :
  is_space c = false -> starts_eq (c :: s) = is_char EQUALS c.
Proof. intros H. unfold starts_eq. cbn [run_length]. now rewrite H. Qed.

(** After a [=], the pattern [=\s*=] matches exactly when white space and
    then a [=] follow. *)
Lemma eq_pad_match (c : char) (s : jsstring) :
  is_char EQUALS c = true ->
  match_here re_eq_pad (c :: s) = None <-> starts_eq s = false.
Proof.
  intros Hc. unfold re_eq_pad.
  rewrite match_ch_hit by exact Hc. rewrite extend_none.
  rewrite rep_then_disjoint by exact space_not_equals.
  change (run_length is_space s <? 0) with false. cbv iota.
  rewrite extend_none. unfold starts_eq.
  destruct (skipn (run_length is_space s) s) as [|d u].
  - split; reflexivity.
  - destruct (is_char EQUALS d) eqn:Ed.
    + rewrite match_ch_hit by exact Ed. cbn. split; discriminate.
    + rewrite match_ch_none by exact Ed. split; reflexivity.
Qed.

Lemma eq_pad_no_pair (s : jsstring) :
  eq_ok false (replace_all re_eq_pad [Lit SP] s) = true.
Proof.
  assert (H : eq_ok false (replace_all re_eq_pad [Lit SP] s) = true /\
              (starts_eq s = false ->
               eq_ok true (replace_all re_eq_pad [Lit SP] s) = true)).
  { apply (replace_ind re_eq_pad [Lit SP]
             (fun s out => eq_ok false out = true /\
                           (starts_eq s = false -> eq_ok true out = true))
             eq_refl).
    - split; reflexivity.
    - intros c t out E [IH1 IH2]. cbn [eq_ok].
      destruct (is_space c) eqn:Ec.
      + split; [exact IH1|]. now rewrite starts_eq_space.
      + rewrite starts_eq_solid by exact Ec.
        destruct (is_char EQUALS c) eqn:Ee.
        * split; [|discriminate]. cbn [negb andb].
          apply IH2. now apply (eq_pad_match c t Ee).
        * split; auto.
    - intros t n caps out E _ _ [IH1 IH2].
      cbn [subst flat_map app eq_ok].
      change (is_space SP) with true. cbv iota.
      split; [exact IH1|].
      unfold re_eq_pad in E.
      apply match_ch_inv in E as (c & t' & n' & caps' & -> & Hc & _).
      rewrite starts_eq_solid by now apply equals_not_space.
      congruence. }
  exact (proj1 H).
Qed.

(** *** Rules that move no [=] *)

Lemma replace_all_eq_ok (re : regex) (tpl : list tpart) (s : jsstring) :
  has_mandatory re = true ->
  (forall t n caps,
     match_here re t = Some (n, caps) ->
     neutral (firstn n t) (subst tpl caps)) ->
  forall st, eq_ok st (replace_all re tpl s) = eq_ok st s.
Proof.
  intros Hm Hneutral.
  apply (replace_ind re tpl
           (fun s out => forall st, eq_ok st out = eq_ok st s) Hm).
  - reflexivity.
  - intros c t out E IH st. cbn [eq_ok]. now rewrite !IH.
  - intros t n caps out E _ _ IH st.
    destruct (Hneutral _ _ _ E) as (Hm1 & Hr1 & Hws).
    rewrite <- (firstn_skipn n t) at 1.
    rewrite !eq_ok_plain by assumption.
    rewrite Hws. apply IH.
Qed.

Lemma neutral_ws (m r : jsstring) :
  forallb is_space m = true -> forallb is_space r = true -> neutral m r.
Proof.
  intros Hm Hr. repeat split.
  - revert Hm. apply forallb_weaken. intros c Hc. unfold not_equals.
    now rewrite space_not_equals.
  - revert Hr. apply forallb_weaken. intros c Hc. unfold not_equals.
    now rewrite space_not_equals.
  - now rewrite Hm, Hr.
Qed.

Lemma neutral_solid (c d : char) (m r : jsstring) :
  is_space c = false -> is_space d = false ->
  forallb not_equals (c :: m) = true -> forallb not_equals (d :: r) = true ->
  neutral (c :: m) (d :: r).
Proof.
  intros Hc Hd Hm Hr. repeat split; try assumption.
  cbn [forallb]. now rewrite Hc, Hd.
Qed.

(** The matched text of a rule whose classes are white space. *)
Lemma match_all_ws (re : regex) (t : jsstring) (n : nat)
    (caps : list jsstring) :
  (forall c, in_classes re c = true -> is_space c = true) ->
  match_here re t = Some (n, caps) ->
  forallb is_space (firstn n t) = true.
Proof.
  intros Hcls E. destruct (match_here_sound _ _ E) as [_ H].
  revert H. now apply forallb_weaken.
Qed.

(** The matched text of a rule whose classes hold no white space and no
    [=]. *)
Lemma match_all_solid (re : regex) (t : jsstring) (n : nat)
    (caps : list jsstring) (r : jsstring) (d : char) :
  has_mandatory re = true ->
  (forall c, in_classes re c = true ->
             is_space c = false /\ is_char EQUALS c = false) ->
  is_space d = false -> forallb not_equals (d :: r) = true ->
  match_here re t = Some (n, caps) ->
  neutral (firstn n t) (d :: r).
Proof.
  intros Hm Hcls Hd Hr E.
  destruct (match_here_sound _ _ E) as [Hle H].
  pose proof (match_here_nonempty _ _ Hm E) as Hpos.
  destruct t as [|c t]; [simpl in Hle; lia|].
  destruct n as [|n]; [lia|]. cbn [firstn] in *.
  apply neutral_solid; try assumption.
  - cbn [forallb] in H. apply andb_true_iff in H as [H _].
    now apply Hcls.
  - revert H. apply forallb_weaken. intros e He. unfold not_equals.
    now rewrite (proj2 (Hcls e He)).
Qed.

Ltac class_facts :=
  let c := fresh "c" in
  intros c; unfold in_classes; cbn [existsb];
  rewrite ?orb_false_r; char_facts.

Lemma neutral_dashes (t : jsstring) (n : nat) (caps : list jsstring) :
  match_here re_dashes t = Some (n, caps) ->
  neutral (firstn n t) (subst [Lit HYPHEN] caps).
Proof.
  apply match_all_solid; try reflexivity.
  unfold re_dashes. intros c. unfold in_classes. cbn [existsb].
  rewrite orb_false_r. apply dash_solid.
Qed.

Lemma neutral_dquote (t : jsstring) (n : nat) (caps : list jsstring) :
  match_here re_dquote t = Some (n, caps) ->
  neutral (firstn n t) (subst [Lit DQUOTE] caps).
Proof.
  apply match_all_solid; try reflexivity.
  unfold re_dquote. intros c. unfold in_classes. cbn [existsb].
  rewrite orb_false_r. apply dquote_solid.
Qed.

Lemma neutral_squote (t : jsstring) (n : nat) (caps : list jsstring) :
  match_here re_squote t = Some (n, caps) ->
  neutral (firstn n t) (subst [Lit SQUOTE] caps).
Proof.
  apply match_all_solid; try reflexivity.
  unfold re_squote. intros c. unfold in_classes. cbn [existsb].
  rewrite orb_false_r. apply squote_solid.
Qed.

Lemma neutral_trail (t : jsstring) (n : nat) (caps : list jsstring) :
  match_here re_trail t = Some (n, caps) ->
  neutral (firstn n t) (subst [Lit LF] caps).
Proof.
  intros E. apply neutral_ws; [|reflexivity].
  apply match_all_ws with (re := re_trail) (caps := caps); [|exact E].
  unfold re_trail. class_facts.
Qed.

Lemma neutral_newlines (t : jsstring) (n : nat) (caps : list jsstring) :
  match_here re_newlines t = Some (n, caps) ->
  neutral (firstn n t) (subst [Lit LF] caps).
Proof.
  intros E. apply neutral_ws; [|reflexivity].
  apply match_all_ws with (re := re_newlines) (caps := caps); [|exact E].
  unfold re_newlines. class_facts.
Qed.

Lemma neutral_hspace (t : jsstring) (n : nat) (caps : list jsstring) :
  match_here re_hspace t = Some (n, caps) ->
  neutral (firstn n t) (subst [Lit SP] caps).
Proof.
  intros E. apply neutral_ws; [|reflexivity].
  apply match_all_ws with (re := re_hspace) (caps := caps); [|exact E].
  unfold re_hspace. class_facts.
Qed.

Lemma neutral_spaces (t : jsstring) (n : nat) (caps : list jsstring) :
  match_here re_spaces t = Some (n, caps) ->
  neutral (firstn n t) (subst [Lit SP] caps).
Proof.
  intros E. apply neutral_ws; [|reflexivity].
  apply match_all_ws with (re := re_spaces) (caps := caps); [|exact E].
  unfold re_spaces. class_facts.
Qed.

Lemma neutral_wrap (t : jsstring) (n : nat) (caps : list jsstring) :
  match_here re_wrap t = Some (n, caps) ->
  neutral (firstn n t) (subst [Grp 1; Grp 2] caps).
Proof.
  intros E.
  destruct (wrap_caps _ E) as (a & b & t' & -> & -> & Ha & Hb).
  destruct (match_here_sound _ _ E) as [_ Hcls].
  pose proof (match_here_nonempty re_wrap (a :: t') eq_refl E) as Hpos.
  destruct n as [|n]; [lia|]. cbn [firstn] in *.
  change (subst [Grp 1; Grp 2] [[a]; [b]]) with [a; b].
  apply neutral_solid.
  - now apply letter_solid.
  - now apply letter_solid.
  - revert Hcls. apply forallb_weaken. unfold re_wrap. class_facts.
  - cbn [forallb]. unfold not_equals.
    rewrite (proj2 (letter_solid a Ha)), (proj2 (letter_solid b Hb)).
    reflexivity.
Qed.

Lemma clean_rules_eq_ok (x : jsstring) : eq_ok false (clean_rules x) = true.
Proof.
  unfold clean_rules. cbv zeta.
  rewrite (replace_all_eq_ok re_spaces [Lit SP] _ eq_refl neutral_spaces).
  rewrite (replace_all_eq_ok re_hspace [Lit SP] _ eq_refl neutral_hspace).
  rewrite (replace_all_eq_ok re_squote [Lit SQUOTE] _ eq_refl neutral_squote).
  rewrite (replace_all_eq_ok re_dquote [Lit DQUOTE] _ eq_refl neutral_dquote).
  rewrite (replace_all_eq_ok re_newlines [Lit LF] _ eq_refl neutral_newlines).
  rewrite (replace_all_eq_ok re_trail [Lit LF] _ eq_refl neutral_trail).
  rewrite (replace_all_eq_ok re_wrap [Grp 1; Grp 2] _ eq_refl neutral_wrap).
  rewrite (replace_all_eq_ok re_dashes [Lit HYPHEN] _ eq_refl neutral_dashes).
  apply eq_pad_no_pair.
Qed.

(** ** Text normalizer: rules that find nothing in a cleaned text *)

Lemma forallb_tail (q : char -> bool) (c : char) (t : jsstring) :
  forallb q (c :: t) = true -> forallb q t = true.
Proof. simpl. intros H. now apply andb_true_iff in H as [_ H]. Qed.

Lemma single_ch_fixed (p q : char -> bool) (d : char) (s : jsstring) :
  (forall c, q c = true -> p c = false) ->
  forallb q s = true -> replace_all [Ch false p] [Lit d] s = s.
Proof.
  intros Hq H. rewrite replace_all_map.
  induction s as [|c s IH]; [reflexivity|].
  simpl in H. apply andb_true_iff in H as [Hc Hs].
  simpl. now rewrite (Hq c Hc), IH.
Qed.

Lemma run_length_zero (p : char -> bool) (q : char -> bool) (t : jsstring) :
  (forall c, q c = true -> p c = false) ->
  forallb q t = true -> run_length p t = 0.
Proof.
  intros Hq H. destruct t as [|c t]; [reflexivity|].
  simpl in H. apply andb_true_iff in H as [Hc _].
  cbn [run_length]. now rewrite (Hq c Hc).
Qed.

Lemma dashes_fixed (s : jsstring) :
  forallb settled s = true -> replace_all re_dashes [Lit HYPHEN] s = s.
Proof.
  apply (replace_all_id re_dashes [Lit HYPHEN]
           (fun t => forallb settled t = true) eq_refl).
  - intros c t. apply forallb_tail.
  - intros t H. unfold re_dashes. rewrite match_single_rep.
    now rewrite (run_length_zero is_dash settled t settled_not_dash H).
Qed.

Lemma skip_run_sparse (p : char -> bool) (t : jsstring) (j : nat) (l : char)
    (u : jsstring) :
  (forall c, p c = true -> is_space c = true) ->
  sparse t = true -> j <= run_length p t ->
  skipn j t = l :: u -> is_space l = true -> j = 0.
Proof.
  intros Hp Hs Hj Hskip Hl. destruct j as [|j]; [reflexivity|]. exfalso.
  destruct t as [|w t]; [discriminate|].
  cbn [run_length] in Hj. destruct (p w) eqn:Ew; [|lia].
  assert (Hrun : run_length p t <= 1)
    by (apply sparse_run; [exact Hp|now apply sparse_tail with w]).
  cbn [sparse] in Hs. rewrite (Hp w Ew) in Hs. cbn [andb] in Hs.
  apply andb_true_iff in Hs as [Hs _]. apply negb_true_iff in Hs.
  cbn [skipn] in Hskip.
  destruct t as [|d t]; [now destruct j|].
  cbn [starts_ws] in Hs. cbn [run_length] in Hj.
  destruct (p d) eqn:Ed.
  - rewrite (Hp d Ed) in Hs. discriminate.
  - assert (j = 0) by lia. subst j. cbn [skipn] in Hskip.
    injection Hskip as -> _. congruence.
Qed.

Lemma run_after_space (l : char) (t : jsstring) :
  sparse (l :: t) = true -> is_space l = true -> run_length is_space t = 0.
Proof.
  intros Hs Hl. cbn [sparse] in Hs. rewrite Hl in Hs. cbn [andb] in Hs.
  apply andb_true_iff in Hs as [Hs _]. apply negb_true_iff in Hs.
  destruct t as [|d t]; [reflexivity|].
  cbn [starts_ws] in Hs. cbn [run_length]. now rewrite Hs.
Qed.

Lemma trail_fixed (s : jsstring) :
  sparse s = true -> replace_all re_trail [Lit LF] s = s.
Proof.
  apply (replace_all_id re_trail [Lit LF] (fun t => sparse t = true) eq_refl).
  - intros c t. apply sparse_tail.
  - intros t H. unfold re_trail.
    rewrite rep_then_disjoint by exact blank_tab_not_lf.
    destruct (Nat.ltb_spec (run_length is_blank_tab t) 1) as [Hlt|Hge];
      [exact I|].
    destruct (skipn (run_length is_blank_tab t) t) as [|l u] eqn:Eskip;
      [exact I|].
    destruct (is_char LF l) eqn:El.
    + pose proof (skip_run_sparse is_blank_tab t blank_tab_is_space H
                    (le_n _) Eskip (lf_is_space l El)).
      lia.
    + now rewrite match_ch_none by exact El.
Qed.

Lemma newlines_fixed (s : jsstring) :
  sparse s = true -> replace_all re_newlines [Lit LF] s = s.
Proof.
  apply (replace_all_id re_newlines [Lit LF] (fun t => sparse t = true)
           eq_refl).
  - intros c t. apply sparse_tail.
  - intros t H. unfold re_newlines. rewrite match_single_rep.
    pose proof (sparse_run (is_char LF) t lf_is_space H).
    destruct (Nat.ltb_spec (run_length (is_char LF) t) 2); [exact I|lia].
Qed.

Lemma spaces_fixed (s : jsstring) :
  sparse s = true -> replace_all re_spaces [Lit SP] s = s.
Proof.
  apply (replace_all_id re_spaces [Lit SP] (fun t => sparse t = true)
           eq_refl).
  - intros c t. apply sparse_tail.
  - intros t H. unfold re_spaces. rewrite match_single_rep.
    pose proof (sparse_run is_space t (fun c Hc => Hc) H).
    destruct (Nat.ltb_spec (run_length is_space t) 2); [exact I|lia].
Qed.

Lemma hspace_fixed (s : jsstring) :
  sparse s = true -> forallb settled s = true ->
  replace_all re_hspace [Lit SP] s = s.
Proof.
  intros Hs Hq.
  apply (replace_all_id re_hspace [Lit SP]
           (fun t => sparse t = true /\ forallb settled t = true) eq_refl);
    [| |now split].
  - intros c t [H1 H2]. split; [now apply sparse_tail with c|].
    now apply forallb_tail with c.
  - intros t [H1 H2]. unfold re_hspace. rewrite match_single_rep.
    pose proof (sparse_run is_hspace t hspace_is_space H1) as Hrun.
    destruct (Nat.ltb_spec (run_length is_hspace t) 1) as [Hlt|Hge];
      [exact I|].
    assert (Hone : run_length is_hspace t = 1) by lia. rewrite Hone.
    destruct t as [|c t]; [discriminate|].
    cbn [run_length] in Hone. destruct (is_hspace c) eqn:Ec; [|discriminate].
    cbn [forallb] in H2. apply andb_true_iff in H2 as [Hc _].
    rewrite (settled_hspace c Hc Ec). reflexivity.
Qed.

Lemma eq_ok_true_starts (t : jsstring) :
  eq_ok true t = true -> starts_eq t = false.
Proof.
  induction t as [|c t IH]; [reflexivity|].
  cbn [eq_ok]. destruct (is_space c) eqn:Ec.
  - rewrite starts_eq_space by exact Ec. exact IH.
  - rewrite starts_eq_solid by exact Ec.
    destruct (is_char EQUALS c); [discriminate|reflexivity].
Qed.

Lemma eq_pad_fixed (s : jsstring) :
  eq_ok false s = true -> replace_all re_eq_pad [Lit SP] s = s.
Proof.
  intros H.
  apply (replace_all_id re_eq_pad [Lit SP]
           (fun t => exists st, eq_ok st t = true) eq_refl);
    [| |now exists false].
  - intros c t [st Hst]. now apply eq_ok_tail with st c.
  - intros t [st Hst]. destruct t as [|c t].
    + now rewrite (match_here_nil re_eq_pad eq_refl).
    + destruct (is_char EQUALS c) eqn:Ec.
      * assert (Hnone : match_here re_eq_pad (c :: t) = None).
        { apply (eq_pad_match c t Ec). apply eq_ok_true_starts.
          cbn [eq_ok] in Hst.
          rewrite (equals_not_space c Ec), Ec in Hst.
          now apply andb_true_iff in Hst as [_ Hst]. }
        now rewrite Hnone.
      * unfold re_eq_pad. now rewrite match_ch_none by exact Ec.
Qed.

Lemma has_wrap_tail (c : char) (t : jsstring) :
  has_wrap (c :: t) = false -> has_wrap t = false.
Proof. cbn [has_wrap]. intros H. now apply orb_false_iff in H as [_ H]. Qed.

Lemma wrap_fixed (s : jsstring) :
  sparse s = true -> has_wrap s = false ->
  replace_all re_wrap [Grp 1; Grp 2] s = s.
Proof.
  intros Hs Hw.
  apply (replace_all_id re_wrap [Grp 1; Grp 2]
           (fun t => sparse t = true /\ has_wrap t = false) eq_refl);
    [| |now split].
  - intros c t [H1 H2]. split; [now apply sparse_tail with c|].
    now apply has_wrap_tail with c.
  - intros t [H1 H2].
    destruct (match_here re_wrap t) as [[n caps]|] eqn:E; [|exact I].
    exfalso. unfold re_wrap in E.
    apply match_ch_inv in E as (a & t1 & n1 & caps1 & -> & Ha & E & _ & _).
    apply match_ch_inv in E as (h & t2 & n2 & caps2 & -> & Hh & E & _ & _).
    apply match_rep_inv in E as (j & n3 & caps3 & Hj & _ & E & _ & _).
    apply match_ch_inv in E as (l & t3 & n4 & caps4 & Hskip & Hl & E & _ & _).
    apply match_rep_inv in E as (j' & n5 & caps5 & Hj' & _ & E & _ & _).
    apply match_ch_inv in E as (b & t4 & n6 & caps6 & Hskip' & Hb & _).
    assert (Hs2 : sparse t2 = true)
      by (apply sparse_tail with h; now apply sparse_tail with a).
    assert (j = 0)
      by (apply (skip_run_sparse is_space t2 (fun c Hc => Hc) Hs2 Hj Hskip);
          now apply lf_is_space).
    subst j. cbn [skipn] in Hskip. subst t2.
    rewrite (run_after_space l t3 Hs2 (lf_is_space l Hl)) in Hj'.
    assert (j' = 0) by lia. subst j'. cbn [skipn] in Hskip'. subst t3.
    cbn [has_wrap wrap_at] in H2. rewrite Ha, Hh, Hl, Hb in H2.
    discriminate.
Qed.

(** A string with the invariants of a cleaned text, and without a
    hyphenated line wrap, is left as it is by the nine rules. *)
Lemma clean_rules_fixed (y : jsstring) :
  forallb settled y = true -> sparse y = true -> eq_ok false y = true ->
  has_wrap y = false -> clean_rules y = y.
Proof.
  intros Hq Hs He Hw. unfold clean_rules. cbv zeta.
  unfold re_cr.
  rewrite (single_ch_fixed (is_char CR) settled LF y settled_not_cr Hq).
  rewrite (eq_pad_fixed y He), (dashes_fixed y Hq), (wrap_fixed y Hs Hw).
  rewrite (trail_fixed y Hs), (newlines_fixed y Hs).
  unfold re_dquote, re_squote.
  rewrite (single_ch_fixed is_dquote_curly settled DQUOTE y
             settled_not_dquote Hq).
  rewrite (single_ch_fixed is_squote_curly settled SQUOTE y
             settled_not_squote Hq).
  rewrite (hspace_fixed y Hs Hq). apply (spaces_fixed y Hs).
Qed.

(** The invariants of a cleaned text. *)
Lemma cleanText_invariants (x : jsstring) :
  forallb settled (cleanText x) = true /\ sparse (cleanText x) = true /\
  eq_ok false (cleanText x) = true /\ trim (cleanText x) = cleanText x.
Proof.
  unfold cleanText. destruct x as [|c x]; [repeat split|].
  destruct (trim_inside (clean_rules (c :: x)))
    as (pre & post & Hz & Hpre & Hpost).
  pose proof (clean_rules_settled (c :: x)) as Hq.
  pose proof (clean_rules_sparse (c :: x)) as Hs.
  pose proof (clean_rules_eq_ok (c :: x)) as He.
  rewrite Hz in Hq, Hs, He.
  repeat split.
  - rewrite !forallb_app in Hq.
    apply andb_true_iff in Hq as [_ Hq]. now apply andb_true_iff in Hq as [Hq _].
  - apply sparse_app_r in Hs. now apply sparse_app_l in Hs.
  - now apply eq_ok_middle with pre post.
  - apply trim_idem.
Qed.

(** X19. The hyphenated line wrap is the only way a second cleaning can
    change a cleaned text: whenever the cleaned text holds no letter,
    hyphen, newline, letter in a row, cleaning it again changes
    nothing. *)
Theorem cleanText_idempotent_without_wrap (x : jsstring) :
  has_wrap (cleanText x) = false ->
  cleanText (cleanText x) = cleanText x.
Proof.
  intros Hw.
  destruct (cleanText_invariants x) as (Hq & Hs & He & Ht).
  unfold cleanText at 1.
  destruct (cleanText x) as [|c y] eqn:E; [reflexivity|].
  now rewrite (clean_rules_fixed (c :: y) Hq Hs He Hw).
Qed.

Lemma cleanText_idempotent_without_wrap_witness :
  cleanText (cleanText (str "A  spark-" ++ [LF] ++ str "plug == gap"))
  = cleanText (str "A  spark-" ++ [LF] ++ str "plug == gap").
Proof.
  apply cleanText_idempotent_without_wrap. vm_compute. reflexivity.
Defined.

(** C2 on the code. On [double_wrap], two hyphenated line wraps that share
    the letter [b], the first cleaning rejoins the first wrap only: the
    match of the wrap rule takes the shared letter with it, so the rule
    does not see the second wrap, and the cleaned text still holds a
    letter, a hyphen, a newline and a letter in a row, which the rule is
    there to rejoin.  The second cleaning rejoins it: the cleaned text is
    not a fixed point of the normalizer. *)
Theorem cleanText_not_idempotent :
  cleanText double_wrap = str "ab-" ++ [LF] ++ str "c" /\
  has_wrap (cleanText double_wrap) = true /\
  replace_all re_wrap [Grp 1; Grp 2] double_wrap = str "ab-" ++ [LF] ++ str "c" /\
  cleanText (cleanText double_wrap) = str "abc" /\
  cleanText (cleanText double_wrap) <> cleanText double_wrap.
Proof.
  repeat split; try (vm_compute; reflexivity).
  vm_compute. discriminate.
Qed.

(* ===================================================================== *)
(** * Part III: further properties of the code                             *)
(* ===================================================================== *)

(** ** Chunker: what the chunks are *)

Lemma lastIndexOf_le_from (c : char) (s : jsstring) (from : Z) :
  (lastIndexOf c s from <= Z.max from 0)%Z.
Proof.
  unfold lastIndexOf.
  pose proof (last_index_bounds c (firstn (S (Z.to_nat (Z.max from 0))) s)) as H.
  unfold len in H. rewrite length_firstn in H. lia.
Qed.

Lemma slice_inside (s : jsstring) (i e : Z) :
  (0 <= i <= e)%Z -> (e <= len s)%Z ->
  slice s i e = firstn (Z.to_nat (e - i)) (skipn (Z.to_nat i) s).
Proof.
  intros Hi He. unfold slice.
  destruct (Z.ltb_spec i 0); [lia|]. destruct (Z.ltb_spec e 0); [lia|].
  now rewrite (Z.min_l i (len s)), (Z.min_l e (len s)) by lia.
Qed.

(** One iteration, seen from the text: the chunk is the trimmed text
    between the cursor and an end that lies after the cursor, inside the
    text and at most [size + 1] further. *)
Lemma chunk_step_shape (s : jsstring) (size overlap i : Z) :
  (0 < size)%Z -> (0 <= i < len s)%Z ->
  exists e,
    (i < e <= len s)%Z /\ (e <= i + size + 1)%Z /\
    fst (chunk_step s size overlap i)
    = trim (firstn (Z.to_nat (e - i)) (skipn (Z.to_nat i) s)) /\
    snd (chunk_step s size overlap i) = Z.max (e - overlap) e.
Proof.
  intros Hsize Hi. unfold chunk_step. cbv zeta. cbn [fst snd].
  pose proof (lastIndexOf_bounds DOT s (Z.min (i + size) (len s))) as Hb.
  pose proof (lastIndexOf_le_from DOT s (Z.min (i + size) (len s))) as Hf.
  destruct (2 * i + size <? 2 * lastIndexOf DOT s (Z.min (i + size) (len s)))%Z
    eqn:E.
  - apply Z.ltb_lt in E.
    exists (lastIndexOf DOT s (Z.min (i + size) (len s)) + 1)%Z.
    repeat split; try lia. now rewrite slice_inside by lia.
  - exists (Z.min (i + size) (len s)).
    repeat split; try lia. now rewrite slice_inside by lia.
Qed.

Lemma chunk_loop_empty_fuel (s : jsstring) (size overlap i : Z)
    (out : list jsstring) :
  (i < len s)%Z -> chunk_loop 0 s size overlap i out = None.
Proof. intros H. apply Z.ltb_lt in H. simpl. now rewrite H. Qed.

(** A property of the cursor and the chunks pushed so far that every
    iteration keeps holds when the loop is left. *)
Lemma chunk_loop_invariant (Inv : Z -> list jsstring -> Prop) (s : jsstring)
    (size overlap : Z) :
  (0 < size)%Z ->
  (forall i out,
     (0 <= i < len s)%Z -> Inv i out ->
     Inv (snd (chunk_step s size overlap i))
         (out ++ [fst (chunk_step s size overlap i)])) ->
  forall fuel i out r,
    (0 <= i)%Z -> Inv i out ->
    chunk_loop fuel s size overlap i out = Some r ->
    exists i', (len s <= i')%Z /\ Inv i' r.
Proof.
  intros Hsize Hstep. induction fuel as [|fuel IH]; intros i out r Hi Hinv H.
  - destruct (Z_lt_le_dec i (len s)) as [E|E].
    + now rewrite chunk_loop_empty_fuel in H.
    + rewrite chunk_loop_done in H by exact E. injection H as <-.
      now exists i.
  - destruct (Z_lt_le_dec i (len s)) as [E|E].
    + rewrite chunk_loop_next in H by exact E.
      pose proof (@chunk_step_advances s size overlap i Hsize (conj Hi E)).
      apply IH with (i := snd (chunk_step s size overlap i))
                    (out := out ++ [fst (chunk_step s size overlap i)]);
        [lia|now apply Hstep|exact H].
    + rewrite chunk_loop_done in H by exact E. injection H as <-.
      now exists i.
Qed.

Lemma part_of_trim (x s : jsstring) : part_of x s -> part_of (trim x) s.
Proof.
  intros (a & b & ->).
  destruct (trim_inside x) as (pre & post & Hx & _ & _).
  exists (a ++ pre), (post ++ b). rewrite Hx at 1.
  now rewrite <- !app_assoc.
Qed.

Lemma part_of_window (s : jsstring) (n k : nat) :
  part_of (firstn n (skipn k s)) s.
Proof.
  exists (firstn k s), (skipn n (skipn k s)).
  now rewrite firstn_skipn, firstn_skipn.
Qed.

Lemma trim_length (x : jsstring) : List.length (trim x) <= List.length x.
Proof.
  destruct (trim_inside x) as (pre & post & Hx & _ & _).
  rewrite Hx at 2. rewrite !length_app. lia.
Qed.

Lemma filter_truthy_In (c : jsstring) (l : list jsstring) :
  In c (filter truthy l) <-> In c l /\ c <> [].
Proof.
  rewrite filter_In. split; intros [H1 H2]; split; auto.
  - intros ->. discriminate.
  - now destruct c.
Qed.

Lemma chunkText_chunks (s : jsstring) (size overlap : Z)
    (out : list jsstring) :
  (0 < size)%Z ->
  chunkText s size overlap = Some out ->
  Forall (fun c => c <> [] /\ trim c = c /\ part_of c s /\
                   (len c <= size + 1)%Z) out.
Proof.
  intros Hsize H. unfold chunkText in H.
  destruct (chunk_loop (List.length s) s size overlap 0 []) as [r|] eqn:E;
    [|discriminate].
  injection H as <-.
  destruct (chunk_loop_invariant
              (fun _ out => Forall (fun c => trim c = c /\ part_of c s /\
                                             (len c <= size + 1)%Z) out)
              s overlap Hsize) with (fuel := List.length s) (i := 0%Z)
              (out := @nil jsstring) (r := r) as [i' [_ Hall]];
    try assumption; try lia; [|constructor|].
  - intros i acc Hi Hacc. apply Forall_app. split; [exact Hacc|].
    constructor; [|constructor].
    destruct (chunk_step_shape s overlap Hsize Hi) as (e & He & Hse & -> & _).
    repeat split.
    + apply trim_idem.
    + apply part_of_trim, part_of_window.
    + pose proof (trim_length (firstn (Z.to_nat (e - i))
                                 (skipn (Z.to_nat i) s))) as Hl.
      rewrite length_firstn in Hl. unfold len. lia.
  - apply Forall_forall. intros c Hc. apply filter_truthy_In in Hc as [Hc Hne].
    rewrite Forall_forall in Hall. destruct (Hall c Hc) as (H1 & H2 & H3).
    auto.
Qed.

(** X1. For a positive size [chunkText] returns, and every chunk it
    returns is not empty, has no white space at either end, is a
    contiguous part of the page and has at most [size + 1] characters. *)
Theorem chunks_are_trimmed_parts (s : jsstring) (size overlap : Z) :
  (0 < size)%Z ->
  exists out,
    chunkText s size overlap = Some out /\
    Forall (fun c => c <> [] /\ trim c = c /\ part_of c s /\
                     (len c <= size + 1)%Z) out.
Proof.
  intros Hsize.
  destruct (@chunk_loop_fuel_enough s size overlap Hsize (List.length s)
              0%Z []) as [r [Hr _]]; [lia|unfold len; lia|].
  assert (Hchunk : chunkText s size overlap = Some (filter truthy r))
    by (unfold chunkText; now rewrite Hr).
  exists (filter truthy r). split; [exact Hchunk|].
  now apply chunkText_chunks with overlap.
Qed.

Lemma chunks_are_trimmed_parts_witness :
  exists out,
    chunkText sample_page CHUNK_CHARS CHUNK_OVERLAP = Some out /\
    Forall (fun c => c <> [] /\ trim c = c /\ part_of c sample_page /\
                     (len c <= CHUNK_CHARS + 1)%Z) out.
Proof.
  apply (@chunks_are_trimmed_parts sample_page CHUNK_CHARS CHUNK_OVERLAP).
  reflexivity.
Defined.

(** ** Chunker: nothing but white space is lost *)

Lemma filter_solid_blank (b : jsstring) :
  forallb is_space b = true -> filter solid b = [].
Proof.
  induction b as [|c b IH]; simpl; [reflexivity|].
  intros H. apply andb_true_iff in H as [Hc Hb].
  unfold solid at 1. rewrite Hc. simpl. now apply IH.
Qed.

Lemma filter_solid_trim (x : jsstring) :
  filter solid (trim x) = filter solid x.
Proof.
  destruct (trim_inside x) as (pre & post & Hx & Hpre & Hpost).
  rewrite Hx at 2. rewrite !filter_app.
  rewrite (filter_solid_blank _ Hpre), (filter_solid_blank _ Hpost).
  now rewrite app_nil_r.
Qed.

Lemma concat_filter_truthy (l : list jsstring) :
  List.concat (filter truthy l) = List.concat l.
Proof.
  induction l as [|c l IH]; [reflexivity|].
  destruct c as [|d c]; simpl; now rewrite IH.
Qed.

(** A trimmed text that is not empty starts with a character that is not
    white space. *)
Lemma trimmed_head (c : jsstring) :
  trim c = c -> c <> [] -> exists d c', c = d :: c' /\ is_space d = false.
Proof.
  intros Ht Hne.
  assert (H : match trim c with d :: _ => is_space d = false | [] => True end)
    by (unfold trim; apply trimEnd_head, drop_while_head).
  rewrite Ht in H. destruct c as [|d c']; [contradiction|].
  now exists d, c'.
Qed.

Lemma chunk_loop_cover (s : jsstring) (size overlap : Z) (fuel : nat)
    (r : list jsstring) :
  (0 < size)%Z -> (0 <= overlap)%Z ->
  chunk_loop fuel s size overlap 0 [] = Some r ->
  filter solid (List.concat r) = filter solid s.
Proof.
  intros Hsize Hov H.
  destruct (chunk_loop_invariant
              (fun i out =>
                 (0 <= i <= len s)%Z /\
                 filter solid (List.concat out)
                 = filter solid (firstn (Z.to_nat i) s))
              s overlap Hsize) with (fuel := fuel) (i := 0%Z)
              (out := @nil jsstring) (r := r) as [i' [Hi' [Hle Hall]]];
    try assumption; try lia.
  - intros i out Hi [_ Hout].
    destruct (chunk_step_shape s overlap Hsize Hi) as (e & He & _ & -> & ->).
    rewrite (Z.max_r (e - overlap) e) by lia. split; [lia|].
    rewrite concat_app, filter_app, Hout. cbn [List.concat].
    rewrite app_nil_r, filter_solid_trim, <- filter_app.
    replace (Z.to_nat e) with (Z.to_nat i + Z.to_nat (e - i)) by lia.
    now rewrite firstn_plus.
  - split; [unfold len; lia|reflexivity].
  - rewrite Hall. f_equal. apply firstn_all2. unfold len in *. lia.
Qed.

(** X2. For a positive size and an overlap that is not negative,
    [chunkText] returns, and the chunks put end to end hold exactly the
    characters of the page that are not white space, in order: nothing is
    lost, nothing is repeated.  A page of white space only gives no
    chunk. *)
Theorem chunks_cover_the_page (s : jsstring) (size overlap : Z) :
  (0 < size)%Z -> (0 <= overlap)%Z ->
  exists out,
    chunkText s size overlap = Some out /\
    filter solid (List.concat out) = filter solid s /\
    (forallb is_space s = true -> out = []).
Proof.
  intros Hsize Hov.
  destruct (@chunk_loop_fuel_enough s size overlap Hsize (List.length s)
              0%Z []) as [r [Hr _]]; [lia|unfold len; lia|].
  assert (Hchunk : chunkText s size overlap = Some (filter truthy r))
    by (unfold chunkText; now rewrite Hr).
  exists (filter truthy r). split; [exact Hchunk|].
  assert (Hcover : filter solid (List.concat (filter truthy r))
                   = filter solid s).
  { rewrite concat_filter_truthy.
    now apply chunk_loop_cover with size overlap (List.length s). }
  split; [exact Hcover|].
  intros Hblank. rewrite (filter_solid_blank _ Hblank) in Hcover.
  pose proof (chunkText_chunks s overlap Hsize Hchunk) as Hall.
  destruct (filter truthy r) as [|c out]; [reflexivity|]. exfalso.
  apply Forall_inv in Hall. destruct Hall as (Hne & Ht & _).
  destruct (trimmed_head Ht Hne) as (d & c' & -> & Hd).
  cbn [List.concat app filter] in Hcover. unfold solid at 1 in Hcover.
  rewrite Hd in Hcover. discriminate.
Qed.

Lemma chunks_cover_the_page_witness :
  exists out,
    chunkText long_page CHUNK_CHARS CHUNK_OVERLAP = Some out /\
    filter solid (List.concat out) = filter solid long_page /\
    (forallb is_space long_page = true -> out = []).
Proof.
  apply (@chunks_cover_the_page long_page CHUNK_CHARS CHUNK_OVERLAP);
    [reflexivity|discriminate].
Defined.

(** ** Text normalizer: the shape of a cleaned text *)

Lemma trim_ends (s : jsstring) :
  starts_ws (trim s) = false /\ starts_ws (rev (trim s)) = false.
Proof.
  split.
  - assert (H : match trim s with d :: _ => is_space d = false | [] => True end)
      by (unfold trim; apply trimEnd_head, drop_while_head).
    destruct (trim s); [reflexivity|exact H].
  - unfold trim, trimEnd. rewrite rev_involutive.
    pose proof (drop_while_head is_space (rev (trimStart s))) as H.
    destruct (drop_while is_space (rev (trimStart s))); [reflexivity|exact H].
Qed.

(** X3. A cleaned text holds no carriage return, no en or em dash, no
    curly quote and no white space other than the space and the newline;
    it has no two white-space characters in a row, none at its start and
    none at its end; and no two [=] stand next to each other or with only
    white space between them. *)
Theorem cleanText_normal_form (x : jsstring) :
  forallb settled (cleanText x) = true /\
  sparse (cleanText x) = true /\
  starts_ws (cleanText x) = false /\
  starts_ws (rev (cleanText x)) = false /\
  eq_ok false (cleanText x) = true.
Proof.
  destruct (cleanText_invariants x) as (Hq & Hs & He & Ht).
  destruct (trim_ends (cleanText x)) as [H1 H2]. rewrite Ht in H1, H2.
  auto.
Qed.

(** ** Text normalizer: length and blank texts *)

Lemma replace_all_shorter (re : regex) (tpl : list tpart) (s : jsstring) :
  has_mandatory re = true ->
  (forall t n caps,
     match_here re t = Some (n, caps) ->
     List.length (subst tpl caps) <= n) ->
  List.length (replace_all re tpl s) <= List.length s.
Proof.
  intros Hm Hshort.
  apply (replace_ind re tpl
           (fun s out => List.length out <= List.length s) Hm).
  - lia.
  - intros c t out _ IH. simpl. lia.
  - intros t n caps out E _ Hle IH.
    specialize (Hshort _ _ _ E). rewrite length_app.
    rewrite length_skipn in IH. lia.
Qed.

Lemma literal_shorter (re : regex) (d : char) (t : jsstring) (n : nat)
    (caps : list jsstring) :
  has_mandatory re = true ->
  match_here re t = Some (n, caps) -> List.length (subst [Lit d] caps) <= n.
Proof.
  intros Hm E. pose proof (match_here_nonempty re t Hm E). simpl. lia.
Qed.

Lemma wrap_shorter (t : jsstring) (n : nat) (caps : list jsstring) :
  match_here re_wrap t = Some (n, caps) ->
  List.length (subst [Grp 1; Grp 2] caps) <= n.
Proof.
  intros E. destruct (wrap_caps _ E) as (a & b & t' & _ & -> & _).
  change (subst [Grp 1; Grp 2] [[a]; [b]]) with [a; b].
  unfold re_wrap in E.
  apply match_ch_inv in E as (c1 & t1 & n1 & caps1 & _ & _ & E & -> & _).
  apply match_ch_inv in E as (c2 & t2 & n2 & caps2 & _ & _ & E & -> & _).
  apply match_rep_inv in E as (j & n3 & caps3 & _ & _ & E & -> & _).
  apply match_ch_inv in E as (c3 & t3 & n4 & caps4 & _ & _ & E & -> & _).
  apply match_rep_inv in E as (j' & n5 & caps5 & _ & _ & E & -> & _).
  apply match_ch_inv in E as (c4 & t4 & n6 & caps6 & _ & _ & E & -> & _).
  simpl. lia.
Qed.

Lemma clean_rules_shorter (x : jsstring) :
  List.length (clean_rules x) <= List.length x.
Proof.
  unfold clean_rules. cbv zeta.
  repeat match goal with
  | |- List.length (replace_all re_wrap ?tpl ?s) <= _ =>
      apply Nat.le_trans with (List.length s);
        [apply replace_all_shorter; [reflexivity|exact wrap_shorter]|]
  | |- List.length (replace_all ?re [Lit ?d] ?s) <= _ =>
      apply Nat.le_trans with (List.length s);
        [apply replace_all_shorter;
         [reflexivity|intros t n caps; now apply literal_shorter]|]
  end.
  lia.
Qed.

(** X4. Cleaning never makes a text longer. *)
Theorem cleanText_never_longer (x : jsstring) :
  List.length (cleanText x) <= List.length x.
Proof.
  unfold cleanText. destruct x as [|c x]; [simpl; lia|].
  pose proof (trim_length (clean_rules (c :: x))).
  pose proof (clean_rules_shorter (c :: x)). lia.
Qed.

Lemma replace_all_blank (re : regex) (tpl : list tpart) (s : jsstring) :
  has_mandatory re = true ->
  (forall t n caps,
     match_here re t = Some (n, caps) ->
     forallb is_space (firstn n t) = true ->
     forallb is_space (subst tpl caps) = true) ->
  forallb is_space s = true ->
  forallb is_space (replace_all re tpl s) = true.
Proof.
  intros Hm Hblank.
  apply (replace_ind re tpl
           (fun s out => forallb is_space s = true ->
                         forallb is_space out = true) Hm).
  - reflexivity.
  - intros c t out _ IH H. simpl in *.
    apply andb_true_iff in H as [-> H]. now rewrite IH.
  - intros t n caps out E _ _ IH H.
    rewrite <- (firstn_skipn n t), forallb_app in H.
    apply andb_true_iff in H as [H1 H2].
    rewrite forallb_app, (Hblank _ _ _ E H1). now apply IH.
Qed.

Lemma neutral_blank (m r : jsstring) :
  neutral m r -> forallb is_space m = true -> forallb is_space r = true.
Proof. intros (_ & _ & H) Hm. now rewrite <- H. Qed.

Lemma clean_rules_blank (x : jsstring) :
  forallb is_space x = true -> forallb is_space (clean_rules x) = true.
Proof.
  intros H. unfold clean_rules. cbv zeta.
  apply replace_all_blank; [reflexivity| |].
  { intros t n caps E. now apply neutral_blank, neutral_spaces. }
  apply replace_all_blank; [reflexivity| |].
  { intros t n caps E. now apply neutral_blank, neutral_hspace. }
  apply replace_all_blank; [reflexivity| |].
  { intros t n caps E. now apply neutral_blank, neutral_squote. }
  apply replace_all_blank; [reflexivity| |].
  { intros t n caps E. now apply neutral_blank, neutral_dquote. }
  apply replace_all_blank; [reflexivity| |].
  { intros t n caps E. now apply neutral_blank, neutral_newlines. }
  apply replace_all_blank; [reflexivity| |].
  { intros t n caps E. now apply neutral_blank, neutral_trail. }
  apply replace_all_blank; [reflexivity| |].
  { intros t n caps E. now apply neutral_blank, neutral_wrap. }
  apply replace_all_blank; [reflexivity| |].
  { intros t n caps E. now apply neutral_blank, neutral_dashes. }
  apply replace_all_blank; [reflexivity| |].
  { intros; reflexivity. }
  apply replace_all_blank; [reflexivity| |exact H].
  intros; reflexivity.
Qed.

(** X5. A text of white space only is cleaned to the empty string. *)
Theorem cleanText_blank (x : jsstring) :
  forallb is_space x = true -> cleanText x = [].
Proof.
  intros H. unfold cleanText. destruct x as [|c x]; [reflexivity|].
  apply trim_blank. now apply clean_rules_blank.
Qed.

Lemma cleanText_blank_witness : cleanText [SP; LF; TAB; CR] = [].
Proof. apply cleanText_blank. reflexivity. Defined.

(** ** Ingestion: what ends a run *)

Section RunFailures.

Variable num : Type.
Variable w : World num.

Local Abbreviation M := (M num).
Local Abbreviation event := (event num).

Local Abbreviation halting := (halting w).

Lemma failed_exit (ev : event) : fatal_exit ev = true -> failed w ev = true.
Proof. unfold failed. now intros ->. Defined.

Lemma failed_unparsed (ev : event) : unparsed w ev = true -> failed w ev = true.
Proof. unfold failed. intros ->. now rewrite orb_true_r. Qed.

Lemma failed_rejected (ev : event) : rejected w ev = true -> failed w ev = true.
Proof. unfold failed. intros ->. now rewrite orb_true_r. Qed.

Lemma failed_miscounted (ev : event) :
  miscounted w ev = true -> failed w ev = true.
Proof. unfold failed. intros ->. now rewrite orb_true_r. Qed.

Lemma halting_getPageCount (pdf : jsstring) :
  fail_fast halting (getPageCount w pdf).
Proof.
  unfold getPageCount. cbv zeta.
  destruct (exited_zero (status (pdfinfo w pdf))) eqn:E.
  - destruct (search re_pages (stdout (pdfinfo w pdf))) as [[n [|d caps]]|]
      eqn:Es.
    + intros ev Hin _. simpl in Hin. destruct Hin as [<-|[]].
      split; [reflexivity|]. now exists [].
    + apply fail_fast_quiet. simpl. repeat constructor.
      unfold halting. simpl. now rewrite E, Es.
    + intros ev Hin _. simpl in Hin. destruct Hin as [<-|[]].
      split; [reflexivity|]. now exists [].
  - apply fail_fast_quiet. simpl. repeat constructor.
    unfold halting. simpl. now rewrite E.
Qed.

Lemma halting_acquire_page (pdf : jsstring) (p : Z) :
  fail_fast halting (acquire_page w pdf p).
Proof.
  unfold acquire_page. apply fail_fast_bind.
  - apply fail_fast_quiet. simpl. repeat constructor.
  - intros text. apply fail_fast_bind; [|intros t ev []].
    destruct (too_thin text); [|intros ev []].
    unfold rasterizeAndOCR. cbv zeta.
    destruct (mkdtemp w pdf p) eqn:Em.
    2:{ intros ev Hin _. simpl in Hin. destruct Hin as [<-|[]].
        split; [reflexivity|]. now exists []. }
    destruct (exited_zero (pdftoppm w pdf p)) eqn:E.
    + destruct (recognize w pdf p) as [t|] eqn:Er.
      * apply fail_fast_quiet. simpl. repeat constructor;
          unfold halting; simpl; now rewrite ?Er, ?Em.
      * intros ev Hin Hh. simpl in Hin.
        destruct Hin as [<-|[<-|[<-|[]]]];
          try (unfold halting in Hh; simpl in Hh; rewrite ?Em in Hh;
               discriminate).
        split; [reflexivity|].
        now exists [EvOcrPath pdf p; EvPdftoppm pdf p (pdftoppm w pdf p)].
    + apply fail_fast_quiet. simpl. repeat constructor;
        unfold halting; simpl; now rewrite ?Em.
Qed.

Lemma halting_ingest_batch (filename : jsstring) (chunks : list chunk)
    (i : nat) :
  fail_fast halting (ingest_batch w filename chunks i).
Proof.
  unfold ingest_batch, embed. cbv zeta.
  set (batch := firstn BATCH (skipn i chunks)).
  destruct (pipe w (List.map chunk_text batch)) as [out|] eqn:Ep.
  - cbn [bind ret emit fst snd app].
    destruct (negb (List.length (embedFn_of out) =? List.length batch)).
    + apply fail_fast_quiet. simpl. repeat constructor.
      unfold halting. simpl. now rewrite Ep.
    + cbn [bind ret emit fst snd app].
      destruct (upsert w (make_points filename batch (embedFn_of out)))
        eqn:Eu.
      * apply fail_fast_quiet. simpl. repeat constructor;
          unfold halting; simpl; now rewrite ?Ep, ?Eu.
      * intros ev Hin Hh. simpl in Hin. destruct Hin as [<-|[<-|[]]].
        -- unfold halting in Hh. simpl in Hh. rewrite Ep in Hh. discriminate.
        -- split; [reflexivity|].
           now exists [EvEmbed (List.map chunk_text batch)].
  - intros ev Hin _. simpl in Hin. destruct Hin as [<-|[]].
    split; [reflexivity|]. now exists [].
Qed.

(** A single call: when it fails it is the last thing done. *)
Lemma fail_fast_call (fatal : event -> bool) (ev : event) (ok : bool)
    (e : error) :
  (ok = true -> fatal ev = false) ->
  fail_fast fatal (bind (emit ev) (fun _ => if ok then ret tt else throw e)).
Proof.
  intros H. destruct ok.
  - apply fail_fast_quiet. simpl. repeat constructor. now apply H.
  - intros x Hin _. simpl in Hin. destruct Hin as [<-|[]].
    split; [reflexivity|]. now exists [].
Qed.

Lemma halting_getEmbedder (loaded : bool) :
  fail_fast halting (getEmbedder w loaded).
Proof.
  unfold getEmbedder. destruct loaded; [intros ev []|].
  apply fail_fast_call. unfold halting. simpl. now intros ->.
Qed.

Lemma halting_count_points : fail_fast halting (count_points w).
Proof.
  unfold count_points. apply fail_fast_call.
  unfold halting. simpl. now intros ->.
Qed.

Lemma halting_run (pdfs : list jsstring) : fail_fast halting (run w pdfs).
Proof.
  apply fail_fast_run.
  - apply halting_getPageCount.
  - apply halting_acquire_page.
  - apply halting_getEmbedder.
  - apply halting_ingest_batch.
  - apply halting_count_points.
Qed.

(** *** A run throws only where something failed *)

Local Abbreviation stops_at_failure := (stops_at_failure w).

Lemma stops_bind {A B : Type} (m : M A) (k : A -> M B) :
  stops_at_failure m -> (forall a, stops_at_failure (k a)) ->
  stops_at_failure (bind m k).
Proof.
  intros Hm Hk. destruct m as [[a|e] tr] eqn:Em.
  - specialize (Hk a). unfold stops_at_failure in *. simpl.
    destruct (k a) as [r tr']. simpl in *. intros Hr.
    destruct (Hk Hr) as (tr0 & ev & -> & Hev).
    exists (tr ++ tr0), ev. now rewrite app_assoc.
  - exact Hm.
Qed.

Lemma stops_ok {A : Type} (m : M A) :
  is_ok (fst m) = true -> stops_at_failure m.
Proof. intros H Hf. congruence. Qed.

Lemma stops_for_each {A B : Type} (f : A -> M B) (l : list A) :
  (forall a, stops_at_failure (f a)) -> stops_at_failure (for_each f l).
Proof.
  intros Hf. induction l as [|a l IH]; simpl for_each.
  - now apply stops_ok.
  - apply stops_bind; [apply Hf|]. intros b.
    apply stops_bind; [exact IH|]. intros bs. now apply stops_ok.
Qed.

Lemma stops_getPageCount (pdf : jsstring) :
  stops_at_failure (getPageCount w pdf).
Proof.
  unfold getPageCount. cbv zeta.
  destruct (exited_zero (status (pdfinfo w pdf))) eqn:E.
  - destruct (search re_pages (stdout (pdfinfo w pdf))) as [[n [|d caps]]|]
      eqn:Es; try (now apply stops_ok);
      intros _; exists [], (EvPdfinfo pdf (status (pdfinfo w pdf)));
      (split; [reflexivity|]); apply failed_unparsed; unfold unparsed;
      now rewrite E, Es.
  - intros _. exists [], (EvPdfinfo pdf (status (pdfinfo w pdf))).
    split; [reflexivity|]. apply failed_exit. simpl. now rewrite E.
Qed.

Lemma stops_acquire_page (pdf : jsstring) (p : Z) :
  stops_at_failure (acquire_page w pdf p).
Proof.
  unfold acquire_page. apply stops_bind; [now apply stops_ok|].
  intros text. apply stops_bind; [|intros t; now apply stops_ok].
  destruct (too_thin text); [|now apply stops_ok].
  unfold rasterizeAndOCR. cbv zeta.
  destruct (mkdtemp w pdf p) eqn:Em.
  2:{ intros _. exists [], (EvOcrPath pdf p). split; [reflexivity|].
      apply failed_rejected. simpl. now rewrite Em. }
  destruct (exited_zero (pdftoppm w pdf p)) eqn:E.
  - destruct (recognize w pdf p) as [t|] eqn:Er; [now apply stops_ok|].
    intros _.
    exists [EvOcrPath pdf p; EvPdftoppm pdf p (pdftoppm w pdf p)],
           (EvRecognize pdf p).
    split; [reflexivity|]. apply failed_rejected. simpl. now rewrite Er.
  - intros _. exists [EvOcrPath pdf p], (EvPdftoppm pdf p (pdftoppm w pdf p)).
    split; [reflexivity|]. apply failed_exit. simpl. now rewrite E.
Qed.

Lemma page_chunks_ok (pt : Z * jsstring) :
  is_ok (fst (page_chunks (num := num) pt)) = true.
Proof.
  unfold page_chunks.
  destruct (@chunk_loop_fuel_enough (snd pt) CHUNK_CHARS CHUNK_OVERLAP
              eq_refl (List.length (snd pt)) 0%Z []) as [r [Hr _]];
    [lia|unfold len; lia|].
  unfold chunkText. now rewrite Hr.
Qed.

Lemma stops_ingest_batch (filename : jsstring) (chunks : list chunk)
    (i : nat) :
  stops_at_failure (ingest_batch w filename chunks i).
Proof.
  unfold ingest_batch, embed. cbv zeta.
  set (batch := firstn BATCH (skipn i chunks)).
  destruct (pipe w (List.map chunk_text batch)) as [out|] eqn:Ep.
  - cbn [bind ret emit fst snd app].
    destruct (List.length (embedFn_of out) =? List.length batch) eqn:En;
      cbn [negb].
    + cbn [bind ret emit fst snd app].
      destruct (upsert w (make_points filename batch (embedFn_of out)))
        eqn:Eu; [now apply stops_ok|].
      intros _. exists [EvEmbed (List.map chunk_text batch)],
        (EvUpsert (make_points filename batch (embedFn_of out))).
      split; [reflexivity|]. apply failed_rejected. simpl. now rewrite Eu.
    + intros _. exists [], (EvEmbed (List.map chunk_text batch)).
      split; [reflexivity|]. apply failed_miscounted. unfold miscounted.
      now rewrite Ep, length_map, En.
  - intros _. exists [], (EvEmbed (List.map chunk_text batch)).
    split; [reflexivity|]. apply failed_rejected. simpl. now rewrite Ep.
Qed.

Lemma stops_call (ev : event) (ok : bool) (e : error) :
  (ok = false -> rejected w ev = true) ->
  stops_at_failure
    (bind (emit ev) (fun _ => if ok then ret tt else throw e)).
Proof.
  intros H. destruct ok; [now apply stops_ok|].
  intros _. exists [], ev. split; [reflexivity|].
  now apply failed_rejected, H.
Qed.

Lemma stops_getEmbedder (loaded : bool) :
  stops_at_failure (getEmbedder w loaded).
Proof.
  unfold getEmbedder. destruct loaded; [now apply stops_ok|].
  apply stops_call. simpl. now intros ->.
Qed.

Lemma stops_ingestFile (loaded : bool) (filename : jsstring) :
  stops_at_failure (ingestFile w loaded filename).
Proof.
  unfold ingestFile. apply stops_bind; [apply stops_getPageCount|].
  intros pages. apply stops_bind.
  { apply stops_for_each. intros p. apply stops_acquire_page. }
  intros pageTexts. apply stops_bind.
  { apply stops_for_each. intros pt. apply stops_ok, page_chunks_ok. }
  intros per_page. destruct (List.concat per_page) as [|c chunks].
  - now apply stops_ok.
  - apply stops_bind; [apply stops_getEmbedder|]. intros _.
    apply stops_bind; [|intros bs; now apply stops_ok].
    apply stops_for_each. intros i. apply stops_ingest_batch.
Qed.

Lemma stops_ingest_files (loaded : bool) (pdfs : list jsstring) :
  stops_at_failure (ingest_files w loaded pdfs).
Proof.
  revert loaded. induction pdfs as [|f pdfs IH]; intros loaded.
  - now apply stops_ok.
  - cbn [ingest_files]. apply stops_bind; [apply stops_ingestFile|].
    intros loaded'. apply IH.
Qed.

Lemma stops_run (pdfs : list jsstring) : stops_at_failure (run w pdfs).
Proof.
  unfold run. destruct pdfs as [|f pdfs]; [now apply stops_ok|].
  apply stops_bind; [apply stops_ingest_files|]. intros _.
  unfold count_points. apply stops_call. simpl. now intros ->.
Qed.

End RunFailures.

(** X6. In every run, a page-count probe that exits with status 0 without
    printing a page count, a temporary directory that cannot be created,
    a rejected call of the recognition engine, a pipeline that cannot be
    loaded, a rejected call of the loaded pipeline, a rejected write to
    the vector store and a rejected request for the point count each end
    the whole run with a throw and are the last thing the run does: when
    the pipeline cannot be loaded, no call of the embedder is made. *)
Theorem rejections_abort_run (num : Type) (w : World num)
    (pdfs : list jsstring) (ev : event num) :
  In ev (snd (run w pdfs)) ->
  unparsed w ev || rejected w ev = true ->
  is_ok (fst (run w pdfs)) = false /\
  exists tr0, snd (run w pdfs) = tr0 ++ [ev].
Proof. exact (halting_run w pdfs ev). Qed.

Lemma rejections_abort_run_witness :
  is_ok (fst (run world_store_down [manual_pdf])) = false.
Proof.
  apply (@rejections_abort_run Z world_store_down [manual_pdf]
           (EvUpsert
              (make_points manual_pdf
                 [{| chunk_page := 1;
                     chunk_text :=
                       str "Turn the ignition key to START and release it at once." |}]
                 [Some [1%Z; 0%Z]]))).
  - vm_compute. right. right. right. right. now left.
  - reflexivity.
Defined.

(** X7. A run over the listed PDFs throws exactly when the last thing it
    did is a call that failed: a page-count probe or a rasterization that
    did not exit with status 0, an unreadable page count, a temporary
    directory that could not be created, a rejected recognition, a
    pipeline that could not be loaded, a rejected call of the pipeline, a
    wrong number of vectors, a rejected write, or a rejected request for
    the point count after the last file. *)
Theorem run_throws_iff_failure (num : Type) (w : World num)
    (pdfs : list jsstring) :
  is_ok (fst (run w pdfs)) = false <->
  exists tr0 ev, snd (run w pdfs) = tr0 ++ [ev] /\ failed w ev = true.
Proof.
  split; [apply stops_run|].
  intros (tr0 & ev & Htr & Hev).
  assert (Hin : In ev (snd (run w pdfs)))
    by (rewrite Htr; apply in_or_app; right; now left).
  unfold failed in Hev.
  apply orb_true_iff in Hev as [Hev|Hev];
    [apply orb_true_iff in Hev as [Hev|Hev];
     [apply orb_true_iff in Hev as [Hev|Hev]|]|].
  - now destruct (fail_fast_exits w pdfs ev Hin Hev).
  - destruct (halting_run w pdfs ev Hin) as [H _]; [|exact H].
    unfold halting. now rewrite Hev.
  - destruct (halting_run w pdfs ev Hin) as [H _]; [|exact H].
    unfold halting. rewrite Hev. apply orb_true_r.
  - now destruct (fail_fast_miscounted w pdfs ev Hin Hev).
Qed.

Lemma run_throws_iff_failure_witness :
  exists tr0 ev,
    snd (run world_store_down [manual_pdf]) = tr0 ++ [ev] /\
    failed world_store_down ev = true.
Proof.
  apply (proj1 (run_throws_iff_failure world_store_down [manual_pdf])).
  reflexivity.
Defined.

(** ** Ingestion: the pipeline is loaded once *)

Section LoadFacts.

Variable num : Type.
Variable w : World num.

Local Abbreviation M := (M num).
Local Abbreviation event := (event num).

Lemma orderly_app (l : bool) (a b : list event) :
  orderly l (a ++ b) = orderly l a && orderly (loaded_after l a) b.
Proof.
  revert l. induction a as [|ev a IH]; intros l.
  - unfold loaded_after. simpl. now rewrite orb_false_r.
  - unfold loaded_after in *. destruct ev; cbn [app orderly existsb is_load];
      rewrite IH, ?orb_false_l, ?orb_true_l, ?orb_true_r, ?andb_assoc;
      reflexivity.
Qed.

Lemma loaded_after_app (l : bool) (a b : list event) :
  loaded_after l (a ++ b) = loaded_after (loaded_after l a) b.
Proof. unfold loaded_after. now rewrite existsb_app, orb_assoc. Qed.

(** Events other than the loading and the embedder calls change nothing. *)
Lemma orderly_quiet (l : bool) (tr : list event) :
  Forall (fun ev => is_load ev || is_embed ev = false) tr ->
  orderly l tr = true /\ loaded_after l tr = l.
Proof.
  unfold loaded_after. induction 1 as [|ev tr Hev _ [IH1 IH2]].
  - simpl. now rewrite orb_false_r.
  - destruct ev; try discriminate Hev; cbn [orderly existsb is_load];
      now rewrite ?orb_false_l.
Qed.

Lemma keeps_order_bind {A B : Type} (l : bool) (m : M A) (k : A -> M B)
    (mid : A -> bool) (l' : B -> bool) :
  keeps_order l m mid ->
  (forall a, fst m = Ok a -> keeps_order (mid a) (k a) l') ->
  keeps_order l (bind m k) l'.
Proof.
  intros [Hm1 Hm2] Hk. destruct m as [[a|e] tr]; cbn [fst snd] in *.
  - specialize (Hm2 a eq_refl). destruct (Hk a eq_refl) as [Hk1 Hk2].
    unfold keeps_order. cbn [bind]. destruct (k a) as [r tr'].
    cbn [fst snd] in *. split.
    + now rewrite orderly_app, Hm1, Hm2.
    + intros b Hb. rewrite loaded_after_app, Hm2. now apply Hk2.
  - split; [exact Hm1|discriminate].
Qed.

Lemma keeps_order_quiet {A : Type} (l : bool) (m : M A) :
  Forall (fun ev => is_load ev || is_embed ev = false) (snd m) ->
  keeps_order l m (fun _ => l).
Proof.
  intros H. destruct (orderly_quiet l H) as [H1 H2]. now split.
Qed.

Lemma keeps_order_getEmbedder (l : bool) :
  keeps_order l (getEmbedder w l) (fun _ => true).
Proof.
  unfold getEmbedder. destruct l; [now split|].
  destruct (load_pipeline w); split; try reflexivity; discriminate.
Qed.

Lemma keeps_order_batches (filename : jsstring) (chunks : list chunk)
    (starts : list nat) :
  keeps_order true (for_each (ingest_batch w filename chunks) starts)
    (fun _ => true).
Proof.
  split; [|reflexivity].
  assert (H : Forall (fun ev => @is_load num ev = false)
                (snd (for_each (ingest_batch w filename chunks) starts)))
    by (apply quiet_for_each; intros i; now apply quiet_ingest_batch).
  revert H.
  generalize (snd (for_each (ingest_batch w filename chunks) starts)).
  induction 1 as [|ev tr Hev _ IH]; [reflexivity|].
  destruct ev; try discriminate Hev; exact IH.
Qed.

Lemma keeps_order_ingestFile (l : bool) (filename : jsstring) :
  keeps_order l (ingestFile w l filename) (fun b => b).
Proof.
  unfold ingestFile.
  apply keeps_order_bind with (mid := fun _ => l).
  { apply keeps_order_quiet. now apply quiet_getPageCount. }
  intros pages _. apply keeps_order_bind with (mid := fun _ => l).
  { apply keeps_order_quiet. apply quiet_for_each. intros p.
    now apply quiet_acquire_page. }
  intros pageTexts _. apply keeps_order_bind with (mid := fun _ => l).
  { apply keeps_order_quiet. apply quiet_for_each. intros pt.
    apply quiet_page_chunks. }
  intros per_page _. destruct (List.concat per_page) as [|c chunks].
  - split; [reflexivity|]. intros b Hb. injection Hb as <-.
    unfold loaded_after. simpl. now rewrite orb_false_r.
  - apply keeps_order_bind with (mid := fun _ => true).
    { apply keeps_order_getEmbedder. }
    intros _ _. apply keeps_order_bind with (mid := fun _ => true).
    { apply keeps_order_batches. }
    intros bs _. split; [reflexivity|]. intros b Hb. now injection Hb as <-.
Qed.

Lemma keeps_order_ingest_files (l : bool) (pdfs : list jsstring) :
  keeps_order l (ingest_files w l pdfs) (fun b => b).
Proof.
  revert l. induction pdfs as [|f pdfs IH]; intros l.
  - split; [reflexivity|]. intros b Hb. injection Hb as <-.
    unfold loaded_after. simpl. now rewrite orb_false_r.
  - cbn [ingest_files]. apply keeps_order_bind with (mid := fun b => b).
    + apply keeps_order_ingestFile.
    + intros l' _. apply IH.
Qed.

Lemma orderly_run (pdfs : list jsstring) :
  orderly false (snd (run w pdfs)) = true.
Proof.
  unfold run. destruct pdfs as [|f pdfs]; [reflexivity|].
  destruct (keeps_order_ingest_files false (f :: pdfs)) as [H _].
  destruct (ingest_files w false (f :: pdfs)) as [[b|e] tr];
    cbn [fst snd] in H; [|exact H].
  unfold count_points.
  destruct (point_count w); cbn [bind emit ret throw fst snd app];
    now rewrite orderly_app, H.
Qed.

Lemma orderly_count (l : bool) (tr : list event) :
  orderly l tr = true -> count (@is_load num) tr <= (if l then 0 else 1).
Proof.
  unfold count. revert l. induction tr as [|ev tr IH]; intros l H.
  - simpl. destruct l; lia.
  - destruct ev; cbn [orderly] in H; cbn [filter is_load List.length];
      try (now apply IH).
    + apply andb_true_iff in H as [Hl H]. destruct l; [discriminate|].
      specialize (IH true H). simpl in IH. simpl. lia.
    + apply andb_true_iff in H as [Hl H]. now apply IH.
Qed.

Lemma orderly_embed (l : bool) (tr1 tr2 : list event) (ev : event) :
  orderly l (tr1 ++ ev :: tr2) = true -> is_embed ev = true ->
  l = true \/ In EvLoadPipeline tr1.
Proof.
  revert l. induction tr1 as [|x tr1 IH]; intros l H Hev.
  - destruct ev; try discriminate Hev. cbn [app orderly] in H.
    apply andb_true_iff in H as [H _]. now left.
  - cbn [app] in H. destruct x; cbn [orderly] in H;
      try (destruct (IH l H Hev) as [Hl|Hin]; [now left|right; now right]).
    + right. now left.
    + apply andb_true_iff in H as [H _]. now left.
Qed.

End LoadFacts.

(** X20. In a run the pipeline is loaded at most once, whatever the number
    of files, and every call of the embedder comes after the loading:
    [getEmbedder] keeps the embedder of the first file that has chunks
    for the files that follow. *)
Theorem pipeline_loaded_once (num : Type) (w : World num)
    (pdfs : list jsstring) :
  count (@is_load num) (snd (run w pdfs)) <= 1 /\
  forall tr1 ev tr2,
    snd (run w pdfs) = tr1 ++ ev :: tr2 -> is_embed ev = true ->
    In EvLoadPipeline tr1.
Proof.
  pose proof (orderly_run w pdfs) as H. split.
  - exact (orderly_count false _ H).
  - intros tr1 ev tr2 Htr Hev. rewrite Htr in H.
    destruct (orderly_embed false tr1 tr2 ev H Hev) as [Hl|Hin];
      [discriminate|exact Hin].
Qed.

Lemma pipeline_loaded_once_witness :
  count (@is_load Z) (snd (run world_plain [manual_pdf; manual_pdf])) = 1 /\
  In EvLoadPipeline
    [@EvPdfinfo Z manual_pdf (Some 0%Z); EvPdftotext manual_pdf 1 (Some 0%Z);
     EvLoadPipeline].
Proof.
  destruct (pipeline_loaded_once world_plain [manual_pdf; manual_pdf])
    as [_ H].
  split; [vm_compute; reflexivity|].
  apply (H _ (EvEmbed [str "Turn the ignition key to START and release it at once."])
           (skipn 4 (snd (run world_plain [manual_pdf; manual_pdf]))));
    vm_compute; reflexivity.
Defined.

(** ** Ingestion: batches *)

Section BatchFacts.

Variable num : Type.
Variable w : World num.

Local Abbreviation M := (M num).
Local Abbreviation event := (event num).

Lemma forall_bind_ok {A B : Type} (P : event -> Prop) (m : M A)
    (k : A -> M B) :
  Forall P (snd m) ->
  (forall a, fst m = Ok a -> Forall P (snd (k a))) ->
  Forall P (snd (bind m k)).
Proof.
  intros Hm Hk. destruct m as [[a|e] tr]; simpl in *; [|exact Hm].
  specialize (Hk a eq_refl). destruct (k a) as [r tr']. simpl in *.
  apply Forall_app. now split.
Qed.

Lemma forall_for_each_in {A B : Type} (P : event -> Prop) (f : A -> M B)
    (l : list A) :
  (forall a, In a l -> Forall P (snd (f a))) ->
  Forall P (snd (for_each f l)).
Proof.
  induction l as [|a l IH]; intros Hf; simpl for_each; [constructor|].
  apply quiet_bind; [apply Hf; now left|]. intros b.
  apply quiet_bind; [|intros bs; constructor].
  apply IH. intros a' Ha'. apply Hf. now right.
Qed.

(** The values of a loop that went through. *)
Lemma for_each_values {A B : Type} (f : A -> M B) (l : list A)
    (bs : list B) :
  fst (for_each f l) = Ok bs -> Forall2 (fun a b => fst (f a) = Ok b) l bs.
Proof.
  revert bs. induction l as [|a l IH]; intros bs H; simpl for_each in H.
  - injection H as <-. constructor.
  - destruct (f a) as [[b|e] tr] eqn:Ea; simpl in H; [|discriminate].
    destruct (for_each f l) as [[bs'|e] tr'] eqn:El; simpl in H;
      [|discriminate].
    injection H as <-. constructor; [now rewrite Ea|]. now apply IH.
Qed.

Lemma batch_starts_In (n i : nat) : In i (batch_starts n) -> i < n.
Proof.
  unfold batch_starts, BATCH. intros H. apply in_map_iff in H.
  destruct H as [k [<- Hk]]. apply in_seq in Hk.
  pose proof (Nat.Div0.mul_div_le (n + 24 - 1) 24). lia.
Qed.

Lemma batch_length (chunks : list chunk) (i : nat) :
  i < List.length chunks ->
  1 <= List.length (firstn BATCH (skipn i chunks)) <= BATCH.
Proof.
  intros H. rewrite length_firstn, length_skipn. unfold BATCH. lia.
Qed.

Lemma batch_incl (chunks : list chunk) (i : nat) (c : chunk) :
  In c (firstn BATCH (skipn i chunks)) -> In c chunks.
Proof.
  intros H. apply firstn_incl in H.
  rewrite <- (firstn_skipn i chunks). apply in_or_app. now right.
Qed.

Lemma make_points_length (filename : jsstring) (batch : list chunk)
    (vecs : list (option (vec num))) :
  List.length (make_points filename batch vecs) = List.length batch.
Proof.
  unfold make_points.
  now rewrite length_map, length_combine, length_seq, Nat.min_id.
Qed.

Lemma map_fst_combine_seq (A : Type) (l : list A) (start : nat) :
  List.map fst (combine l (seq start (List.length l))) = l.
Proof.
  revert start. induction l as [|x l IH]; intros start; [reflexivity|].
  simpl. now rewrite IH.
Qed.

(** The points of a batch carry the pages and texts of its chunks, in
    order, and the file name. *)
Lemma make_points_chunks (filename : jsstring) (batch : list chunk)
    (vecs : list (option (vec num))) :
  List.map (fun pt => (point_filename pt, point_page pt, point_text pt))
    (make_points filename batch vecs)
  = List.map (fun c => (filename, chunk_page c, chunk_text c)) batch.
Proof.
  unfold make_points. rewrite map_map. cbn [point_filename point_page point_text].
  rewrite <- (map_fst_combine_seq batch 0) at 3. now rewrite map_map.
Qed.

Lemma ingest_batch_events (filename : jsstring) (chunks : list chunk)
    (i : nat) :
  i < List.length chunks ->
  Forall (fun c => good_text (chunk_text c)) chunks ->
  Forall (@batch_ok num) (snd (ingest_batch w filename chunks i)).
Proof.
  intros Hi Hgood. unfold ingest_batch, embed. cbv zeta.
  set (batch := firstn BATCH (skipn i chunks)).
  assert (Hlen : 1 <= List.length batch <= BATCH) by now apply batch_length.
  assert (Hbatch : Forall (fun c => good_text (chunk_text c)) batch).
  { apply Forall_forall. intros c Hc. rewrite Forall_forall in Hgood.
    apply Hgood. now apply batch_incl with i. }
  assert (Hembed : batch_ok (@EvEmbed num (List.map chunk_text batch))).
  { split; [now rewrite length_map|]. now apply Forall_map. }
  assert (Hup : forall vecs : list (option (vec num)),
                 batch_ok (EvUpsert (make_points filename batch vecs))).
  { intros vecs. split; [now rewrite make_points_length|].
    apply Forall_forall. intros pt Hpt. unfold make_points in Hpt.
    apply in_map_iff in Hpt as [[c j] [<- Hcj]]. cbn [point_text fst].
    apply in_combine_l in Hcj. rewrite Forall_forall in Hbatch.
    now apply Hbatch. }
  destruct (pipe w (List.map chunk_text batch)) as [out|]; simpl;
    [|now constructor].
  destruct (negb (List.length (embedFn_of out) =? List.length batch)); simpl;
    [now constructor|].
  destruct (upsert w _); simpl;
    (constructor; [exact Hembed|constructor; [apply Hup|constructor]]).
Qed.

Lemma page_chunks_good (pt : Z * jsstring) (cs : list chunk) :
  fst (page_chunks (num := num) pt) = Ok cs ->
  Forall (fun c => good_text (chunk_text c)) cs.
Proof.
  unfold page_chunks.
  destruct (chunkText (snd pt) CHUNK_CHARS CHUNK_OVERLAP) as [parts|] eqn:E;
    [|discriminate].
  simpl. intros H. injection H as <-.
  pose proof (chunkText_chunks (snd pt) CHUNK_OVERLAP
                (size := CHUNK_CHARS) eq_refl E) as Hall.
  apply Forall_map. cbn [chunk_text]. revert Hall. apply Forall_impl.
  intros c (H1 & H2 & _). now split.
Qed.

Lemma ingestFile_batches (loaded : bool) (pdf : jsstring) :
  Forall (@batch_ok num) (snd (ingestFile w loaded pdf)).
Proof.
  unfold ingestFile. apply quiet_bind.
  { unfold getPageCount. cbv zeta. destruct (exited_zero _).
    - destruct (search _ _) as [[n [|d caps]]|]; simpl;
        repeat constructor.
    - simpl. repeat constructor. }
  intros pages. apply quiet_bind.
  { apply quiet_for_each. intros p.
    rewrite acquire_page_trace.
    destruct (thin_page w pdf p), (mkdtemp w pdf p),
      (exited_zero (pdftoppm w pdf p));
      repeat constructor. }
  intros pageTexts. apply forall_bind_ok.
  { apply quiet_for_each. intros pt. apply quiet_page_chunks. }
  intros per_page Hper.
  assert (Hgood : Forall (fun c => good_text (chunk_text c))
                    (List.concat per_page)).
  { apply for_each_values in Hper. apply Forall_concat.
    induction Hper as [|pt cs l bs Hpt _ IH]; constructor; [|exact IH].
    now apply page_chunks_good with pt. }
  destruct (List.concat per_page) as [|c chunks] eqn:E; [constructor|].
  apply quiet_bind.
  { unfold getEmbedder. destruct loaded; [constructor|].
    destruct (load_pipeline w); simpl; repeat constructor. }
  intros _. apply quiet_bind; [|intros; constructor].
  apply forall_for_each_in. intros i Hi.
  apply ingest_batch_events; [|exact Hgood].
  now apply batch_starts_In.
Qed.

(** Every chunk is in exactly one batch: the batches, end to end, are the
    chunks. *)
Lemma batches_partition (chunks : list chunk) :
  List.concat
    (List.map (fun i => firstn BATCH (skipn i chunks))
       (batch_starts (List.length chunks)))
  = chunks.
Proof.
  unfold batch_starts. rewrite map_map.
  rewrite (slices_cover (num := chunk) chunks BATCH).
  apply firstn_all2. unfold BATCH.
  pose proof (Nat.div_mod_eq (List.length chunks + 24 - 1) 24).
  pose proof (Nat.mod_upper_bound (List.length chunks + 24 - 1) 24).
  lia.
Qed.

Lemma ingest_batch_ok_trace (filename : jsstring) (chunks : list chunk)
    (i : nat) :
  is_ok (fst (ingest_batch w filename chunks i)) = true ->
  exists vecs,
    snd (ingest_batch w filename chunks i)
    = [EvEmbed (List.map chunk_text (firstn BATCH (skipn i chunks)));
       EvUpsert (make_points filename (firstn BATCH (skipn i chunks)) vecs)].
Proof.
  unfold ingest_batch, embed. cbv zeta.
  destruct (pipe w _) as [out|]; cbn [bind ret emit throw fst snd app];
    [|discriminate].
  destruct (negb _); cbn [bind ret emit throw fst snd app]; [discriminate|].
  destruct (upsert w _); cbn [is_ok fst snd app]; [|discriminate].
  intros _. now exists (embedFn_of out).
Qed.

Lemma batch_loop_points (filename : jsstring) (chunks : list chunk)
    (starts : list nat) :
  is_ok (fst (for_each (ingest_batch w filename chunks) starts)) = true ->
  List.map (fun pt => (point_filename pt, point_page pt, point_text pt))
    (upserted (snd (for_each (ingest_batch w filename chunks) starts)))
  = List.map (fun c => (filename, chunk_page c, chunk_text c))
      (List.concat
         (List.map (fun i => firstn BATCH (skipn i chunks)) starts)).
Proof.
  induction starts as [|i starts IH]; intros Hok; [reflexivity|].
  destruct (fst (ingest_batch w filename chunks i)) as [b|e] eqn:Ei.
  - destruct (@for_each_cons_ok num _ _ (ingest_batch w filename chunks)
                i starts b Ei) as [Hok' Htr].
    rewrite Hok' in Hok. rewrite Htr.
    destruct (ingest_batch_ok_trace filename chunks i) as [vecs Hvecs];
      [now rewrite Ei|].
    rewrite Hvecs. unfold upserted in *.
    rewrite flat_map_app, map_app. cbn [flat_map app List.map List.concat].
    rewrite app_nil_r, map_app, make_points_chunks. f_equal.
    now apply IH.
  - destruct (@for_each_cons_throw num _ _ (ingest_batch w filename chunks)
                i starts e Ei) as [Hthrow _].
    rewrite Hthrow in Hok. discriminate.
Qed.

End BatchFacts.

(** X8. While a file is ingested, the embedder is never called with an
    empty batch or with more than 24 texts, and never with a text that is
    empty or has white space at either end; every write to the vector
    store carries between 1 and 24 points with such texts. *)
Theorem embedder_input_is_sound (num : Type) (w : World num)
    (loaded : bool) (pdf : jsstring) :
  Forall (@batch_ok num) (snd (ingestFile w loaded pdf)).
Proof. apply ingestFile_batches. Qed.

(** X9. When the batch loop of [ingestFile] goes through, the points
    written to the vector store are, in order, one per chunk: point [j]
    carries the file name and the page and text of chunk [j]. *)
Theorem batch_loop_writes_every_chunk (num : Type) (w : World num)
    (filename : jsstring) (chunks : list chunk) :
  let loop :=
    for_each (ingest_batch w filename chunks)
      (batch_starts (List.length chunks)) in
  is_ok (fst loop) = true ->
  List.map (fun pt => (point_filename pt, point_page pt, point_text pt))
    (upserted (snd loop))
  = List.map (fun c => (filename, chunk_page c, chunk_text c)) chunks.
Proof.
  cbv zeta. intros Hok.
  rewrite (batch_loop_points w filename chunks _ Hok).
  now rewrite batches_partition.
Qed.

Lemma batch_loop_writes_every_chunk_witness :
  List.map (fun pt => (point_filename pt, point_page pt, point_text pt))
    (upserted
       (snd (for_each
               (ingest_batch world_plain manual_pdf
                  (repeat {| chunk_page := 1; chunk_text := str "oil" |} 30))
               (batch_starts 30))))
  = repeat (manual_pdf, 1%Z, str "oil") 30.
Proof.
  apply (@batch_loop_writes_every_chunk Z world_plain manual_pdf
           (repeat {| chunk_page := 1; chunk_text := str "oil" |} 30)).
  vm_compute. reflexivity.
Defined.

(** ** Query embedding against ingestion embedding *)

(** X10. The embedder of the query server and the embedder of the
    ingestion return the same vectors when the pipeline returns an array
    of tensors, a tensor without dimensions or with one, or a tensor of
    one row ([dims] starting with 1) whose data has at most [dim]
    components.  On a tensor of [n] rows the server's embedder returns
    one vector, the ingestion's returns [n]. *)
Theorem query_embedder_agrees (num : Type) :
  (forall ts : list (tensor num),
     embedFn_of (OutArray ts)
     = List.map Some (server_embed_of (OutArray ts))) /\
  (forall d : vec num,
     embedFn_of (OutTensor {| data := d; dims := None |})
     = List.map Some
         (server_embed_of (OutTensor {| data := d; dims := None |})) /\
     forall k,
       embedFn_of (OutTensor {| data := d; dims := Some [k] |})
       = List.map Some
           (server_embed_of (OutTensor {| data := d; dims := Some [k] |}))) /\
  (forall (d : vec num) (mid : list nat) (dim : nat),
     List.length d <= dim ->
     embedFn_of (OutTensor {| data := d; dims := Some (1 :: mid ++ [dim]) |})
     = List.map Some
         (server_embed_of
            (OutTensor {| data := d; dims := Some (1 :: mid ++ [dim]) |}))) /\
  (forall (d : vec num) (n : nat) (mid : list nat) (dim : nat),
     List.length
       (server_embed_of
          (OutTensor {| data := d; dims := Some (n :: mid ++ [dim]) |})) = 1 /\
     List.length
       (embedFn_of
          (OutTensor {| data := d; dims := Some (n :: mid ++ [dim]) |})) = n).
Proof.
  repeat apply conj.
  - intros ts. simpl. now rewrite map_map.
  - intros d. split; [reflexivity|intros k; reflexivity].
  - intros d mid dim Hd. rewrite embedFn_of_batch_tensor. simpl.
    now rewrite firstn_all2.
  - intros d n mid dim. split; [reflexivity|].
    rewrite embedFn_of_batch_tensor. now rewrite length_map, length_seq.
Qed.

Lemma query_embedder_agrees_witness :
  embedFn_of (OutTensor {| data := [3%Z; 4%Z]; dims := Some [1; 2] |})
  = List.map Some
      (server_embed_of
         (OutTensor {| data := [3%Z; 4%Z]; dims := Some [1; 2] |})).
Proof.
  destruct (query_embedder_agrees Z) as (_ & _ & H & _).
  apply (H [3%Z; 4%Z] [] 2). simpl. lia.
Defined.

(** ** Retrieval: keywords *)

Lemma match_all_from_sound (re : regex) (skip : nat) (s : jsstring) :
  has_mandatory re = true ->
  Forall (fun x => x <> [] /\ forallb (in_classes re) x = true)
    (match_all_from re skip s).
Proof.
  intros Hm. revert skip. induction s as [|c s IH]; intros skip;
    [constructor|].
  cbn [match_all_from]. destruct skip as [|k]; [|apply IH].
  destruct (match_here re (c :: s)) as [[n caps]|] eqn:E; [|apply IH].
  pose proof (match_here_nonempty re (c :: s) Hm E) as Hpos.
  destruct (match_here_sound re (c :: s) E) as [Hle Hcls].
  destruct n as [|n]; [lia|].
  constructor; [|apply IH]. split; [discriminate|exact Hcls].
Qed.

Lemma set_of_from (l acc : list jsstring) :
  NoDup acc ->
  let r := fold_left
             (fun acc x => if existsb (str_eqb x) acc then acc else acc ++ [x])
             l acc in
  NoDup r /\ forall x, In x r <-> In x acc \/ In x l.
Proof.
  cbv zeta. revert acc. induction l as [|y l IH]; intros acc Hnd.
  - simpl. split; [exact Hnd|]. intuition.
  - cbn [fold_left]. destruct (existsb (str_eqb y) acc) eqn:E.
    + destruct (IH acc Hnd) as [H1 H2]. split; [exact H1|].
      intros x. rewrite H2. simpl. split; [intuition|].
      intros [H|[<-|H]]; auto. left.
      apply existsb_exists in E as [z [Hz Hyz]].
      apply str_eqb_eq in Hyz. now subst.
    + assert (Hnd' : NoDup (acc ++ [y])).
      { apply NoDup_app; [exact Hnd|repeat constructor; intros []|].
        intros x Hx [->|[]].
        assert (Ht : existsb (str_eqb x) acc = true)
          by (apply existsb_exists; exists x; split;
              [exact Hx|apply str_eqb_refl]).
        congruence. }
      destruct (IH (acc ++ [y]) Hnd') as [H1 H2]. split; [exact H1|].
      intros x. rewrite H2, in_app_iff. simpl. intuition.
Qed.

Lemma set_of_NoDup (l : list jsstring) : NoDup (set_of l).
Proof. apply (set_of_from l (NoDup_nil _)). Qed.

Lemma set_of_In (l : list jsstring) (x : jsstring) :
  In x (set_of l) <-> In x l.
Proof.
  destruct (set_of_from l (NoDup_nil _)) as [_ H]. unfold set_of.
  rewrite H. simpl. intuition.
Qed.

Section KeywordFacts.

Variable toLowerCase : jsstring -> jsstring.

Lemma keywords_cases (q : jsstring) :
  keywords toLowerCase q = SYNS \/
  keywords toLowerCase q
  = filter (fun x => 4 <=? List.length x) (qwords toLowerCase q).
Proof.
  unfold keywords. cbv zeta.
  destruct (_ || _); [now left|now right].
Qed.

End KeywordFacts.

(** X11. The keyword set of a question has no duplicate, and each keyword
    has at least 4 characters, all of them lower-case letters or digits;
    it is either the three synonyms or made of words of the lower-cased
    question.  In particular no keyword is the empty string, which every
    text contains. *)
Theorem keywords_are_words (toLowerCase : jsstring -> jsstring)
    (q : jsstring) :
  NoDup (keywords toLowerCase q) /\
  (forall k, In k (keywords toLowerCase q) ->
     4 <= List.length k /\ forallb is_lower_alnum k = true) /\
  (keywords toLowerCase q = SYNS \/
   forall k, In k (keywords toLowerCase q) ->
     In k (match_all re_word (toLowerCase q))).
Proof.
  destruct (keywords_cases toLowerCase q) as [E|E]; rewrite E.
  - repeat apply conj.
    + repeat constructor; intros H; vm_compute in H;
        repeat (destruct H as [H|H]; [discriminate H|]); exact H.
    + intros k [<-|[<-|[<-|[]]]]; split; try reflexivity; simpl; lia.
    + now left.
  - repeat apply conj.
    + apply NoDup_filter. unfold qwords. apply set_of_NoDup.
    + intros k Hk. apply filter_In in Hk as [Hk Hlen].
      apply Nat.leb_le in Hlen. split; [exact Hlen|].
      unfold qwords in Hk. apply (proj1 (set_of_In _ _)) in Hk.
      pose proof (match_all_from_sound re_word 0 (toLowerCase q) eq_refl)
        as Hall.
      rewrite Forall_forall in Hall. destruct (Hall k Hk) as [_ Hcls].
      revert Hcls. apply forallb_weaken. intros c. unfold in_classes.
      simpl. now rewrite orb_false_r.
    + right. intros k Hk. apply filter_In in Hk as [Hk _].
      unfold qwords in Hk. now apply (proj1 (set_of_In _ _)) in Hk.
Qed.

Lemma keywords_are_words_witness :
  4 <= List.length (str "windshield").
Proof.
  destruct (keywords_are_words ascii_lower (str "Clean the windshield"))
    as (_ & H & _).
  apply H. vm_compute. right. now left.
Defined.

(** ** Retrieval: the response *)

Section ResponseFacts.

Variable toLowerCase : jsstring -> jsstring.

Lemma gates_In (q : jsstring) (top : hit) (raw : list hit) (h : hit) :
  In h (gates toLowerCase q top raw) ->
  In h raw /\ hit_filename h = hit_filename top.
Proof.
  unfold gates. intros H.
  apply filter_In in H as [H _]. apply filter_In in H as [H _].
  apply filter_In in H as [H Hf]. split; [exact H|].
  now apply str_eqb_eq.
Qed.

Lemma context_hits_In (q : jsstring) (top : hit) (rest : list hit) (h : hit) :
  In h (context_hits toLowerCase q top (top :: rest)) ->
  In h (top :: rest) /\ hit_filename h = hit_filename top.
Proof.
  unfold context_hits.
  destruct (funnel toLowerCase q top (top :: rest)) as [|x l] eqn:E.
  - intros [<-|[]]. split; [now left|reflexivity].
  - intros H. rewrite <- E in H. apply gates_In with q.
    now apply funnel_In.
Qed.

Lemma context_hits_length (q : jsstring) (top : hit) (raw : list hit) :
  1 <= List.length (context_hits toLowerCase q top raw) <= 6.
Proof.
  unfold context_hits.
  destruct (funnel toLowerCase q top raw) as [|x l] eqn:E; [simpl; lia|].
  rewrite <- E. split; [rewrite E; simpl; lia|].
  unfold funnel, MAX_CTX. apply firstn_le_length.
Qed.

Lemma citations_head (h : hit) (hits : list hit) :
  exists cs, citations_of (h :: hits) = key_of h :: cs.
Proof.
  unfold citations_of.
  rewrite cite_loop_spec by (unfold MAX_CITATIONS; simpl; lia).
  cbn [app List.map distinct_in_order]. unfold MAX_CITATIONS.
  cbn [firstn filter fresh_for existsb negb].
  eexists. reflexivity.
Qed.

Lemma citations_from_hits (hits : list hit) (c : citation) :
  In c (citations_of hits) -> exists h, In h hits /\ c = key_of h.
Proof.
  unfold citations_of.
  rewrite cite_loop_spec by (unfold MAX_CITATIONS; simpl; lia).
  cbn [app]. intros H. apply firstn_incl in H.
  apply filter_In in H as [H _].
  apply (proj1 (distinct_in_order_In _ _)) in H.
  apply in_map_iff in H as [h [<- Hh]]. now exists h.
Qed.

End ResponseFacts.

(** X12. What [/ask] returns for the hits of the broad search.  Without
    hits: route [no_context], nothing used, nothing cited.  With hits:
    route [retrieval]; between 1 and 6 hits are used, each taken from the
    search result and from the document of its first hit; there are
    between 1 and 3 citations, the first one is the (filename, page) of
    the first used hit, and every citation is the (filename, page) of a
    used hit. *)
Theorem ask_response_is_consistent (toLowerCase : jsstring -> jsstring)
    (q : jsstring) :
  ask toLowerCase q []
  = {| resp_routed := no_context; resp_citations := []; resp_used := [] |} /\
  forall top rest,
    let r := ask toLowerCase q (top :: rest) in
    resp_routed r = retrieval /\
    1 <= List.length (resp_used r) <= 6 /\
    (forall h, In h (resp_used r) ->
       In h (top :: rest) /\ hit_filename h = hit_filename top) /\
    1 <= List.length (resp_citations r) <= 3 /\
    hd_error (resp_citations r) = option_map key_of (hd_error (resp_used r)) /\
    (forall c, In c (resp_citations r) ->
       exists h, In h (resp_used r) /\ c = key_of h).
Proof.
  split; [reflexivity|]. intros top rest. cbv zeta. cbn [ask resp_routed
    resp_used resp_citations].
  pose proof (context_hits_length toLowerCase q top (top :: rest)) as Hlen.
  repeat apply conj; try reflexivity; try apply Hlen.
  - apply context_hits_In.
  - destruct (context_hits toLowerCase q top (top :: rest)) as [|h hits];
      [simpl in Hlen; lia|].
    destruct (citations_head h hits) as [cs ->]. simpl. lia.
  - unfold citations_of.
    rewrite cite_loop_spec by (unfold MAX_CITATIONS; simpl; lia).
    cbn [app]. unfold MAX_CITATIONS.
    etransitivity; [apply firstn_le_length|reflexivity].
  - destruct (context_hits toLowerCase q top (top :: rest)) as [|h hits];
      [simpl in Hlen; lia|].
    destruct (citations_head h hits) as [cs ->]. reflexivity.
  - apply citations_from_hits.
Qed.

Lemma ask_response_is_consistent_witness :
  exists h,
    In h (resp_used (ask ascii_lower sample_question sample_hits)) /\
    key_of sample_top = key_of h.
Proof.
  destruct (ask_response_is_consistent ascii_lower sample_question)
    as [_ H].
  destruct (H sample_top sample_rest) as (_ & _ & _ & _ & _ & Hc).
  apply Hc. vm_compute. now left.
Defined.

(** ** Retrieval: the top hit leads *)

Lemma insert_by_first (A : Type) (cmp : A -> A -> Q) (x : A) (l : list A) :
  (forall y, In y l -> Qle_bool (cmp x y) 0 = true) ->
  insert_by cmp x l = x :: l.
Proof.
  intros H. destruct l as [|y l]; [reflexivity|].
  simpl. now rewrite (H y (or_introl eq_refl)).
Qed.

(** X13. When the candidates arrive in decreasing score order and the top
    candidate itself has a score of at least 0.45 and passes the lexical
    gate, the first context hit is the top candidate. *)
Theorem top_hit_leads (toLowerCase : jsstring -> jsstring) (q : jsstring)
    (top : hit) (rest : list hit) :
  StronglySorted score_ge (top :: rest) ->
  above_floor top = true ->
  on_topic toLowerCase (keywords toLowerCase q) top = true ->
  hd_error (context_hits toLowerCase q top (top :: rest)) = Some top.
Proof.
  intros Hsorted Hfloor Htopic.
  apply StronglySorted_inv in Hsorted as [_ Hall].
  rewrite Forall_forall in Hall.
  assert (Hg : gates toLowerCase q top (top :: rest)
               = top :: gates toLowerCase q top rest).
  { unfold gates. cbn [filter]. unfold same_family at 1.
    rewrite str_eqb_refl. cbn [filter]. rewrite Hfloor. cbn [filter].
    now rewrite Htopic. }
  unfold context_hits, funnel. rewrite Hg. cbn [sort_by fold_right].
  rewrite insert_by_first.
  - reflexivity.
  - intros y Hy. apply by_score_desc_le.
    apply sort_by_In in Hy. apply gates_In in Hy as [Hy _].
    now apply Hall.
Qed.

Lemma top_hit_leads_witness :
  hd_error (context_hits ascii_lower sample_question sample_top sample_hits)
  = Some sample_top.
Proof.
  apply (@top_hit_leads ascii_lower sample_question sample_top sample_rest).
  - repeat constructor; unfold score_ge, Qle; simpl; lia.
  - reflexivity.
  - reflexivity.
Defined.

(** ** The document id *)

Lemma run_length_all (p : char -> bool) (s : jsstring) :
  forallb p s = true -> run_length p s = List.length s.
Proof.
  induction s as [|c s IH]; simpl; [reflexivity|].
  destruct (p c); simpl; [|discriminate]. intros H. now rewrite IH.
Qed.

Lemma run_length_before (p : char -> bool) (a b : jsstring) (c : char) :
  p c = false -> run_length p (a ++ c :: b) <= List.length a.
Proof.
  intros Hc. induction a as [|x a IH]; simpl.
  - now rewrite Hc.
  - destruct (p x); lia.
Qed.

Lemma skipn_before (a b : jsstring) (c : char) (j : nat) :
  j <= List.length a -> exists x t, skipn j (a ++ c :: b) = x :: t.
Proof.
  revert j. induction a as [|y a IH]; intros j Hj; simpl in Hj.
  - assert (j = 0) as -> by lia. now exists c, b.
  - destruct j as [|j]; [now exists y, (a ++ c :: b)|].
    simpl. apply IH. lia.
Qed.

(** [[^.]+$] at a string that still holds a dot: no match. *)
Lemma tail_with_dot (a b : jsstring) :
  match_then [Rep false is_not_dot 1] at_end (a ++ DOT :: b) = None.
Proof.
  cbn [match_then]. apply try_counts_below. intros j Hj.
  pose proof (@run_length_before is_not_dot a b DOT eq_refl) as Hr.
  assert (Hja : j <= List.length a) by (etransitivity; [exact Hj|exact Hr]).
  destruct (@skipn_before a b DOT j Hja) as [x [t ->]]. reflexivity.
Qed.

(** [[^.]+$] at a string without a dot: the whole string, when it is not
    empty. *)
Lemma tail_without_dot (s : jsstring) :
  forallb is_not_dot s = true ->
  match_then [Rep false is_not_dot 1] at_end s
  = match s with
    | [] => None
    | _ :: _ => Some (List.length s + 0, [])
    end.
Proof.
  intros Hs. cbn [match_then]. rewrite (run_length_all _ _ Hs).
  rewrite try_counts_top.
  - destruct s as [|c s]; [reflexivity|].
    change (List.length (c :: s) <? 1) with false. cbv iota.
    rewrite skipn_all, firstn_all. reflexivity.
  - intros j Hj. destruct s as [|c s]; [simpl in Hj; lia|].
    destruct (skipn j (c :: s)) as [|x t] eqn:E; [|reflexivity].
    apply (f_equal (@List.length char)) in E. rewrite length_skipn in E.
    cbn [List.length] in E, Hj. lia.
Qed.

Lemma docId_step (c : char) (s : jsstring) :
  match_then re_ext at_end (c :: s) = None ->
  docId (c :: s) = c :: docId s.
Proof.
  intros H. unfold docId. cbn [replace_first_end]. now rewrite H.
Qed.

Lemma ext_here (c : char) (s : jsstring) :
  match_then re_ext at_end (c :: s)
  = if is_char DOT c
    then extend false [c] (match_then [Rep false is_not_dot 1] at_end s)
    else None.
Proof. reflexivity. Qed.

Lemma ext_miss (c : char) (a b : jsstring) :
  match_then re_ext at_end (c :: a ++ DOT :: b) = None.
Proof.
  rewrite ext_here, tail_with_dot. now destruct (is_char DOT c).
Qed.

(** X14. The document id is the file name without its last extension: a
    final dot followed by at least one character, none of them a dot, is
    removed together with what follows it; a name without a dot and a
    name that ends in a dot are their own document id. *)
Theorem docId_drops_last_extension (base ext : jsstring) :
  ext <> [] ->
  forallb is_not_dot ext = true ->
  docId (base ++ DOT :: ext) = base /\
  docId ext = ext /\
  docId (base ++ [DOT]) = base ++ [DOT].
Proof.
  intros Hne Hext. repeat apply conj.
  - induction base as [|c base IH].
    + unfold docId. cbn [app replace_first_end].
      rewrite ext_here. change (is_char DOT DOT) with true. cbv iota.
      rewrite (tail_without_dot _ Hext).
      destruct ext as [|x ext]; [congruence|].
      cbn [extend subst List.length]. 
      change (skipn (1 + (S (List.length ext) + 0)) (DOT :: x :: ext))
        with (skipn (List.length ext + 0) ext).
      rewrite Nat.add_0_r, skipn_all. reflexivity.
    + cbn [app]. rewrite docId_step by apply ext_miss. now rewrite IH.
  - clear Hne. induction ext as [|c s IH]; [reflexivity|].
    simpl in Hext. apply andb_true_iff in Hext as [Hc Hs].
    rewrite docId_step, (IH Hs); [reflexivity|].
    rewrite ext_here. unfold is_not_dot in Hc.
    now destruct (is_char DOT c).
  - clear. induction base as [|c base IH].
    + reflexivity.
    + cbn [app]. rewrite docId_step by apply (ext_miss c base []).
      now rewrite IH.
Qed.

Lemma docId_drops_last_extension_witness :
  docId (str "manual.v2" ++ DOT :: str "pdf") = str "manual.v2".
Proof.
  apply (@docId_drops_last_extension (str "manual.v2") (str "pdf")).
  - discriminate.
  - reflexivity.
Defined.

(** ** The prompt *)

Lemma part_of_refl (s : jsstring) : part_of s s.
Proof. exists [], []. now rewrite app_nil_r. Qed.

Lemma part_of_app_l (c a s : jsstring) : part_of c s -> part_of c (a ++ s).
Proof.
  intros [x [y ->]]. exists (a ++ x), y. now rewrite app_assoc.
Qed.

Lemma part_of_app_r (c s b : jsstring) : part_of c s -> part_of c (s ++ b).
Proof.
  intros [x [y ->]]. exists x, (y ++ b). now rewrite <- !app_assoc.
Qed.

Lemma join_part (sep x : jsstring) (l : list jsstring) :
  In x l -> part_of x (join sep l).
Proof.
  induction l as [|y l IH]; intros H; [destruct H|].
  destruct l as [|z l].
  - destruct H as [->|[]]. apply part_of_refl.
  - change (join sep (y :: z :: l)) with (y ++ sep ++ join sep (z :: l)).
    destruct H as [->|H].
    + apply part_of_app_r, part_of_refl.
    + now apply part_of_app_l, part_of_app_l, IH.
Qed.

Lemma render_from_nth (contexts : list hit) (k i : nat) (c : hit) :
  nth_error contexts i = Some c ->
  In (render_context (k + i) c) (render_from k contexts).
Proof.
  revert k i. induction contexts as [|x cs IH]; intros k [|i] H;
    simpl in H; try discriminate.
  - injection H as ->. rewrite Nat.add_0_r. now left.
  - right. rewrite <- Nat.add_succ_comm. now apply IH.
Qed.

(** X15. The prompt is always two messages, the fixed system message and
    one user message.  The user message starts with the question and
    ends with the request for the answer; with contexts it holds, for
    each context whose page is an integer of magnitude at most
    [MAX_SAFE] (and whose index is below it), its block: the heading
    with its 1-based number, file name and page in decimal digits, a line
    feed and the text of the context; with no context it holds the notice
    that nothing was retrieved. *)
Theorem prompt_holds_every_context (question : jsstring)
    (contexts : list hit) :
  exists body,
    buildPrompt question contexts
    = [system_message;
       {| msg_role := str "user";
          msg_content :=
            str "Question: " ++ question ++ [LF; LF] ++ body
            ++ str "Answer:" |}] /\
    (forall i c, nth_error contexts i = Some c ->
       (Z.of_nat i < MAX_SAFE)%Z ->
       (Z.abs (hit_page c) <= MAX_SAFE)%Z ->
       part_of (str "### " ++ show_int (Z.of_nat i + 1) ++ str " ["
                ++ hit_filename c ++ str " p." ++ show_int (hit_page c)
                ++ str "]" ++ [LF] ++ hit_text c) body) /\
    (contexts = [] ->
       part_of (str "(No context retrieved above threshold.)") body).
Proof.
  destruct contexts as [|c0 cs].
  - exists (str "(No context retrieved above threshold.)" ++ [LF]).
    repeat apply conj.
    + unfold buildPrompt. now rewrite <- !app_assoc.
    + intros [|i] c H; discriminate H.
    + intros _. apply part_of_app_r, part_of_refl.
  - exists (str "Context:" ++ [LF]
            ++ join [LF; LF] (render_from 0 (c0 :: cs)) ++ [LF; LF]).
    repeat apply conj.
    + unfold buildPrompt. now rewrite <- !app_assoc.
    + intros i c H _ _. apply part_of_app_l, part_of_app_l, part_of_app_r.
      apply join_part. apply (@render_from_nth _ 0 _ _ H).
    + discriminate.
Qed.

(** ** The handler of [/ask] *)

Section HandlerFacts.

Variable num : Type.
Variable toLowerCase : jsstring -> jsstring.
Variable sv : Server num.

(** X16. The handler answers 400 exactly when the question is missing or
    blank, and then calls no service.  When it answers 200, it has
    called the embedder on the trimmed question alone, then the search
    with the first vector, then the completion service once, on the
    prompt built from the trimmed question and the hits it reports as
    used; the body is the response computed from the search result and
    the answer is the content of the reply, or the empty string when the
    reply has none.  When it answers 500, what it called is a non-empty
    prefix of these three calls. *)
Theorem handler_calls_in_order (question : option jsstring) :
  let q := trim (match question with Some s => s | None => [] end) in
  let r := handle_ask toLowerCase sv question in
  (fst r = Http400 <-> q = []) /\
  (fst r = Http400 -> snd r = []) /\
  (forall answer body, fst r = Http200 answer body ->
     exists out hitsRaw reply,
       sv_pipe sv [q] = Some out /\
       sv_search sv (nth_error (server_embed_of out) 0) = Some hitsRaw /\
       sv_llm sv (buildPrompt q (resp_used body)) = Some reply /\
       reply_ok reply = true /\
       answer = match reply_content reply with Some c => c | None => [] end /\
       body = ask toLowerCase q hitsRaw /\
       snd r = [CallEmbed [q];
                CallSearch (nth_error (server_embed_of out) 0);
                CallLLM (buildPrompt q (resp_used body))]) /\
  (fst r = Http500 ->
     exists v m,
       snd r = [CallEmbed [q]] \/
       snd r = [CallEmbed [q]; CallSearch v] \/
       snd r = [CallEmbed [q]; CallSearch v; CallLLM m]).
Proof.
  cbv zeta. unfold handle_ask, callLLM.
  destruct (trim match question with Some s => s | None => [] end)
    as [|c q'] eqn:Eq.
  { cbn [fst snd]. repeat apply conj; try easy. }
  remember (c :: q') as q eqn:Hq.
  assert (Hne : q <> []) by (subst q; discriminate).
  clear Hq Eq c q'.
  match goal with
  | |- context [sv_pipe sv ?x] => destruct (sv_pipe sv x) as [out|] eqn:Ep
  end.
  2:{ cbn [fst snd]. repeat apply conj; try easy.
      intros _. exists None, []. now left. }
  remember (nth_error (server_embed_of out) 0) as qvec eqn:Hv.
  destruct (sv_search sv qvec) as [hitsRaw|] eqn:Es.
  2:{ cbn [fst snd]. repeat apply conj; try easy.
      intros _. exists qvec, []. right. now left. }
  destruct hitsRaw as [|top rest];
    match goal with
    | |- context [sv_llm sv ?m] =>
        destruct (sv_llm sv m) as [reply|] eqn:El;
        [destruct (reply_ok reply) eqn:Eok|]; cbn [fst snd];
        repeat apply conj; try easy;
        try (intros _; exists qvec, m; right; now right)
    end.
  - intros answer body H. injection H as <- <-.
    exists out, [], reply. cbn [resp_used]. rewrite <- Hv, El, Es. easy.
  - intros answer body H. injection H as <- <-.
    exists out, (top :: rest), reply. cbn [resp_used ask].
    rewrite <- Hv, El, Es. easy.
Qed.

End HandlerFacts.

Lemma handler_calls_in_order_witness :
  exists calls,
    snd (handle_ask ascii_lower echo_server (Some sample_question)) = calls /\
    List.length calls = 3.
Proof.
  destruct (handler_calls_in_order ascii_lower echo_server
              (Some sample_question)) as (_ & _ & H & _).
  destruct (H [] (ask ascii_lower (trim sample_question) sample_hits))
    as (out & hitsRaw & reply & _ & _ & _ & _ & _ & _ & Hc).
  - vm_compute. reflexivity.
  - eexists. split; [exact Hc|reflexivity].
Defined.

(** ** Text taken directly from the PDF *)

Lemma strip_nul (s : jsstring) :
  replace_all re_nul [] s = filter not_nul s.
Proof.
  apply (replace_ind re_nul []
           (fun s out => out = filter not_nul s) eq_refl).
  - reflexivity.
  - intros c t out E ->. cbn [match_here re_nul] in E.
    unfold is_char in E. cbn [filter].
    assert (Hc : not_nul c = true)
      by (unfold not_nul; destruct (N.eqb c 0);
          [discriminate E|reflexivity]).
    now rewrite Hc.
  - intros t n caps out E _ _ ->.
    destruct t as [|c t]; [discriminate E|].
    cbn [match_here re_nul] in E. unfold is_char in E.
    cbn [filter].
    assert (Hc : not_nul c = false /\ n = 1)
      by (unfold not_nul; destruct (N.eqb c 0);
          [cbn [extend] in E; injection E as <- _; now split
          |discriminate E]).
    destruct Hc as [-> ->]. reflexivity.
Qed.

Lemma trim_forallb (q : char -> bool) (s : jsstring) :
  forallb q s = true -> forallb q (trim s) = true.
Proof.
  destruct (trim_inside s) as (pre & post & Hs & _ & _).
  intros H. rewrite Hs, !forallb_app in H.
  apply andb_true_iff in H as [_ H]. now apply andb_true_iff in H as [H _].
Qed.

(** X17. The text taken from [pdftotext] holds no NUL character and has
    no white space at either end; after an exit with status 0 its
    characters other than white space are those of the output of the
    tool other than white space and NUL, in order; after any other exit
    it is empty. *)
Theorem direct_text_is_clean (r : spawn_result) :
  forallb not_nul (direct_text r) = true /\
  trim (direct_text r) = direct_text r /\
  (exited_zero (status r) = true ->
   filter solid (direct_text r)
   = filter (fun c => not_nul c && solid c) (stdout r)) /\
  (exited_zero (status r) = false -> direct_text r = []).
Proof.
  unfold direct_text. destruct (exited_zero (status r)).
  - rewrite strip_nul. repeat apply conj.
    + apply trim_forallb. apply forallb_forall. intros c Hc.
      now apply filter_In in Hc.
    + apply trim_idem.
    + intros _. now rewrite filter_solid_trim, filter_filter.
    + discriminate.
  - repeat apply conj; try reflexivity. discriminate.
Qed.

(** ** The page count *)

Lemma search_hit (re : regex) (s : jsstring) (r : nat * list jsstring) :
  match_here re s = Some r -> search re s = Some r.
Proof. intros H. destruct s; cbn [search]; now rewrite H. Qed.

Lemma search_skip (re : regex) (pre tail : jsstring) :
  (forall a b, pre = a ++ b -> b <> [] -> match_here re (b ++ tail) = None) ->
  search re (pre ++ tail) = search re tail.
Proof.
  induction pre as [|c pre IH]; intros H; [reflexivity|].
  cbn [app]. destruct tail as [|t0 tail].
  - cbn [search]. change (c :: pre ++ []) with ((c :: pre) ++ []).
    rewrite (H [] (c :: pre) eq_refl) by discriminate.
    apply IH. intros a b -> Hb. apply (H (c :: a) b eq_refl Hb).
  - cbn [search]. change (c :: pre ++ t0 :: tail) with ((c :: pre) ++ t0 :: tail).
    rewrite (H [] (c :: pre) eq_refl) by discriminate.
    apply IH. intros a b -> Hb. apply (H (c :: a) b eq_refl Hb).
Qed.

Lemma includes_suffix (a b w : jsstring) :
  includes (a ++ b) w = false -> isPrefix w b = false.
Proof.
  induction a as [|c a IH]; cbn [app].
  - destruct b; cbn [includes]; intros H;
      apply orb_false_iff in H; apply H.
  - cbn [includes]. intros H. apply orb_false_iff in H as [_ H]. now apply IH.
Qed.

(** ["Pages:"] does not start inside a text that is followed by
    ["Pages:"], unless it lies within that text: no proper end of the
    word is a start of it. *)
Lemma label_no_overlap (b t : jsstring) :
  b <> [] ->
  isPrefix (str "Pages:") b = false ->
  isPrefix (str "Pages:") (b ++ str "Pages:" ++ t) = false.
Proof.
  intros Hb H.
  destruct b as [|c1 [|c2 [|c3 [|c4 [|c5 [|c6 b]]]]]]; [congruence|..];
    cbn in H |- *; rewrite ?andb_false_r; try reflexivity; exact H.
Qed.

Lemma label_matches (x : jsstring) :
  match_here re_pages (str "Pages:" ++ x)
  = match match_here [Rep false is_space 1; Rep true is_digit 1] x with
    | Some (n, caps) => Some (6 + n, caps)
    | None => None
    end.
Proof.
  change (match_here re_pages (str "Pages:" ++ x))
    with (extend false [80%N] (extend false [97%N] (extend false [103%N]
            (extend false [101%N] (extend false [115%N] (extend false [58%N]
               (match_here [Rep false is_space 1; Rep true is_digit 1] x))))))).
  now destruct (match_here [Rep false is_space 1; Rep true is_digit 1] x)
    as [[n caps]|].
Qed.

Lemma literal_misses (lit s : jsstring) (re : regex) :
  isPrefix lit s = false ->
  match_here (List.map (fun c => Ch false (is_char c)) lit ++ re) s = None.
Proof.
  revert s. induction lit as [|a lit IH]; intros s H; [discriminate H|].
  destruct s as [|c s]; [reflexivity|].
  cbn [List.map app match_here]. cbn [isPrefix] in H.
  unfold is_char. rewrite N.eqb_sym.
  destruct (N.eqb a c); [|reflexivity].
  now rewrite IH.
Qed.

Lemma label_misses (b : jsstring) :
  isPrefix (str "Pages:") b = false -> match_here re_pages b = None.
Proof. apply literal_misses. Qed.

Lemma run_length_app (p : char -> bool) (a b : jsstring) :
  forallb p a = true ->
  match b with c :: _ => p c = false | [] => True end ->
  run_length p (a ++ b) = List.length a.
Proof.
  intros Ha Hb. induction a as [|c a IH]; cbn [app].
  - destruct b as [|c b]; [reflexivity|]. simpl. now rewrite Hb.
  - simpl in Ha. apply andb_true_iff in Ha as [Hc Ha].
    simpl. rewrite Hc. now rewrite IH.
Qed.

Lemma digit_not_space (c : char) : is_digit c = true -> is_space c = false.
Proof.
  unfold is_digit, is_space, in_range, is_char. intros H.
  apply andb_true_iff in H as [H1 H2].
  apply N.leb_le in H1. apply N.leb_le in H2.
  repeat (apply orb_false_iff; split);
    try (apply andb_false_iff; (left + right); apply N.leb_gt; lia);
    apply N.eqb_neq; lia.
Qed.

Lemma space_not_digit (c : char) : is_space c = true -> is_digit c = false.
Proof.
  intros H. destruct (is_digit c) eqn:E; [|reflexivity].
  apply digit_not_space in E. congruence.
Qed.

Lemma nonempty_ltb (s : jsstring) :
  s <> [] -> (List.length s <? 1) = false.
Proof. destruct s; [congruence|reflexivity]. Qed.

Lemma digits_match (digits rest : jsstring) :
  digits <> [] ->
  forallb is_digit digits = true ->
  match rest with c :: _ => is_digit c = false | [] => True end ->
  match_here [Rep true is_digit 1] (digits ++ rest)
  = Some (List.length digits + 0, [digits]).
Proof.
  intros Hne Hd Hr. cbn [match_here].
  rewrite (run_length_app _ _ _ Hd Hr), try_counts_eq.
  rewrite (nonempty_ltb Hne).
  rewrite firstn_app, firstn_all, Nat.sub_diag.
  cbn [firstn extend]. now rewrite app_nil_r.
Qed.

Lemma count_matches (ws digits rest : jsstring) :
  ws <> [] ->
  forallb is_space ws = true ->
  digits <> [] ->
  forallb is_digit digits = true ->
  match rest with c :: _ => is_digit c = false | [] => True end ->
  match_here [Rep false is_space 1; Rep true is_digit 1]
    (ws ++ digits ++ rest)
  = Some (List.length ws + (List.length digits + 0), [digits]).
Proof.
  intros Hw Hws Hd Hds Hr.
  change (match_here [Rep false is_space 1; Rep true is_digit 1]
            (ws ++ digits ++ rest))
    with (try_counts (match_here [Rep true is_digit 1]) false
            (ws ++ digits ++ rest) 1
            (run_length is_space (ws ++ digits ++ rest))).
  assert (Hrun : run_length is_space (ws ++ digits ++ rest) = List.length ws).
  { apply run_length_app; [exact Hws|].
    destruct digits as [|d digits]; [congruence|]. cbn [app].
    simpl in Hds. apply andb_true_iff in Hds as [Hd0 _].
    now apply digit_not_space. }
  rewrite Hrun, try_counts_top.
  - rewrite (nonempty_ltb Hw).
    rewrite skipn_app, skipn_all, Nat.sub_diag, firstn_app, firstn_all,
      Nat.sub_diag. cbn [skipn firstn app]. rewrite app_nil_r.
    now rewrite digits_match.
  - intros j Hj. rewrite <- Hrun in Hj.
    destruct (run_length_inside _ _ Hj) as (c & t & -> & Hc).
    cbn [match_here run_length]. rewrite (space_not_digit _ Hc).
    reflexivity.
Qed.

Lemma parseInt_from (d : jsstring) (acc : Z) :
  forallb is_digit d = true -> (0 <= acc)%Z ->
  (0 <= fold_left (fun a c => 10 * a + (Z.of_N c - 48)) d acc)%Z.
Proof.
  revert acc. induction d as [|c d IH]; intros acc Hd Hacc; [exact Hacc|].
  simpl in Hd. apply andb_true_iff in Hd as [Hc Hd].
  cbn [fold_left]. apply IH; [exact Hd|].
  unfold is_digit, in_range in Hc. apply andb_true_iff in Hc as [Hc _].
  apply N.leb_le in Hc. lia.
Qed.

Section PageCount.

Variable num : Type.
Variable w : World num.

(** X18. When [pdfinfo] exits with status 0 and its output holds the
    label [Pages:] for the first time followed by white space and
    decimal digits whose value is at most [MAX_SAFE], the page count is
    the value of the whole run of digits, and is not negative. *)
Theorem page_count_is_first_label (pdf pre ws digits rest : jsstring) :
  exited_zero (status (pdfinfo w pdf)) = true ->
  stdout (pdfinfo w pdf) = pre ++ str "Pages:" ++ ws ++ digits ++ rest ->
  includes pre (str "Pages:") = false ->
  ws <> [] -> forallb is_space ws = true ->
  digits <> [] -> forallb is_digit digits = true ->
  (parseInt digits <= MAX_SAFE)%Z ->
  match rest with c :: _ => is_digit c = false | [] => True end ->
  fst (getPageCount w pdf) = Ok (parseInt digits) /\
  (0 <= parseInt digits <= MAX_SAFE)%Z.
Proof.
  intros Hst Hout Hpre Hw Hws Hd Hds Hsafe Hr. split.
  - unfold getPageCount. rewrite Hst, Hout, search_skip.
    + rewrite search_hit with (r := (6 + (List.length ws
                                         + (List.length digits + 0)),
                                     [digits])); [reflexivity|].
      now rewrite label_matches, (count_matches _ Hw Hws Hd Hds Hr).
    + intros a b -> Hb. apply label_misses, label_no_overlap; [exact Hb|].
      now apply includes_suffix with a.
  - split; [|exact Hsafe]. apply parseInt_from; [exact Hds|lia].
Qed.

End PageCount.

Lemma page_count_is_first_label_witness :
  fst (getPageCount world_plain manual_pdf) = Ok (parseInt (str "1")).
Proof.
  apply (@page_count_is_first_label Z world_plain manual_pdf
           [] (str "          ") (str "1") []);
    try reflexivity; try discriminate; exact I.
Defined.
